(** * MidiInputManager: dual-hand MIDI buffering, chord events, adaptive split

    A shallow embedding of [src/lib/midiInputManager.ts].

    Modelling conventions
    - MIDI note numbers, velocities, controller values and note counts are
      integers ([Z]); the caller in [src/app/sound/page.tsx] passes raw MIDI
      bytes.  Timestamps, window lengths and blend factors are JS numbers
      that may be fractional; they are exact rationals ([Q]).  The rounding of
      IEEE doubles is not modelled: every arithmetic step is exact.
    - [Math.round x] is [floor (x + 1/2)] (ties go up, as in JS).
    - The [Map] of active notes is a [gmap Z ActiveNote].  A JS [Map] is
      visited in insertion order, a [gmap] in key order; the only loop over
      the map whose order could show feeds a sort ([visit_order_irrelevant]).
    - [setTimeout], [setInterval], [clearTimeout] and [performance.now()] are
      provided by a [Host]: a clock, a queue of pending timers and a counter
      for fresh timer handles.  The host also keeps a log of what the
      manager did to the outside: each call of a subscriber and each event
      handed to [emitChord] / [emitSplitChange].
    - One run of an entry point or of a timer callback reads one clock
      value; the event loop ([step]) sets it.  A timer fires when the loop
      gives it a turn at or after its due time, never before.
    - A JS exception is a [Throw] completion; the state reached before the
      throw stays as it is.
    - Subscribers and [Chord.detect] are collaborators: their behaviour is a
      Section variable.  Subscribers do not call back into the manager. *)

From Stdlib Require Import QArith Qround Lqa ZArith Lia.
From stdpp Require Import gmap list strings.

Local Open Scope Z_scope.

(** ** Numbers *)

Definition Qltb (x y : Q) : bool := negb (Qle_bool y x).

(** [Math.round] *)
Definition Math_round (x : Q) : Z := Qfloor (x + (1 # 2)).

(** [Math.max] on two numbers *)
Definition Math_max (x y : Q) : Q := if Qle_bool x y then y else x.

(** [xs.sort((a, b) => a - b)] on an array of integers: ascending order. *)
Fixpoint insert_num (x : Z) (l : list Z) : list Z :=
  match l with
  | [] => [x]
  | y :: r => if x <=? y then x :: y :: r else y :: insert_num x r
  end.

Fixpoint sort_num (l : list Z) : list Z :=
  match l with
  | [] => []
  | x :: r => insert_num x (sort_num r)
  end.

(** [arr.includes(x)] *)
Definition includes (l : list Z) (x : Z) : bool := bool_decide (x ∈ l).

(** [Array.from(new Set(xs))]: distinct values, first occurrences, in order. *)
Fixpoint from_Set (seen l : list Z) : list Z :=
  match l with
  | [] => []
  | x :: r => if includes seen x then from_Set seen r
              else x :: from_Set (x :: seen) r
  end.

(** [arr.indexOf(x)], [-1] when absent. *)
Fixpoint indexOf_from (i : Z) (l : list Z) (x : Z) : Z :=
  match l with
  | [] => -1
  | y :: r => if y =? x then i else indexOf_from (i + 1) r x
  end.

Definition indexOf (l : list Z) (x : Z) : Z := indexOf_from 0 l x.

(** ** Data model *)

Inductive Hand := L | R.

#[global] Instance Hand_eq_dec : EqDecision Hand.
Proof. solve_decision. Defined.

Definition Hand_eqb (a b : Hand) : bool :=
  match a, b with L, L | R, R => true | _, _ => false end.

Inductive Role := Chord | Dyad | BassLine | Arpeggio | Cluster.

Record MidiInputManagerConfig := {
  chordWindowMsRight : Q;
  chordWindowMsLeft : Q;
  earlyCloseCountRight : Z;
  earlyCloseCountLeft : Z;
  rollExtensionMsRight : Q;
  rollExtensionMsLeft : Q;
  splitInitialMidi : Z;
  splitMin : Z;
  splitMax : Z;
  splitAdaptIntervalMs : Q;
  splitShiftThreshold : Z;
  leftBassArpGapMs : Q;
  velocityBlendRight : Q;
  velocityBlendLeft : Q;
  maxClusterSize : Z;
  sustainIncludesBuffer : bool
}.

Definition DEFAULTS : MidiInputManagerConfig := {|
  chordWindowMsRight := 50;
  chordWindowMsLeft := 80;
  earlyCloseCountRight := 4;
  earlyCloseCountLeft := 3;
  rollExtensionMsRight := 180;
  rollExtensionMsLeft := 250;
  splitInitialMidi := 60;
  splitMin := 52;
  splitMax := 64;
  splitAdaptIntervalMs := 1000;
  splitShiftThreshold := 5;
  leftBassArpGapMs := 120;
  velocityBlendRight := 1 # 2;
  velocityBlendLeft := 2 # 10;
  maxClusterSize := 7;
  sustainIncludesBuffer := true
|}.

Record BufferedNote := {
  midi : Z;
  velocity : Z;
  time : Q
}.

(** [ActiveNote extends BufferedNote] *)
Record ActiveNote := {
  a_midi : Z;
  a_velocity : Z;
  a_time : Q;
  sustained : bool;
  a_hand : Hand
}.

Record ChordEvent := {
  e_hand : Hand;
  e_name : option string;
  e_inversion : option Z;
  e_notes : list Z;
  e_velocities : list Z;
  e_role : Role;
  e_root : option Z;
  e_pitchClasses : list Z;
  e_timestamp : Q;
  e_rawWindowMs : Q
}.

Record SplitChangeEvent := {
  splitMidi : Z;
  s_timestamp : Q
}.

Record BufferState := {
  notes : list BufferedNote;
  firstTime : option Q;
  timer : option nat;
  lastEmissionTime : Q
}.

(** Subscribers are known by identity; [chordCallbacks] and [splitCallbacks]
    are JS [Set]s, which keep insertion order and hold a value once. *)
Definition Set_add (cb : nat) (s : list nat) : list nat :=
  if bool_decide (cb ∈ s) then s else s ++ [cb].

Definition Set_delete (cb : nat) (s : list nat) : list nat :=
  filter (fun c => c ≠ cb) s.

Record MidiInputManager := {
  cfg : MidiInputManagerConfig;
  splitPoint : Z;
  chordCallbacks : list nat;
  splitCallbacks : list nat;
  bufferL : BufferState;
  bufferR : BufferState;
  activeNotes : gmap Z ActiveNote;
  pedalDown : bool;
  recentNoteOns : list Z;
  adaptTimer : option nat;
  disposed : bool
}.

(** ** The host: clock, timers, and what the outside observes *)

Inductive TimerTask :=
| ProcessBufferTask (h : Hand)     (* () => this.processBuffer(hand) *)
| RecomputeSplitTask.              (* () => this.recomputeSplit() *)

Record Timer := {
  t_id : nat;
  t_due : Q;
  t_task : TimerTask;
  t_every : option Q   (* [Some d] for setInterval, [None] for setTimeout *)
}.

Inductive Exn :=
| ChordCallbackError (cb : nat)
| SplitCallbackError (cb : nat)
| DetectError.

Inductive Obs :=
| EmitChord (evt : ChordEvent)             (* emitChord entered with evt *)
| ChordCb (cb : nat) (evt : ChordEvent)    (* cb(evt) called *)
| EmitSplit (evt : SplitChangeEvent)
| SplitCb (cb : nat) (evt : SplitChangeEvent)
| Uncaught (e : Exn).                      (* left an entry point or a timer *)

Record Host := {
  now : Q;                 (* performance.now() *)
  timers : list Timer;
  nextTimerId : nat;
  log : list Obs
}.

Record World := {
  this : MidiInputManager;
  host : Host
}.

Inductive Completion := Normal | Throw (e : Exn).

(** ** Host primitives *)

Definition with_timers (ts : list Timer) (h : Host) : Host :=
  {| now := now h; timers := ts; nextTimerId := nextTimerId h; log := log h |}.

Definition schedule (task : TimerTask) (delay : Q) (every : option Q) (h : Host)
  : nat * Host :=
  (nextTimerId h,
   {| now := now h;
      timers := timers h ++ [ {| t_id := nextTimerId h;
                                 t_due := (now h + delay)%Q;
                                 t_task := task;
                                 t_every := every |} ];
      nextTimerId := S (nextTimerId h);
      log := log h |}).

Definition setTimeout (task : TimerTask) (delay : Q) (h : Host) : nat * Host :=
  schedule task delay None h.

Definition setInterval (task : TimerTask) (delay : Q) (h : Host) : nat * Host :=
  schedule task delay (Some delay) h.

Definition keeps (id : nat) (t : Timer) : bool := negb (t_id t =? id)%nat.

(** [clearTimeout(id)] and [clearInterval(id)]: unknown handles are ignored. *)
Definition clearTimeout (id : nat) (h : Host) : Host :=
  with_timers (List.filter (keeps id) (timers h)) h.

Definition observe (o : Obs) (h : Host) : Host :=
  {| now := now h; timers := timers h; nextTimerId := nextTimerId h;
     log := log h ++ [o] |}.

Definition at_time (t : Q) (h : Host) : Host :=
  {| now := t; timers := timers h; nextTimerId := nextTimerId h; log := log h |}.

(** A page that has just loaded: handles start at 1, as in browsers. *)
Definition fresh_host : Host :=
  {| now := 0; timers := []; nextTimerId := 1; log := [] |}.

(** [if (handle) ...]: a timer handle is a number, and [0] is falsy. *)
Definition truthy_handle (o : option nat) : option nat :=
  match o with
  | Some (S n) => Some (S n)
  | _ => None
  end.

(** [if (handle) clearTimeout(handle)] *)
Definition clear_if_set (o : option nat) (h : Host) : Host :=
  match truthy_handle o with
  | Some id => clearTimeout id h
  | None => h
  end.

(** ** Field updates *)

Definition with_host (h : Host) (w : World) : World :=
  {| this := this w; host := h |}.

Definition with_this (m : MidiInputManager) (w : World) : World :=
  {| this := m; host := host w |}.

Definition buffer (hand : Hand) (m : MidiInputManager) : BufferState :=
  match hand with L => bufferL m | R => bufferR m end.

Definition set_buffer (hand : Hand) (b : BufferState) (m : MidiInputManager)
  : MidiInputManager :=
  {| cfg := cfg m; splitPoint := splitPoint m;
     chordCallbacks := chordCallbacks m; splitCallbacks := splitCallbacks m;
     bufferL := match hand with L => b | R => bufferL m end;
     bufferR := match hand with L => bufferR m | R => b end;
     activeNotes := activeNotes m; pedalDown := pedalDown m;
     recentNoteOns := recentNoteOns m; adaptTimer := adaptTimer m;
     disposed := disposed m |}.

Definition set_activeNotes (a : gmap Z ActiveNote) (m : MidiInputManager)
  : MidiInputManager :=
  {| cfg := cfg m; splitPoint := splitPoint m;
     chordCallbacks := chordCallbacks m; splitCallbacks := splitCallbacks m;
     bufferL := bufferL m; bufferR := bufferR m;
     activeNotes := a; pedalDown := pedalDown m;
     recentNoteOns := recentNoteOns m; adaptTimer := adaptTimer m;
     disposed := disposed m |}.

Definition set_pedalDown (p : bool) (m : MidiInputManager) : MidiInputManager :=
  {| cfg := cfg m; splitPoint := splitPoint m;
     chordCallbacks := chordCallbacks m; splitCallbacks := splitCallbacks m;
     bufferL := bufferL m; bufferR := bufferR m;
     activeNotes := activeNotes m; pedalDown := p;
     recentNoteOns := recentNoteOns m; adaptTimer := adaptTimer m;
     disposed := disposed m |}.

Definition set_recentNoteOns (r : list Z) (m : MidiInputManager)
  : MidiInputManager :=
  {| cfg := cfg m; splitPoint := splitPoint m;
     chordCallbacks := chordCallbacks m; splitCallbacks := splitCallbacks m;
     bufferL := bufferL m; bufferR := bufferR m;
     activeNotes := activeNotes m; pedalDown := pedalDown m;
     recentNoteOns := r; adaptTimer := adaptTimer m;
     disposed := disposed m |}.

Definition set_splitPoint (s : Z) (m : MidiInputManager) : MidiInputManager :=
  {| cfg := cfg m; splitPoint := s;
     chordCallbacks := chordCallbacks m; splitCallbacks := splitCallbacks m;
     bufferL := bufferL m; bufferR := bufferR m;
     activeNotes := activeNotes m; pedalDown := pedalDown m;
     recentNoteOns := recentNoteOns m; adaptTimer := adaptTimer m;
     disposed := disposed m |}.

Definition set_callbacks (cc sc : list nat) (m : MidiInputManager)
  : MidiInputManager :=
  {| cfg := cfg m; splitPoint := splitPoint m;
     chordCallbacks := cc; splitCallbacks := sc;
     bufferL := bufferL m; bufferR := bufferR m;
     activeNotes := activeNotes m; pedalDown := pedalDown m;
     recentNoteOns := recentNoteOns m; adaptTimer := adaptTimer m;
     disposed := disposed m |}.

Definition set_disposed (m : MidiInputManager) : MidiInputManager :=
  {| cfg := cfg m; splitPoint := splitPoint m;
     chordCallbacks := chordCallbacks m; splitCallbacks := splitCallbacks m;
     bufferL := bufferL m; bufferR := bufferR m;
     activeNotes := activeNotes m; pedalDown := pedalDown m;
     recentNoteOns := recentNoteOns m; adaptTimer := adaptTimer m;
     disposed := true |}.

Definition set_notes (ns : list BufferedNote) (b : BufferState) : BufferState :=
  {| notes := ns; firstTime := firstTime b; timer := timer b;
     lastEmissionTime := lastEmissionTime b |}.

Definition set_timer (t : option nat) (b : BufferState) : BufferState :=
  {| notes := notes b; firstTime := firstTime b; timer := t;
     lastEmissionTime := lastEmissionTime b |}.

Definition empty_buffer : BufferState :=
  {| notes := []; firstTime := None; timer := None; lastEmissionTime := 0 |}.

(** ** Utilities (the private methods at the end of the class) *)

Definition median (values : list Z) : Z :=
  if (length values =? 0)%nat then 64
  else
    let sorted := sort_num values in
    let mid := (length sorted / 2)%nat in
    if (length sorted mod 2 =? 0)%nat
    then Math_round ((inject_Z (nth (mid - 1) sorted 0)
                      + inject_Z (nth mid sorted 0)) / 2)
    else nth mid sorted 0.

Definition blendVelocity (original median : Z) (blend : Q) : Z :=
  Math_round (inject_Z median
              + (inject_Z original - inject_Z median) * (1 - blend)).

Definition classifyRole (c : MidiInputManagerConfig) (hand : Hand)
    (noteSet pcs : list Z) (windowMs : Q) : Role :=
  if maxClusterSize c <=? Z.of_nat (length pcs) then Cluster
  else if 3 <=? Z.of_nat (length pcs) then Chord
  else if Z.of_nat (length pcs) =? 2 then Dyad
  else if Hand_eqb hand L && Qltb (leftBassArpGapMs c) windowMs then BassLine
  else Arpeggio.

(** ** Chord naming (the call into tonal) *)

(** What [Chord.detect(notes)] can do: throw, give a null-like value, or
    give an array of names. *)
Inductive DetectResult :=
| DetectThrows
| DetectNullish
| DetectNames (names : list string).

Inductive Result (A : Type) :=
| Ok (a : A)
| Err (e : Exn).
Arguments Ok {A} a.
Arguments Err {A} e.

Definition pcToNote : list string :=
  ["C"; "C#"; "D"; "D#"; "E"; "F"; "F#"; "G"; "G#"; "A"; "A#"; "B"]%string.

(** [pcToNote[pc]], [undefined] outside the array *)
Definition pcToNote_at (pc : Z) : option string :=
  if pc <? 0 then None else pcToNote !! Z.to_nat pc.

(** [names.sort((a, b) => a.length - b.length)]; the sort is stable. *)
Fixpoint insert_by_length (s : string) (l : list string) : list string :=
  match l with
  | [] => [s]
  | y :: r => if (String.length s <=? String.length y)%nat
              then s :: y :: r else y :: insert_by_length s r
  end.

Fixpoint sort_by_length (l : list string) : list string :=
  match l with
  | [] => []
  | x :: r => insert_by_length x (sort_by_length r)
  end.

(** A string is truthy when it is not empty. *)
Definition truthy_name (o : option string) : bool :=
  match o with
  | Some EmptyString => false
  | Some _ => true
  | None => false
  end.

(** [!buf.firstTime]: [null] and [0] are both falsy. *)
Definition falsy_time (o : option Q) : bool :=
  match o with
  | None => true
  | Some t => Qeq_bool t 0
  end.

Section Manager.

(** The collaborators. *)
Variable Chord_detect : list (option string) -> DetectResult.
Variable chord_cb_throws : nat -> ChordEvent -> bool.
Variable split_cb_throws : nat -> SplitChangeEvent -> bool.

Definition detectChord (pcs : list Z) : Result (option string) :=
  let notes := map pcToNote_at pcs in
  match Chord_detect notes with
  | DetectThrows => Err DetectError
  | DetectNullish => Ok None
  | DetectNames detected =>
      if (length detected =? 0)%nat then Ok None
      else Ok (head (sort_by_length detected))
  end.

(** [for (const cb of this.chordCallbacks) cb(evt)] *)
Fixpoint call_chord_callbacks (cbs : list nat) (evt : ChordEvent) (h : Host)
  : Host * Completion :=
  match cbs with
  | [] => (h, Normal)
  | cb :: rest =>
      let h' := observe (ChordCb cb evt) h in
      if chord_cb_throws cb evt then (h', Throw (ChordCallbackError cb))
      else call_chord_callbacks rest evt h'
  end.

Definition emitChord (evt : ChordEvent) (w : World) : World * Completion :=
  let '(h, c) := call_chord_callbacks (chordCallbacks (this w)) evt
                   (observe (EmitChord evt) (host w)) in
  (with_host h w, c).

Fixpoint call_split_callbacks (cbs : list nat) (evt : SplitChangeEvent)
    (h : Host) : Host * Completion :=
  match cbs with
  | [] => (h, Normal)
  | cb :: rest =>
      let h' := observe (SplitCb cb evt) h in
      if split_cb_throws cb evt then (h', Throw (SplitCallbackError cb))
      else call_split_callbacks rest evt h'
  end.

Definition emitSplitChange (w : World) : World * Completion :=
  let evt := {| splitMidi := splitPoint (this w);
                s_timestamp := now (host w) |} in
  let '(h, c) := call_split_callbacks (splitCallbacks (this w)) evt
                   (observe (EmitSplit evt) (host w)) in
  (with_host h w, c).

Definition clearTimer (hand : Hand) (w : World) : World :=
  let buf := buffer hand (this w) in
  {| this := set_buffer hand (set_timer None buf) (this w);
     host := clear_if_set (timer buf) (host w) |}.

Definition resetBuffer (hand : Hand) (w : World) : World :=
  let w1 := clearTimer hand w in
  let buf := buffer hand (this w1) in
  with_this (set_buffer hand
               {| notes := []; firstTime := None; timer := timer buf;
                  lastEmissionTime := lastEmissionTime buf |} (this w1)) w1.

(** ** processBuffer *)

(** Lines 221-229: the buffered pitches, then the sustained sounding notes
    of the same hand that are not there yet, then sorted.  [vals] is
    [this.activeNotes.values()]. *)
Definition push_sustained (hand : Hand) (noteSet : list Z) (an : ActiveNote)
  : list Z :=
  if Hand_eqb (a_hand an) hand && sustained an
     && negb (includes noteSet (a_midi an))
  then noteSet ++ [a_midi an] else noteSet.

Definition gather (m : MidiInputManager) (hand : Hand) : list Z :=
  let noteSet := map midi (notes (buffer hand m)) in
  if sustainIncludesBuffer (cfg m)
  then foldl (push_sustained hand) noteSet (map snd (map_to_list (activeNotes m)))
  else noteSet.

Definition noteSet_of (m : MidiInputManager) (hand : Hand) : list Z :=
  sort_num (gather m hand).

(** Line 231 *)
Definition distinctPitchClasses_of (noteSet : list Z) : list Z :=
  sort_num (from_Set [] (map (fun n => Z.rem n 12) noteSet)).

(** [hand === 'R' ? this.cfg.velocityBlendRight : this.cfg.velocityBlendLeft] *)
Definition velocityBlend_of (c : MidiInputManagerConfig) (hand : Hand) : Q :=
  match hand with R => velocityBlendRight c | L => velocityBlendLeft c end.

(** Lines 234-237 *)
Definition velocitiesNormalized_of (m : MidiInputManager) (hand : Hand)
  : list Z :=
  let buf := buffer hand m in
  let velocitiesOriginal := map velocity (notes buf) in
  let medianVel := median velocitiesOriginal in
  let blend := velocityBlend_of (cfg m) hand in
  map (fun v => blendVelocity (velocity v) medianVel blend) (notes buf).

Definition names_role (r : Role) : bool :=
  match r with Chord | Dyad | Cluster => true | _ => false end.

(** Lines 218-268: the event built from a buffer whose window started at
    [first]; [Err] when [Chord.detect] throws. *)
Definition build_event (hand : Hand) (first : Q) (w : World)
  : Result ChordEvent :=
  let m := this w in
  let windowMs := (now (host w) - first)%Q in
  let noteSet := noteSet_of m hand in
  let distinctPitchClasses := distinctPitchClasses_of noteSet in
  let velocitiesNormalized := velocitiesNormalized_of m hand in
  let role := classifyRole (cfg m) hand noteSet distinctPitchClasses windowMs in
  let named :=
    if names_role role then
      match detectChord distinctPitchClasses with
      | Err e => Err e
      | Ok chordName =>
          match noteSet with
          | n0 :: _ =>
              if truthy_name chordName
              then Ok (chordName,
                       Some (indexOf distinctPitchClasses (Z.rem n0 12)),
                       Some n0)
              else Ok (chordName, None, None)
          | [] => Ok (chordName, None, None)
          end
      end
    else Ok (None, None, None) in
  match named with
  | Err e => Err e
  | Ok (chordName, inversion, root) =>
      Ok {| e_hand := hand;
            e_name := chordName;
            e_inversion := match inversion with
                           | Some i => if i =? -1 then None else Some i
                           | None => None
                           end;
            e_notes := noteSet;
            e_velocities := velocitiesNormalized;
            e_role := role;
            e_root := root;
            e_pitchClasses := distinctPitchClasses;
            e_timestamp := now (host w);
            e_rawWindowMs := windowMs |}
  end.

Definition processBuffer (hand : Hand) (w : World) : World * Completion :=
  let buf := buffer hand (this w) in
  match firstTime buf with
  | Some first =>
      if falsy_time (firstTime buf) || (length (notes buf) =? 0)%nat
      then (resetBuffer hand w, Normal)
      else
        match build_event hand first w with
        | Err e => (w, Throw e)
        | Ok event =>
            match emitChord event w with
            | (w', Normal) => (resetBuffer hand w', Normal)
            | (w', Throw e) => (w', Throw e)
            end
        end
  | None => (resetBuffer hand w, Normal)
  end.

(** ** pushToBuffer *)

Definition cfgWindow_of (c : MidiInputManagerConfig) (hand : Hand) : Q :=
  match hand with L => chordWindowMsLeft c | R => chordWindowMsRight c end.

Definition earlyCount_of (c : MidiInputManagerConfig) (hand : Hand) : Z :=
  match hand with L => earlyCloseCountLeft c | R => earlyCloseCountRight c end.

Definition rollExtension_of (c : MidiInputManagerConfig) (hand : Hand) : Q :=
  match hand with L => rollExtensionMsLeft c | R => rollExtensionMsRight c end.

(** [buf.timer = setTimeout(() => this.processBuffer(hand), delay)] *)
Definition arm (hand : Hand) (delay : Q) (w : World) : World :=
  let '(id, h) := setTimeout (ProcessBufferTask hand) delay (host w) in
  {| this := set_buffer hand (set_timer (Some id) (buffer hand (this w))) (this w);
     host := h |}.

Definition pushToBuffer (hand : Hand) (note : BufferedNote) (w : World)
  : World * Completion :=
  let buf := buffer hand (this w) in
  let cfgWindow := cfgWindow_of (cfg (this w)) hand in
  let earlyCount := earlyCount_of (cfg (this w)) hand in
  match firstTime buf with
  | None =>
      let w1 := with_this (set_buffer hand
                  {| notes := [note]; firstTime := Some (time note);
                     timer := timer buf;
                     lastEmissionTime := lastEmissionTime buf |} (this w)) w in
      (arm hand cfgWindow w1, Normal)
  | Some first =>
      let w1 := with_this (set_buffer hand
                  (set_notes (notes buf ++ [note]) buf) (this w)) w in
      let elapsed := (time note - first)%Q in
      if (earlyCount <=? Z.of_nat (length (notes buf ++ [note])))
         && Qltb elapsed (cfgWindow * (6 # 10))
      then processBuffer hand (clearTimer hand w1)
      else
        let rollExtension := rollExtension_of (cfg (this w)) hand in
        if Qltb cfgWindow elapsed && Qle_bool elapsed rollExtension
        then (arm hand (Math_max 10 (rollExtension - elapsed))
                (clearTimer hand w1), Normal)
        else (w1, Normal)
  end.

(** ** Public API and entry points *)

Definition constructor (config : MidiInputManagerConfig) (h : Host) : World :=
  let '(id, h') := setInterval RecomputeSplitTask
                     (splitAdaptIntervalMs config) h in
  {| this := {| cfg := config;
                splitPoint := splitInitialMidi config;
                chordCallbacks := [];
                splitCallbacks := [];
                bufferL := empty_buffer;
                bufferR := empty_buffer;
                activeNotes := ∅;
                pedalDown := false;
                recentNoteOns := [];
                adaptTimer := Some id;
                disposed := false |};
     host := h' |}.

Definition onChord (cb : nat) (w : World) : World :=
  with_this (set_callbacks (Set_add cb (chordCallbacks (this w)))
               (splitCallbacks (this w)) (this w)) w.

(** The closure returned by [onChord(cb)] *)
Definition offChord (cb : nat) (w : World) : World :=
  with_this (set_callbacks (Set_delete cb (chordCallbacks (this w)))
               (splitCallbacks (this w)) (this w)) w.

Definition onSplitChange (cb : nat) (w : World) : World :=
  with_this (set_callbacks (chordCallbacks (this w))
               (Set_add cb (splitCallbacks (this w))) (this w)) w.

Definition offSplitChange (cb : nat) (w : World) : World :=
  with_this (set_callbacks (chordCallbacks (this w))
               (Set_delete cb (splitCallbacks (this w))) (this w)) w.

Definition getCurrentSplit (w : World) : Z := splitPoint (this w).

Definition dispose (w : World) : World :=
  let m := this w in
  let h1 := clear_if_set (timer (bufferL m)) (host w) in
  let h2 := clear_if_set (timer (bufferR m)) h1 in
  let h3 := clear_if_set (adaptTimer m) h2 in
  {| this := set_callbacks [] [] (set_disposed m); host := h3 |}.

Definition handleNoteOn (midi velocity : Z) (time : Q) (w : World)
  : World * Completion :=
  if disposed (this w) then (w, Normal)
  else
    let hand := if midi <? splitPoint (this w) then L else R in
    let note := {| a_midi := midi; a_velocity := velocity; a_time := time;
                   sustained := false; a_hand := hand |} in
    let m1 := set_activeNotes (<[midi := note]> (activeNotes (this w))) (this w) in
    let m2 := set_recentNoteOns (recentNoteOns m1 ++ [midi]) m1 in
    pushToBuffer hand {| midi := midi; velocity := velocity; time := time |}
      (with_this m2 w).

Definition mark_sustained (an : ActiveNote) : ActiveNote :=
  {| a_midi := a_midi an; a_velocity := a_velocity an; a_time := a_time an;
     sustained := true; a_hand := a_hand an |}.

Definition handleNoteOff (midi : Z) (w : World) : World :=
  if disposed (this w) then w
  else
    match activeNotes (this w) !! midi with
    | None => w
    | Some existing =>
        if pedalDown (this w)
        then with_this (set_activeNotes
                          (<[midi := mark_sustained existing]> (activeNotes (this w)))
                          (this w)) w
        else with_this (set_activeNotes (delete midi (activeNotes (this w)))
                          (this w)) w
    end.

(** The loop of lines 176-178 visits every entry once and deletes the
    sustained ones: the entries that stay are those not sustained. *)
Definition release_sustained (a : gmap Z ActiveNote) : gmap Z ActiveNote :=
  filter (fun kv => sustained kv.2 = false) a.

Definition handleControlChange (controller value : Z) (w : World) : World :=
  if disposed (this w) then w
  else if controller =? 64 then
    let down := 64 <=? value in
    if down && negb (pedalDown (this w))
    then with_this (set_pedalDown true (this w)) w
    else if negb down && pedalDown (this w)
    then with_this (set_activeNotes
                      (release_sustained (activeNotes (this w)))
                      (set_pedalDown false (this w))) w
    else w
  else w.

(** ** Adaptive split *)

(** Lines 317-320: the rounded midpoint of the pitches at the indices
    [floor (length * 0.25)] and [floor (length * 0.75)] of the sorted
    history. *)
Definition center_of (history : list Z) : Z :=
  let sorted := sort_num history in
  let lowQuartile := nth (length sorted / 4)%nat sorted 0 in
  let highQuartile := nth (length sorted * 3 / 4)%nat sorted 0 in
  Math_round (inject_Z (lowQuartile + highQuartile) / 2).

Definition recomputeSplit (w : World) : World * Completion :=
  let m := this w in
  if (length (recentNoteOns m) <? 8)%nat then (w, Normal)
  else
    let center := center_of (recentNoteOns m) in
    let '(w1, c) :=
      if splitShiftThreshold (cfg m) <=? Z.abs (center - splitPoint m) then
        let newSplit := Z.min (splitMax (cfg m)) (Z.max (splitMin (cfg m)) center) in
        if negb (newSplit =? splitPoint m)
        then emitSplitChange (with_this (set_splitPoint newSplit m) w)
        else (w, Normal)
      else (w, Normal) in
    match c with
    | Throw e => (w1, Throw e)
    | Normal =>
        let r := recentNoteOns (this w1) in
        if (128 <? length r)%nat
        then (with_this (set_recentNoteOns (drop (length r - 128) r) (this w1)) w1,
              Normal)
        else (w1, Normal)
    end.

(** ** The event loop *)

Inductive Event :=
| CallNoteOn (midi velocity : Z) (time : option Q)  (* [None]: the default *)
| CallNoteOff (midi : Z)
| CallControlChange (controller value : Z)
| CallDispose
| CallOnChord (cb : nat)
| CallOffChord (cb : nat)
| CallOnSplitChange (cb : nat)
| CallOffSplitChange (cb : nat)
| FireTimer (id : nat).

Definition run_task (task : TimerTask) (w : World) : World * Completion :=
  match task with
  | ProcessBufferTask hand => processBuffer hand w
  | RecomputeSplitTask => recomputeSplit w
  end.

(** An exception that leaves an entry point or a timer callback reaches the
    host. *)
Definition settle (r : World * Completion) : World :=
  match r with
  | (w, Normal) => w
  | (w, Throw e) => with_host (observe (Uncaught e) (host w)) w
  end.

Definition due (id : nat) (t : Q) (x : Timer) : bool :=
  (t_id x =? id)%nat && Qle_bool (t_due x) t.

(** A timer that is pending and due fires: a timeout leaves the queue, an
    interval is set for its next period. *)
Definition fire (id : nat) (w : World) : World :=
  match List.find (due id (now (host w))) (timers (host w)) with
  | None => w
  | Some x =>
      let rest := List.filter (keeps id) (timers (host w)) in
      let ts := match t_every x with
                | None => rest
                | Some d => rest ++ [ {| t_id := t_id x;
                                         t_due := (t_due x + d)%Q;
                                         t_task := t_task x;
                                         t_every := t_every x |} ]
                end in
      settle (run_task (t_task x) (with_host (with_timers ts (host w)) w))
  end.

(** One turn of the event loop at clock value [t]. *)
Definition step (w : World) (te : Q * Event) : World :=
  let '(t, ev) := te in
  let w0 := with_host (at_time t (host w)) w in
  match ev with
  | CallNoteOn midi velocity time =>
      settle (handleNoteOn midi velocity (default t time) w0)
  | CallNoteOff midi => handleNoteOff midi w0
  | CallControlChange controller value => handleControlChange controller value w0
  | CallDispose => dispose w0
  | CallOnChord cb => onChord cb w0
  | CallOffChord cb => offChord cb w0
  | CallOnSplitChange cb => onSplitChange cb w0
  | CallOffSplitChange cb => offSplitChange cb w0
  | FireTimer id => fire id w0
  end.

Definition run (w : World) (evs : list (Q * Event)) : World :=
  foldl step w evs.

(** The events handed to [emitChord], oldest first. *)
Fixpoint chords_emitted (l : list Obs) : list ChordEvent :=
  match l with
  | [] => []
  | EmitChord e :: r => e :: chords_emitted r
  | _ :: r => chords_emitted r
  end.

Fixpoint splits_emitted (l : list Obs) : list SplitChangeEvent :=
  match l with
  | [] => []
  | EmitSplit e :: r => e :: splits_emitted r
  | _ :: r => splits_emitted r
  end.

End Manager.

(** * Notions used in the statements *)

Inductive ascending : list Z -> Prop :=
| ascending_nil : ascending []
| ascending_one x : ascending [x]
| ascending_cons x y r : x <= y -> ascending (y :: r) -> ascending (x :: y :: r).

(** The median as a rational number: the middle value of the sorted list,
    the mean of the two middle values when the length is even. *)
Definition median_exact (values : list Z) : Q :=
  let sorted := sort_num values in
  let mid := (length sorted / 2)%nat in
  let lower := nth (mid - 1) sorted 0 in
  let upper := nth mid sorted 0 in
  if (length sorted mod 2 =? 0)%nat
  then ((inject_Z lower + inject_Z upper) / 2)%Q
  else inject_Z upper.

(** A buffer is open for closing when its window start is set and truthy and
    it holds a note: the guard of line 214 lets it through. *)
Definition closable (hand : Hand) (first : Q) (w : World) : Prop :=
  firstTime (buffer hand (this w)) = Some first /\
  ~ (first == 0)%Q /\
  notes (buffer hand (this w)) <> [].

(** The sustained pitches that line 225 pushes after the buffered ones. *)
Definition folded (m : MidiInputManager) (hand : Hand) : list Z :=
  drop (length (notes (buffer hand m))) (gather m hand).

(** The host after the observations [os], in order. *)
Definition observe_all (os : list Obs) (h : Host) : Host :=
  {| now := now h; timers := timers h; nextTimerId := nextTimerId h;
     log := log h ++ os |}.

(** What the outside has seen once [emitChord] has called the subscribers
    [l] with [evt]. *)
Definition called (evt : ChordEvent) (l : list nat) (w : World) : World :=
  with_host (observe_all (EmitChord evt :: map (fun c => ChordCb c evt) l)
               (host w)) w.

(** [Math.min(splitMax, Math.max(splitMin, center))] *)
Definition clamped (c : MidiInputManagerConfig) (center : Z) : Z :=
  Z.min (splitMax c) (Z.max (splitMin c) center).

(** Whether line 324 is reached on this tick. *)
Definition moves (m : MidiInputManager) : bool :=
  negb (length (recentNoteOns m) <? 8)%nat
  && (splitShiftThreshold (cfg m)
      <=? Z.abs (center_of (recentNoteOns m) - splitPoint m))
  && negb (clamped (cfg m) (center_of (recentNoteOns m)) =? splitPoint m).

(** A pending timer is owned when the handle that the manager keeps for its
    task is the handle of this timer; handles are positive. *)
Definition owned (m : MidiInputManager) (x : Timer) : Prop :=
  (0 < t_id x)%nat /\
  match t_task x with
  | ProcessBufferTask hand => timer (buffer hand m) = Some (t_id x)
  | RecomputeSplitTask => adaptTimer m = Some (t_id x)
  end.

(** The invariant of the running system: every pending timer is owned, and
    a buffer without a window start has no pending close. *)
Definition timers_ok (w : World) : Prop :=
  (0 < nextTimerId (host w))%nat /\
  (forall x, In x (timers (host w)) -> owned (this w) x) /\
  (forall hand x, firstTime (buffer hand (this w)) = None ->
                  In x (timers (host w)) -> t_task x <> ProcessBufferTask hand).

(** No close is pending for this hand. *)
Definition no_close_pending (hand : Hand) (w : World) : Prop :=
  forall x, In x (timers (host w)) -> t_task x <> ProcessBufferTask hand.

(** A disposed manager with nothing pending. *)
Definition terminal (w : World) : Prop :=
  disposed (this w) = true /\ timers (host w) = [].

Definition subscribes (ev : Event) : Prop :=
  match ev with
  | CallOnChord _ | CallOffChord _
  | CallOnSplitChange _ | CallOffSplitChange _ => True
  | _ => False
  end.

(** A default manager to which nothing has happened but subscriptions. *)
Definition untouched (w : World) : Prop :=
  cfg (this w) = DEFAULTS /\
  splitPoint (this w) = 60 /\
  disposed (this w) = false /\
  bufferR (this w) = empty_buffer /\
  activeNotes (this w) = ∅ /\
  (exists x1, timers (host w) = [x1] /\ t_id x1 = 1%nat /\
              t_task x1 = RecomputeSplitTask) /\
  nextTimerId (host w) = 2%nat /\
  chords_emitted (log (host w)) = [].

(** The right-hand window opened at [t1] holds the notes [ns] (pitch and
    velocity, in arrival order); its close timer has handle 2 and is due 50
    ms after [t1]; nothing is sustained and nothing was emitted. *)
Definition hearing (t1 : Q) (ns : list (Z * Z)) (w : World) : Prop :=
  cfg (this w) = DEFAULTS /\
  splitPoint (this w) = 60 /\
  disposed (this w) = false /\
  firstTime (bufferR (this w)) = Some t1 /\
  map (fun n => (midi n, velocity n)) (notes (bufferR (this w))) = ns /\
  (forall k an, activeNotes (this w) !! k = Some an -> sustained an = false) /\
  (exists x1,
     timers (host w)
     = [ x1; {| t_id := 2; t_due := (t1 + 50)%Q;
                t_task := ProcessBufferTask R; t_every := None |} ] /\
     t_id x1 = 1%nat /\ t_task x1 = RecomputeSplitTask) /\
  chords_emitted (log (host w)) = [].

(** * Concrete collaborators and states used by the examples *)

(** A chord dictionary that knows one name for everything. *)
Definition detect_sample (notes : list (option string)) : DetectResult :=
  DetectNames ["CM"; "Em#5"]%string.

(** A chord dictionary that fails. *)
Definition detect_failing (notes : list (option string)) : DetectResult :=
  DetectThrows.

Definition quiet_chord (cb : nat) (evt : ChordEvent) : bool := false.
Definition quiet_split (cb : nat) (evt : SplitChangeEvent) : bool := false.

(** Subscriber 1 throws, every other one returns. *)
Definition first_throws (cb : nat) (evt : ChordEvent) : bool := (cb =? 1)%nat.

(** A manager with the default configuration on a fresh page. *)
Definition w_init : World := constructor DEFAULTS fresh_host.

(** C, E and G above the split, 3 and 7 ms apart, one subscriber. *)
Definition triad : list (Q * Event) :=
  [ (1%Q, CallOnChord 7%nat);
    (5%Q, CallNoteOn 60 100 None);
    (8%Q, CallNoteOn 64 90 None);
    (12%Q, CallNoteOn 67 95 None) ].

Definition w_triad : World :=
  run detect_sample quiet_chord quiet_split w_init triad.

Definition triad_event : ChordEvent :=
  {| e_hand := R;
     e_name := Some "CM"%string;
     e_inversion := Some 0;
     e_notes := [60; 64; 67];
     e_velocities := [98; 93; 95];
     e_role := Chord;
     e_root := Some 60;
     e_pitchClasses := [0; 4; 7];
     e_timestamp := 12;
     e_rawWindowMs := (12 - 5)%Q |}.

(** The pedal goes down, then middle C is struck. *)
Definition w_held : World :=
  run detect_sample quiet_chord quiet_split w_init
    [ (1%Q, CallControlChange 64 127); (2%Q, CallNoteOn 60 100 None) ].

(** Right-hand blend 1 and left-hand blend 0, the rest as by default. *)
Definition cfg_ends : MidiInputManagerConfig := {|
  chordWindowMsRight := 50;
  chordWindowMsLeft := 80;
  earlyCloseCountRight := 4;
  earlyCloseCountLeft := 3;
  rollExtensionMsRight := 180;
  rollExtensionMsLeft := 250;
  splitInitialMidi := 60;
  splitMin := 52;
  splitMax := 64;
  splitAdaptIntervalMs := 1000;
  splitShiftThreshold := 5;
  leftBassArpGapMs := 120;
  velocityBlendRight := 1;
  velocityBlendLeft := 0;
  maxClusterSize := 7;
  sustainIncludesBuffer := true
|}.

(** A triad in the right hand and two notes in the left. *)
Definition w_ends : World :=
  run detect_sample quiet_chord quiet_split (constructor cfg_ends fresh_host)
    [ (5%Q, CallNoteOn 60 100 None);
      (6%Q, CallNoteOn 40 33 None);
      (8%Q, CallNoteOn 64 90 None);
      (9%Q, CallNoteOn 47 71 None);
      (12%Q, CallNoteOn 67 95 None) ].

Definition ends_event_R : ChordEvent :=
  {| e_hand := R;
     e_name := Some "CM"%string;
     e_inversion := Some 0;
     e_notes := [60; 64; 67];
     e_velocities := [95; 95; 95];
     e_role := Chord;
     e_root := Some 60;
     e_pitchClasses := [0; 4; 7];
     e_timestamp := 12;
     e_rawWindowMs := (12 - 5)%Q |}.

Definition ends_event_L : ChordEvent :=
  {| e_hand := L;
     e_name := Some "CM"%string;
     e_inversion := Some 0;
     e_notes := [40; 47];
     e_velocities := [33; 71];
     e_role := Dyad;
     e_root := Some 40;
     e_pitchClasses := [4; 11];
     e_timestamp := 12;
     e_rawWindowMs := (12 - 6)%Q |}.

(** Pedal down; D is played, closes alone and is released under the pedal;
    then C an octave up and F arrive, in that order. *)
Definition w_pedal : World :=
  run detect_sample quiet_chord quiet_split w_init
    [ (1%Q, CallControlChange 64 127);
      (2%Q, CallNoteOn 62 80 None);
      (52%Q, FireTimer 2);
      (60%Q, CallNoteOff 62);
      (100%Q, CallNoteOn 72 100 None);
      (105%Q, CallNoteOn 65 50 None) ].

Definition pedal_event : ChordEvent :=
  {| e_hand := R;
     e_name := Some "CM"%string;
     e_inversion := Some 1;
     e_notes := [62; 65; 72];
     e_velocities := [88; 63];
     e_role := Chord;
     e_root := Some 62;
     e_pitchClasses := [0; 2; 5];
     e_timestamp := 105;
     e_rawWindowMs := (105 - 100)%Q |}.

(** Subscribers 1 and 2 listen, 1 throws; the triad closes by its timer. *)
Definition w_thrown : World :=
  run detect_sample first_throws quiet_split w_init
    [ (1%Q, CallOnChord 1%nat);
      (1%Q, CallOnChord 2%nat);
      (5%Q, CallNoteOn 60 100 None);
      (8%Q, CallNoteOn 64 90 None);
      (12%Q, CallNoteOn 67 95 None);
      (55%Q, FireTimer 2) ].

Definition thrown_event : ChordEvent :=
  {| e_hand := R;
     e_name := Some "CM"%string;
     e_inversion := Some 0;
     e_notes := [60; 64; 67];
     e_velocities := [98; 93; 95];
     e_role := Chord;
     e_root := Some 60;
     e_pitchClasses := [0; 4; 7];
     e_timestamp := 55;
     e_rawWindowMs := (55 - 5)%Q |}.

(** A chord dictionary that finds nothing. *)
Definition detect_nothing (notes : list (option string)) : DetectResult :=
  DetectNullish.

(** The triad closes by its timer while the dictionary throws. *)
Definition w_undetected : World :=
  run detect_failing quiet_chord quiet_split w_init
    (triad ++ [ (55%Q, FireTimer 2) ]).

(** Note-ons of one pitch at the given clock values. *)
Definition strikes (m : Z) (ts : list Q) : list (Q * Event) :=
  map (fun t => (t, CallNoteOn m 100 None)) ts.

(** Eight middle Cs, then the first tick. *)
Definition w_tick1 : World :=
  run detect_sample quiet_chord quiet_split w_init
    ((1%Q, CallOnSplitChange 3%nat)
     :: strikes 60 [10; 11; 12; 13; 20; 21; 22; 23]%Q
     ++ [ (1000%Q, FireTimer 1) ]).

(** Seven high notes before the second tick (the last three close by their
    window timer). *)
Definition w_seven : World :=
  run detect_sample quiet_chord quiet_split w_tick1
    (strikes 90 [1100; 1101; 1102; 1103; 1104; 1105; 1106]%Q
     ++ [ (1160%Q, FireTimer 5) ]).

Definition w_tick2 : World :=
  step detect_sample quiet_chord quiet_split w_seven (2000%Q, FireTimer 1).

(** Eight more high notes, then the third tick. *)
Definition w_eight : World :=
  run detect_sample quiet_chord quiet_split w_tick2
    (strikes 90 [2100; 2101; 2102; 2103; 2104; 2105; 2106; 2107]%Q).

Definition w_tick3 : World :=
  step detect_sample quiet_chord quiet_split w_eight (3000%Q, FireTimer 1).

(** The triad state when a fourth note, the C above, arrives at 14 ms. *)
Definition w_fourth : World := with_host (at_time 14 (host w_triad)) w_triad.

Definition fourth_note : BufferedNote :=
  {| midi := 72; velocity := 80; time := 14 |}.

Definition fourth_event : ChordEvent :=
  {| e_hand := R;
     e_name := Some "CM"%string;
     e_inversion := Some 0;
     e_notes := [60; 64; 67; 72];
     e_velocities := [97; 92; 94; 87];
     e_role := Chord;
     e_root := Some 60;
     e_pitchClasses := [0; 4; 7];
     e_timestamp := 14;
     e_rawWindowMs := (14 - 5)%Q |}.

(** The right hand set to close early at one note. *)
Definition cfg_eager : MidiInputManagerConfig := {|
  chordWindowMsRight := 50;
  chordWindowMsLeft := 80;
  earlyCloseCountRight := 1;
  earlyCloseCountLeft := 3;
  rollExtensionMsRight := 180;
  rollExtensionMsLeft := 250;
  splitInitialMidi := 60;
  splitMin := 52;
  splitMax := 64;
  splitAdaptIntervalMs := 1000;
  splitShiftThreshold := 5;
  leftBassArpGapMs := 120;
  velocityBlendRight := 1 # 2;
  velocityBlendLeft := 2 # 10;
  maxClusterSize := 7;
  sustainIncludesBuffer := true
|}.

Definition w_eager : World :=
  run detect_sample quiet_chord quiet_split (constructor cfg_eager fresh_host)
    [ (5%Q, CallNoteOn 60 100 None) ].

(** * Notions used in the further properties *)

(** The fields of the manager other than the two buffers. *)
Definition core (m : MidiInputManager) :=
  (cfg m, splitPoint m, chordCallbacks m, splitCallbacks m, activeNotes m,
   pedalDown m, recentNoteOns m, adaptTimer m, disposed m).

(** The window start of a buffer is the time of its first note, and there
    is none when the buffer is empty. *)
Definition window_ok (b : BufferState) : Prop :=
  firstTime b = time <$> head (notes b).

(** Every active entry sits under its own pitch, and is sustained only
    while the pedal is down. *)
Definition active_ok (m : MidiInputManager) : Prop :=
  forall k an, activeNotes m !! k = Some an ->
    a_midi an = k /\ (pedalDown m = false -> sustained an = false).

(** The handles of the pending timers are distinct and were all handed out
    already. *)
Definition ids_ok (h : Host) : Prop :=
  NoDup (map t_id (timers h)) /\
  forall x, In x (timers h) -> (t_id x < nextTimerId h)%nat.

(** A triad whose first note carries the timestamp 0. *)
Definition w_zero : World :=
  run detect_sample quiet_chord quiet_split w_init
    [ (0%Q, CallOnChord 7%nat);
      (0%Q, CallNoteOn 60 100 (Some 0%Q));
      (3%Q, CallNoteOn 64 90 (Some 3%Q));
      (7%Q, CallNoteOn 67 95 (Some 7%Q)) ].

(** One note, then a second one 60 ms later, the close timer still waiting
    for its turn. *)
Definition w_first : World :=
  run detect_sample quiet_chord quiet_split w_init
    [ (5%Q, CallNoteOn 60 100 None) ].

Definition late_note : BufferedNote :=
  {| midi := 64; velocity := 90; time := 65 |}.

(** * Properties *)

(** ** Facts about the numeric helpers *)

Lemma Qltb_true (x y : Q) : Qltb x y = true <-> (x < y)%Q.
Proof.
  unfold Qltb. rewrite negb_true_iff. split.
  - intros H. apply Qnot_le_lt. intros Hle. apply Qle_bool_iff in Hle. congruence.
  - intros H. destruct (Qle_bool y x) eqn:E; [|reflexivity].
    apply Qle_bool_iff in E. lra.
Qed.

Lemma Qltb_false (x y : Q) : Qltb x y = false <-> (y <= x)%Q.
Proof.
  unfold Qltb. rewrite negb_false_iff. apply Qle_bool_iff.
Qed.

Lemma Qle_bool_false (x y : Q) : Qle_bool x y = false <-> (y < x)%Q.
Proof.
  split.
  - intros H. apply Qnot_le_lt. intros Hle. apply Qle_bool_iff in Hle. congruence.
  - intros H. destruct (Qle_bool x y) eqn:E; [|reflexivity].
    apply Qle_bool_iff in E. lra.
Qed.

Lemma Math_round_integer (z : Z) : Math_round (inject_Z z) = z.
Proof.
  unfold Math_round, Qfloor, Qplus, inject_Z. simpl.
  symmetry. apply (Z.div_unique_pos _ _ z 1); lia.
Qed.

Lemma Math_round_Qeq (x y : Q) : (x == y)%Q -> Math_round x = Math_round y.
Proof.
  intros H. unfold Math_round. apply Qfloor_comp. rewrite H. reflexivity.
Qed.

(** With blend factor 1 the blended velocity is the median. *)
Lemma blendVelocity_full (original med : Z) (blend : Q) :
  (blend == 1)%Q -> blendVelocity original med blend = med.
Proof.
  intros H. unfold blendVelocity.
  transitivity (Math_round (inject_Z med)); [|apply Math_round_integer].
  apply Math_round_Qeq. rewrite H. ring.
Qed.

(** With blend factor 0 the blended velocity is the original. *)
Lemma blendVelocity_none (original med : Z) (blend : Q) :
  (blend == 0)%Q -> blendVelocity original med blend = original.
Proof.
  intros H. unfold blendVelocity.
  transitivity (Math_round (inject_Z original)); [|apply Math_round_integer].
  apply Math_round_Qeq. rewrite H. ring.
Qed.

(** ** Facts about sorting *)

Lemma insert_num_length (x : Z) (l : list Z) :
  length (insert_num x l) = S (length l).
Proof.
  induction l as [|y r IH]; simpl; [reflexivity|].
  destruct (x <=? y); simpl; [reflexivity|]. now rewrite IH.
Qed.

Lemma sort_num_length (l : list Z) : length (sort_num l) = length l.
Proof.
  induction l as [|x r IH]; simpl; [reflexivity|].
  now rewrite insert_num_length, IH.
Qed.

Lemma insert_num_perm (x : Z) (l : list Z) : insert_num x l ≡ₚ x :: l.
Proof.
  induction l as [|y r IH]; simpl; [reflexivity|].
  destruct (x <=? y); [reflexivity|].
  rewrite IH. apply Permutation_swap.
Qed.

Lemma sort_num_perm (l : list Z) : sort_num l ≡ₚ l.
Proof.
  induction l as [|x r IH]; simpl; [reflexivity|].
  now rewrite insert_num_perm, IH.
Qed.

Lemma insert_num_ascending (x : Z) (l : list Z) :
  ascending l -> ascending (insert_num x l).
Proof.
  induction 1 as [|y|y z r Hyz Hr IH]; simpl.
  - constructor.
  - destruct (Z.leb_spec x y); repeat constructor; lia.
  - destruct (Z.leb_spec x y).
    + repeat constructor; auto.
    + simpl in IH. destruct (Z.leb_spec x z).
      * repeat constructor; auto; lia.
      * constructor; auto.
Qed.

Lemma insert_num_comm (x y : Z) (l : list Z) :
  insert_num x (insert_num y l) = insert_num y (insert_num x l).
Proof.
  induction l as [|z r IH]; simpl.
  - destruct (Z.leb_spec x y), (Z.leb_spec y x); try reflexivity; try lia.
    assert (x = y) by lia. now subst.
  - destruct (Z.leb_spec y z), (Z.leb_spec x z); simpl;
      repeat match goal with
             | |- context [?a <=? ?b] => destruct (Z.leb_spec a b)
             end; try reflexivity; try lia.
    + assert (x = y) by lia. now subst.
    + now rewrite IH.
Qed.

(** Sorting forgets the order of its input. *)
Lemma sort_num_Permutation (l l' : list Z) :
  l ≡ₚ l' -> sort_num l = sort_num l'.
Proof.
  induction 1 as [|x l l' _ IH|x y l|l l' l'' _ IH1 _ IH2]; simpl.
  - reflexivity.
  - now rewrite IH.
  - apply insert_num_comm.
  - congruence.
Qed.

Lemma sort_num_ascending (l : list Z) : ascending (sort_num l).
Proof.
  induction l as [|x r IH]; simpl; [constructor|].
  now apply insert_num_ascending.
Qed.

(** [Math.round] is within a half of its argument. *)
Lemma Math_round_near (x : Q) :
  (x - (1 # 2) < inject_Z (Math_round x))%Q /\
  (inject_Z (Math_round x) <= x + (1 # 2))%Q.
Proof.
  unfold Math_round. split.
  - pose proof (Qlt_floor (x + (1 # 2))) as H.
    rewrite inject_Z_plus in H. change (inject_Z 1) with 1%Q in H. lra.
  - apply Qfloor_le.
Qed.

Lemma median_near_exact (values : list Z) :
  values <> [] ->
  (median_exact values - (1 # 2) < inject_Z (median values))%Q /\
  (inject_Z (median values) <= median_exact values + (1 # 2))%Q.
Proof.
  intros Hne. unfold median, median_exact.
  destruct values as [|v r]; [congruence|].
  change (length (v :: r) =? 0)%nat with false. cbv iota.
  destruct (length (sort_num (v :: r)) mod 2 =? 0)%nat.
  - apply Math_round_near.
  - split; lra.
Qed.

(** ** What a closing buffer emits *)

Section Closing.

Variable Chord_detect : list (option string) -> DetectResult.
Variable chord_cb_throws : nat -> ChordEvent -> bool.

Lemma call_chord_callbacks_log (cbs : list nat) (evt : ChordEvent) (h : Host) :
  chords_emitted (log (call_chord_callbacks chord_cb_throws cbs evt h).1)
  = chords_emitted (log h).
Proof.
  revert h. induction cbs as [|cb rest IH]; intros h; simpl; [reflexivity|].
  assert (Hobs : chords_emitted (log (observe (ChordCb cb evt) h))
                 = chords_emitted (log h)).
  { simpl. induction (log h) as [|o l IHl]; simpl; [reflexivity|].
    destruct o; simpl; congruence. }
  destruct (chord_cb_throws cb evt); simpl; [exact Hobs|].
  rewrite IH. exact Hobs.
Qed.

Lemma chords_emitted_app (l1 l2 : list Obs) :
  chords_emitted (l1 ++ l2) = chords_emitted l1 ++ chords_emitted l2.
Proof.
  induction l1 as [|o l IH]; simpl; [reflexivity|].
  destruct o; simpl; congruence.
Qed.

(** [emitChord] hands over exactly its event, whatever the subscribers do. *)
Lemma emitChord_emitted (evt : ChordEvent) (w : World) :
  chords_emitted (log (host (emitChord chord_cb_throws evt w).1))
  = chords_emitted (log (host w)) ++ [evt].
Proof.
  unfold emitChord.
  pose proof (call_chord_callbacks_log (chordCallbacks (this w)) evt
                (observe (EmitChord evt) (host w))) as H.
  destruct (call_chord_callbacks _ _ _ _) as [h c]. simpl in *.
  rewrite H, chords_emitted_app. reflexivity.
Qed.

Lemma emitChord_this (evt : ChordEvent) (w : World) :
  this (emitChord chord_cb_throws evt w).1 = this w.
Proof.
  unfold emitChord. destruct (call_chord_callbacks _ _ _ _). reflexivity.
Qed.

Lemma clear_if_set_log (o : option nat) (h : Host) :
  log (clear_if_set o h) = log h.
Proof. unfold clear_if_set. destruct (truthy_handle o); reflexivity. Qed.

Lemma resetBuffer_log (hand : Hand) (w : World) :
  log (host (resetBuffer hand w)) = log (host w).
Proof. unfold resetBuffer, clearTimer. simpl. apply clear_if_set_log. Qed.

Lemma closable_guard (hand : Hand) (first : Q) (w : World) :
  closable hand first w ->
  falsy_time (firstTime (buffer hand (this w)))
  || (length (notes (buffer hand (this w))) =? 0)%nat = false.
Proof.
  intros (Hf & Hz & Hn). rewrite Hf. simpl.
  destruct (Qeq_bool first 0) eqn:E.
  - apply Qeq_bool_iff in E. contradiction.
  - destruct (notes (buffer hand (this w))); [congruence|reflexivity].
Qed.

(** The event of [build_event] is the one and only event that
    [processBuffer] emits on a closable buffer. *)
Lemma processBuffer_emits (hand : Hand) (first : Q) (w : World) (evt : ChordEvent) :
  closable hand first w ->
  build_event Chord_detect hand first w = Ok evt ->
  chords_emitted
    (log (host (processBuffer Chord_detect chord_cb_throws hand w).1))
  = chords_emitted (log (host w)) ++ [evt].
Proof.
  intros Hc Hb. unfold processBuffer.
  rewrite (closable_guard _ _ _ Hc). destruct Hc as (Hf & _ & _).
  rewrite Hf, Hb.
  pose proof (emitChord_emitted evt w) as He.
  destruct (emitChord chord_cb_throws evt w) as [w' [|e]]; cbn [fst] in *.
  - rewrite resetBuffer_log. exact He.
  - exact He.
Qed.

End Closing.

(** The fields of the event that do not depend on the name lookup. *)
Lemma build_event_fields Chord_detect (hand : Hand) (first : Q) (w : World)
    (evt : ChordEvent) :
  build_event Chord_detect hand first w = Ok evt ->
  e_hand evt = hand /\
  e_notes evt = noteSet_of (this w) hand /\
  e_velocities evt = velocitiesNormalized_of (this w) hand /\
  e_pitchClasses evt = distinctPitchClasses_of (noteSet_of (this w) hand) /\
  e_role evt = classifyRole (cfg (this w)) hand (noteSet_of (this w) hand)
                 (distinctPitchClasses_of (noteSet_of (this w) hand))
                 (now (host w) - first) /\
  e_timestamp evt = now (host w) /\
  e_rawWindowMs evt = (now (host w) - first)%Q.
Proof.
  unfold build_event. intros H.
  destruct (names_role _).
  - destruct (detectChord _ _) as [name|e]; [|discriminate].
    destruct (noteSet_of (this w) hand) as [|n0 r].
    + inversion H; subst; simpl; auto 10.
    + destruct (truthy_name name); inversion H; subst; simpl; auto 10.
  - inversion H; subst; simpl; auto 10.
Qed.

(** ** C6: role classification *)



Example triad_closes :
  build_event detect_sample R 5 w_triad = Ok triad_event.
Proof. vm_compute. reflexivity. Qed.


(** ** C7: sustain pedal *)

Lemma release_sustained_lookup (a : gmap Z ActiveNote) (k : Z) (an : ActiveNote) :
  release_sustained a !! k = Some an <-> a !! k = Some an /\ sustained an = false.
Proof. unfold release_sustained. apply map_lookup_filter_Some. Qed.

(** C7. On a live manager with the pedal down, [handleNoteOff p] for an
    active pitch [p] keeps the entry of [p] and only sets its sustained
    flag: the other fields of the entry, the other entries and the rest of
    the state stay as they were.  A later pedal release (controller 64 with a
    value under 64, the pedal being down) removes the entries whose
    sustained flag is set and keeps the others unchanged. *)
Theorem C7_sustain_semantics (w : World) :
  disposed (this w) = false ->
  pedalDown (this w) = true ->
  (forall p existing,
     activeNotes (this w) !! p = Some existing ->
     let w' := handleNoteOff p w in
     (exists kept,
        activeNotes (this w') !! p = Some kept /\
        sustained kept = true /\
        a_midi kept = a_midi existing /\
        a_velocity kept = a_velocity existing /\
        a_time kept = a_time existing /\
        a_hand kept = a_hand existing) /\
     (forall q, q <> p ->
        activeNotes (this w') !! q = activeNotes (this w) !! q) /\
     w' = with_this (set_activeNotes (activeNotes (this w')) (this w)) w) /\
  (forall value,
     value < 64 ->
     let w' := handleControlChange 64 value w in
     pedalDown (this w') = false /\
     (forall k an,
        activeNotes (this w') !! k = Some an <->
        activeNotes (this w) !! k = Some an /\ sustained an = false) /\
     (forall k an,
        activeNotes (this w) !! k = Some an ->
        (activeNotes (this w') !! k = None <-> sustained an = true))).
Proof.
  intros Hd Hp. split.
  - intros p existing Hex w'. subst w'. unfold handleNoteOff.
    rewrite Hd, Hex, Hp. simpl. split; [|split].
    + exists (mark_sustained existing). rewrite lookup_insert_eq. auto 10.
    + intros q Hq. now rewrite lookup_insert_ne.
    + reflexivity.
  - intros value Hv w'. subst w'. unfold handleControlChange.
    rewrite Hd, Hp. simpl.
    assert (Hdown : (64 <=? value) = false) by (apply Z.leb_gt; lia).
    rewrite Hdown. simpl. split; [reflexivity|]. split.
    + intros k an. apply release_sustained_lookup.
    + intros k an Hk. split.
      * intros Hnone. destruct (sustained an) eqn:E; [reflexivity|].
        assert (Hs : release_sustained (activeNotes (this w)) !! k = Some an)
          by (apply release_sustained_lookup; auto).
        congruence.
      * intros Hs. destruct (release_sustained (activeNotes (this w)) !! k)
          as [an'|] eqn:E; [|reflexivity].
        apply release_sustained_lookup in E. destruct E as [E1 E2].
        congruence.
Qed.

Lemma C7_witness :
  disposed (this w_held) = false /\
  pedalDown (this w_held) = true /\
  (exists kept,
     activeNotes (this (handleNoteOff 60 w_held)) !! 60 = Some kept /\
     sustained kept = true) /\
  pedalDown (this (handleControlChange 64 0 w_held)) = false.
Proof.
  assert (Hd : disposed (this w_held) = false) by (vm_compute; reflexivity).
  assert (Hp : pedalDown (this w_held) = true) by (vm_compute; reflexivity).
  destruct (C7_sustain_semantics w_held Hd Hp) as [Hoff Hrelease].
  split; [exact Hd|]. split; [exact Hp|]. split.
  - destruct (Hoff 60 {| a_midi := 60; a_velocity := 100; a_time := 2;
                         sustained := false; a_hand := R |})
      as [(kept & Hk & Hs & _) _]; [vm_compute; reflexivity|].
    exists kept. split; assumption.
  - apply (Hrelease 0). lia.
Defined.

(** After the key is released under the pedal and the pedal is lifted, the
    note is gone; a note still held by the finger stays. *)
Example sustain_then_release :
  let w1 := run detect_sample quiet_chord quiet_split w_held
              [ (3%Q, CallNoteOn 64 90 None); (4%Q, CallNoteOff 60) ] in
  let w2 := step detect_sample quiet_chord quiet_split w1
              (5%Q, CallControlChange 64 0) in
  (sustained <$> activeNotes (this w1) !! 60) = Some true /\
  activeNotes (this w2) !! 60 = None /\
  (sustained <$> activeNotes (this w2) !! 64) = Some false.
Proof. vm_compute. repeat split; reflexivity. Qed.

(** ** C9: velocity blend at the two ends *)

(** C9. For the event of a closing buffer: with blend factor 1 every
    normalized velocity is the median of the raw velocities of the window,
    which is the exact median up to the rounding of [Math.round] (half a
    unit); with blend factor 0 the normalized velocities are the raw
    velocities. *)
Theorem C9_velocity_blend Chord_detect (hand : Hand) (first : Q) (w : World)
    (evt : ChordEvent) :
  build_event Chord_detect hand first w = Ok evt ->
  let raw := map velocity (notes (buffer hand (this w))) in
  let blend := velocityBlend_of (cfg (this w)) hand in
  ((blend == 1)%Q ->
     length (e_velocities evt) = length raw /\
     forall v, v ∈ e_velocities evt ->
       v = median raw /\
       (median_exact raw - (1 # 2) < inject_Z v)%Q /\
       (inject_Z v <= median_exact raw + (1 # 2))%Q) /\
  ((blend == 0)%Q -> e_velocities evt = raw).
Proof.
  intros H raw blend.
  destruct (build_event_fields _ _ _ _ _ H) as (_ & _ & Hv & _).
  rewrite Hv. unfold velocitiesNormalized_of. fold raw. fold blend. split.
  - intros Hb. split.
    + subst raw. now rewrite !length_map.
    + intros v Hin. apply list_elem_of_fmap in Hin.
      destruct Hin as (n & -> & Hn).
      rewrite (blendVelocity_full _ _ _ Hb).
      assert (Hne : raw <> []).
      { subst raw. destruct (notes (buffer hand (this w))); [|discriminate].
        inversion Hn. }
      pose proof (median_near_exact raw Hne) as [Hlo Hhi].
      auto.
  - intros Hb. subst raw. apply map_ext. intros n.
    apply blendVelocity_none. exact Hb.
Qed.

(** ** C10: velocities follow arrival, notes are sorted and may be more *)

Lemma push_sustained_fold (hand : Hand) (vals : list ActiveNote) (ns : list Z) :
  exists extra,
    foldl (push_sustained hand) ns vals = ns ++ extra /\
    (forall x, x ∈ extra <->
       ((x ∉ ns) /\
        exists an, an ∈ vals /\ a_midi an = x /\ a_hand an = hand /\
                   sustained an = true)) /\
    NoDup extra.
Proof.
  revert ns. induction vals as [|an vals IH]; intros ns; simpl.
  - exists []. split; [now rewrite app_nil_r|]. split; [|constructor].
    intros x. split.
    + intros Hx. inversion Hx.
    + intros (_ & an & Han & _). inversion Han.
  - assert (Hhand : forall a, Hand_eqb (a_hand a) hand = true <-> a_hand a = hand).
    { intros a. destruct (a_hand a), hand; simpl; split; congruence. }
    unfold push_sustained at 2.
    destruct (Hand_eqb (a_hand an) hand && sustained an
              && negb (includes ns (a_midi an))) eqn:E.
    + apply andb_true_iff in E as [E E3]. apply andb_true_iff in E as [E1 E2].
      apply Hhand in E1. apply negb_true_iff in E3.
      unfold includes in E3. apply bool_decide_eq_false in E3.
      destruct (IH (ns ++ [a_midi an])) as (extra & Heq & Hmem & Hnd).
      exists (a_midi an :: extra). split.
      { rewrite Heq, <- app_assoc. reflexivity. }
      split; cycle 1.
      { constructor; [|exact Hnd]. intros Hin. apply Hmem in Hin as [Hin _].
        apply Hin, elem_of_app. right. now apply list_elem_of_singleton. }
      intros x. rewrite elem_of_cons, Hmem. split.
      * intros [->|(Hx & an' & Han' & Hm & Hh & Hs)].
        -- split; [exact E3|]. exists an. rewrite elem_of_cons. auto.
        -- split; [intros Hc; apply Hx, elem_of_app; now left|].
           exists an'. rewrite elem_of_cons. auto.
      * intros (Hx & an' & Han' & Hm & Hh & Hs).
        destruct (decide (x = a_midi an)) as [->|Hne]; [now left|right].
        split.
        { intros Hc. apply elem_of_app in Hc as [Hc|Hc]; [contradiction|].
          apply list_elem_of_singleton in Hc. contradiction. }
        apply elem_of_cons in Han' as [->|Han']; [congruence|].
        exists an'. auto.
    + destruct (IH ns) as (extra & Heq & Hmem & Hnd).
      exists extra. split; [exact Heq|]. split; [|exact Hnd].
      intros x. rewrite Hmem. split.
      * intros (Hx & an' & Han' & Hrest). split; [exact Hx|].
        exists an'. rewrite elem_of_cons. auto.
      * intros (Hx & an' & Han' & Hm & Hh & Hs). split; [exact Hx|].
        apply elem_of_cons in Han' as [->|Han']; [|exists an'; auto].
        exfalso. apply Hhand in Hh. rewrite Hh, Hs in E. simpl in E.
        apply negb_false_iff in E. unfold includes in E.
        apply bool_decide_eq_true in E. subst x. contradiction.
Qed.

(** The order in which the active notes are visited does not show in the
    sorted note set: the iteration order of the JS [Map] (insertion order)
    and that of [map_to_list] give the same [noteSet]. *)
Lemma visit_order_irrelevant (hand : Hand) (vals vals' : list ActiveNote)
    (ns : list Z) :
  vals ≡ₚ vals' ->
  sort_num (foldl (push_sustained hand) ns vals)
  = sort_num (foldl (push_sustained hand) ns vals').
Proof.
  intros Hperm.
  destruct (push_sustained_fold hand vals ns) as (e1 & -> & Hm1 & Hn1).
  destruct (push_sustained_fold hand vals' ns) as (e2 & -> & Hm2 & Hn2).
  apply sort_num_Permutation, Permutation_app_head.
  apply NoDup_Permutation; [exact Hn1|exact Hn2|].
  intros x. rewrite Hm1, Hm2. split.
  - intros (Hx & an & Han & Hrest). split; [exact Hx|].
    exists an. split; [now rewrite <- Hperm|exact Hrest].
  - intros (Hx & an & Han & Hrest). split; [exact Hx|].
    exists an. split; [now rewrite Hperm|exact Hrest].
Qed.

Lemma gather_split (m : MidiInputManager) (hand : Hand) :
  gather m hand = map midi (notes (buffer hand m)) ++ folded m hand.
Proof.
  unfold folded, gather.
  rewrite <- (length_map midi (notes (buffer hand m))).
  destruct (sustainIncludesBuffer (cfg m)).
  - destruct (push_sustained_fold hand (map snd (map_to_list (activeNotes m)))
                (map midi (notes (buffer hand m)))) as (extra & Heq & _).
    rewrite Heq. now rewrite drop_app_length.
  - now rewrite drop_all, app_nil_r.
Qed.

Lemma folded_spec (m : MidiInputManager) (hand : Hand) (x : Z) :
  x ∈ folded m hand <->
  sustainIncludesBuffer (cfg m) = true /\
  (x ∉ map midi (notes (buffer hand m))) /\
  exists k an, activeNotes m !! k = Some an /\ a_midi an = x /\
               a_hand an = hand /\ sustained an = true.
Proof.
  unfold folded, gather.
  rewrite <- (length_map midi (notes (buffer hand m))).
  destruct (sustainIncludesBuffer (cfg m)).
  - destruct (push_sustained_fold hand (map snd (map_to_list (activeNotes m)))
                (map midi (notes (buffer hand m)))) as (extra & Heq & Hmem & _).
    rewrite Heq, drop_app_length, Hmem. split.
    + intros (Hx & an & Han & Hrest). split; [reflexivity|]. split; [exact Hx|].
      apply list_elem_of_fmap in Han as ([k an'] & -> & Hk).
      apply elem_of_map_to_list in Hk. exists k, an'. auto.
    + intros (_ & Hx & k & an & Hk & Hrest). split; [exact Hx|].
      exists an. split; [|exact Hrest].
      apply list_elem_of_fmap. exists (k, an). split; [reflexivity|].
      now apply elem_of_map_to_list.
  - rewrite drop_all. split.
    + intros Hx. inversion Hx.
    + intros (Hf & _). discriminate.
Qed.

(** C10. In the event of a closing buffer the velocities are the blended
    velocities of the notes that arrived in the window, one each, in arrival
    order, while the notes are the sorted arrived pitches together with the
    sustained pitches folded in.  So when at least one sustained note is
    folded in, the velocities are fewer than the notes and some position of
    the notes has no velocity at the same index. *)
Theorem C10_velocities_follow_arrival Chord_detect (hand : Hand) (first : Q)
    (w : World) (evt : ChordEvent) :
  build_event Chord_detect hand first w = Ok evt ->
  let arrived := notes (buffer hand (this w)) in
  let extra := folded (this w) hand in
  e_velocities evt
  = map (fun n => blendVelocity (velocity n) (median (map velocity arrived))
                    (velocityBlend_of (cfg (this w)) hand)) arrived /\
  length (e_velocities evt) = length arrived /\
  e_notes evt = sort_num (map midi arrived ++ extra) /\
  length (e_notes evt) = (length arrived + length extra)%nat /\
  (forall x, x ∈ extra <->
     sustainIncludesBuffer (cfg (this w)) = true /\
     (x ∉ map midi arrived) /\
     exists k an, activeNotes (this w) !! k = Some an /\ a_midi an = x /\
                  a_hand an = hand /\ sustained an = true) /\
  (extra <> [] ->
     (length (e_velocities evt) < length (e_notes evt))%nat /\
     e_velocities evt !! length arrived = None /\
     is_Some (e_notes evt !! length arrived)) /\
  sustainIncludesBuffer DEFAULTS = true.
Proof.
  intros H arrived extra.
  destruct (build_event_fields _ _ _ _ _ H) as (_ & Hn & Hv & _).
  assert (Hlv : length (e_velocities evt) = length arrived).
  { rewrite Hv. unfold velocitiesNormalized_of. now rewrite length_map. }
  assert (Hln : length (e_notes evt) = (length arrived + length extra)%nat).
  { rewrite Hn. unfold noteSet_of.
    rewrite sort_num_length, gather_split, length_app, length_map.
    reflexivity. }
  split; [exact Hv|]. split; [exact Hlv|]. split.
  { rewrite Hn. unfold noteSet_of. now rewrite gather_split. }
  split; [exact Hln|].
  split; [intros x; apply folded_spec|].
  split; [|reflexivity].
  intros Hne.
  assert (Hpos : (0 < length extra)%nat).
  { destruct extra; [congruence|simpl; lia]. }
  split; [lia|]. split.
  - apply lookup_ge_None. lia.
  - apply lookup_lt_is_Some. lia.
Qed.

Lemma C9_witness :
  build_event detect_sample R 5 w_ends = Ok ends_event_R /\
  (forall v, v ∈ e_velocities ends_event_R -> v = 95).
Proof.
  split; [vm_compute; reflexivity|].
  intros v Hv.
  destruct (C9_velocity_blend detect_sample R 5 w_ends ends_event_R)
    as [Hfull _]; [vm_compute; reflexivity|].
  destruct Hfull as [_ Hall]; [reflexivity|].
  destruct (Hall v Hv) as [-> _]. vm_compute. reflexivity.
Defined.

Example blend_zero_is_identity :
  build_event detect_sample L 6 w_ends = Ok ends_event_L /\
  e_velocities ends_event_L
  = map velocity (notes (buffer L (this w_ends))).
Proof. vm_compute. split; reflexivity. Qed.

Lemma C10_witness :
  build_event detect_sample R 100 w_pedal = Ok pedal_event /\
  (length (e_velocities pedal_event) < length (e_notes pedal_event))%nat.
Proof.
  split; [vm_compute; reflexivity|].
  destruct (C10_velocities_follow_arrival detect_sample R 100 w_pedal
              pedal_event) as (_ & _ & _ & _ & _ & Hshort & _);
    [vm_compute; reflexivity|].
  apply Hshort. vm_compute. discriminate.
Defined.

(** The first velocity belongs to the note that arrived first (72), while
    the first note of the sorted list is the folded 62. *)
Example pedal_event_not_aligned :
  e_notes pedal_event !! 0%nat = Some 62 /\
  midi <$> notes (buffer R (this w_pedal)) !! 0%nat = Some 72 /\
  e_velocities pedal_event !! 2%nat = None.
Proof. vm_compute. repeat split; reflexivity. Qed.

(** ** C1: a subscriber that throws *)

Lemma observe_observe_all (o : Obs) (os : list Obs) (h : Host) :
  observe_all os (observe o h) = observe_all (o :: os) h.
Proof. unfold observe_all, observe. simpl. now rewrite <- app_assoc. Qed.

Lemma observe_all_snoc (o : Obs) (os : list Obs) (h : Host) :
  observe o (observe_all os h) = observe_all (os ++ [o]) h.
Proof. unfold observe_all, observe. simpl. now rewrite <- app_assoc. Qed.

Section Subscribers.

Variable chord_cb_throws : nat -> ChordEvent -> bool.

(** The callbacks before the first one that throws are all called. *)
Lemma call_chord_callbacks_quiet_prefix (pre rest : list nat)
    (evt : ChordEvent) (done : list Obs) (h : Host) :
  (forall c, c ∈ pre -> chord_cb_throws c evt = false) ->
  call_chord_callbacks chord_cb_throws (pre ++ rest) evt (observe_all done h)
  = call_chord_callbacks chord_cb_throws rest evt
      (observe_all (done ++ map (fun c => ChordCb c evt) pre) h).
Proof.
  revert done. induction pre as [|c pre IH]; intros done Hq; simpl.
  - now rewrite app_nil_r.
  - rewrite (Hq c) by (apply elem_of_cons; now left).
    rewrite observe_all_snoc, IH.
    + now rewrite <- app_assoc.
    + intros c' Hc'. apply Hq, elem_of_cons. now right.
Qed.

Lemma emitChord_quiet (evt : ChordEvent) (w : World) :
  (forall c, c ∈ chordCallbacks (this w) -> chord_cb_throws c evt = false) ->
  emitChord chord_cb_throws evt w
  = (called evt (chordCallbacks (this w)) w, Normal).
Proof.
  intros Hq. unfold emitChord, called.
  change (observe (EmitChord evt) (host w))
    with (observe_all [EmitChord evt] (host w)).
  rewrite <- (app_nil_r (chordCallbacks (this w))) at 1.
  rewrite (call_chord_callbacks_quiet_prefix _ [] evt _ _ Hq).
  reflexivity.
Qed.

Lemma emitChord_throwing (evt : ChordEvent) (w : World) (pre post : list nat)
    (cb : nat) :
  chordCallbacks (this w) = pre ++ cb :: post ->
  (forall c, c ∈ pre -> chord_cb_throws c evt = false) ->
  chord_cb_throws cb evt = true ->
  emitChord chord_cb_throws evt w
  = (called evt (pre ++ [cb]) w, Throw (ChordCallbackError cb)).
Proof.
  intros Hcbs Hq Hthrow. unfold emitChord, called. rewrite Hcbs.
  change (observe (EmitChord evt) (host w))
    with (observe_all [EmitChord evt] (host w)).
  rewrite (call_chord_callbacks_quiet_prefix pre (cb :: post) evt _ _ Hq).
  simpl. rewrite Hthrow, observe_all_snoc, map_app.
  reflexivity.
Qed.

End Subscribers.

(** C1, as the code has it.  [emitChord] calls the subscribers in
    subscription order and catches nothing.  When no subscriber throws, each
    one is called once with the event and [emitChord] returns.  When one
    throws, those subscribed before it have been called, the exception leaves
    [emitChord], and those subscribed after it are not called. *)
Theorem C1_emit_stops_at_throw chord_cb_throws (evt : ChordEvent) (w : World) :
  let cbs := chordCallbacks (this w) in
  ((forall c, c ∈ cbs -> chord_cb_throws c evt = false) ->
     emitChord chord_cb_throws evt w = (called evt cbs w, Normal)) /\
  (forall pre cb post,
     cbs = pre ++ cb :: post ->
     (forall c, c ∈ pre -> chord_cb_throws c evt = false) ->
     chord_cb_throws cb evt = true ->
     emitChord chord_cb_throws evt w
     = (called evt (pre ++ [cb]) w, Throw (ChordCallbackError cb))).
Proof.
  intros cbs. split.
  - apply emitChord_quiet.
  - intros pre cb post Hcbs Hq Hthrow.
    now apply emitChord_throwing with (post := post).
Qed.

(** Subscriber 2 is subscribed and never called, the exception reaches the
    host, and the buffer that was closing is left as it was: the window
    start and the three notes are still there. *)
Lemma C1_counterexample :
  chordCallbacks (this w_thrown) = [1; 2]%nat /\
  log (host w_thrown)
  = [ EmitChord thrown_event; ChordCb 1 thrown_event;
      Uncaught (ChordCallbackError 1) ] /\
  (forall evt, ChordCb 2 evt ∉ log (host w_thrown)) /\
  firstTime (bufferR (this w_thrown)) = Some 5%Q /\
  map midi (notes (bufferR (this w_thrown))) = [60; 64; 67].
Proof.
  assert (Hlog : log (host w_thrown)
                 = [ EmitChord thrown_event; ChordCb 1 thrown_event;
                     Uncaught (ChordCallbackError 1) ])
    by (vm_compute; reflexivity).
  split; [vm_compute; reflexivity|]. split; [exact Hlog|]. split.
  - intros evt Hin. rewrite Hlog in Hin.
    repeat (apply elem_of_cons in Hin as [Hin|Hin]; [discriminate|]).
    inversion Hin.
  - vm_compute. split; reflexivity.
Qed.

Lemma C1_witness :
  (forall c, c ∈ [1%nat] -> first_throws c thrown_event = true) /\
  (emitChord first_throws thrown_event
     (run detect_sample first_throws quiet_split w_init
        [ (1%Q, CallOnChord 1%nat); (1%Q, CallOnChord 2%nat) ])).2
  = Throw (ChordCallbackError 1).
Proof.
  split.
  - intros c Hc. apply list_elem_of_singleton in Hc. subst c. reflexivity.
  - destruct (C1_emit_stops_at_throw first_throws thrown_event
                (run detect_sample first_throws quiet_split w_init
                   [ (1%Q, CallOnChord 1%nat); (1%Q, CallOnChord 2%nat) ]))
      as [_ Hthrow].
    rewrite (Hthrow [] 1%nat [2%nat]).
    + reflexivity.
    + vm_compute. reflexivity.
    + intros c Hc. inversion Hc.
    + reflexivity.
Defined.

(** ** C2: the chord dictionary fails *)

(** C2, as the code has it.  For a closing buffer whose role is Chord, Dyad
    or Cluster: when [Chord.detect] gives a null-like value or an empty
    array, the event is emitted with name null (and no inversion or root)
    and with its other fields computed as usual; when [Chord.detect] throws,
    nothing catches the exception: [processBuffer] throws it on, emits no
    event and leaves the state as it was. *)
Theorem C2_detect_failure Chord_detect chord_cb_throws (hand : Hand)
    (first : Q) (w : World) :
  closable hand first w ->
  let noteSet := noteSet_of (this w) hand in
  let pcs := distinctPitchClasses_of noteSet in
  let role := classifyRole (cfg (this w)) hand noteSet pcs
                (now (host w) - first) in
  names_role role = true ->
  ((Chord_detect (map pcToNote_at pcs) = DetectNullish \/
    Chord_detect (map pcToNote_at pcs) = DetectNames []) ->
     let evt := {| e_hand := hand;
                   e_name := None;
                   e_inversion := None;
                   e_notes := noteSet;
                   e_velocities := velocitiesNormalized_of (this w) hand;
                   e_role := role;
                   e_root := None;
                   e_pitchClasses := pcs;
                   e_timestamp := now (host w);
                   e_rawWindowMs := (now (host w) - first)%Q |} in
     chords_emitted
       (log (host (processBuffer Chord_detect chord_cb_throws hand w).1))
     = chords_emitted (log (host w)) ++ [evt]) /\
  (Chord_detect (map pcToNote_at pcs) = DetectThrows ->
     processBuffer Chord_detect chord_cb_throws hand w
     = (w, Throw DetectError)).
Proof.
  intros Hc noteSet pcs role Hrole. split.
  - intros Hd evt.
    apply (processBuffer_emits _ _ _ first); [exact Hc|].
    unfold build_event. fold noteSet. fold pcs. fold role. rewrite Hrole.
    assert (Hname : detectChord Chord_detect pcs = Ok None).
    { unfold detectChord. destruct Hd as [-> | ->]; reflexivity. }
    rewrite Hname. simpl. destruct noteSet; reflexivity.
  - intros Hd. unfold processBuffer.
    rewrite (closable_guard _ _ _ Hc). destruct Hc as (Hf & _ & _).
    rewrite Hf. unfold build_event. fold noteSet. fold pcs. fold role.
    rewrite Hrole. unfold detectChord. rewrite Hd. reflexivity.
Qed.

Lemma triad_closable : closable R 5 w_triad.
Proof.
  repeat split.
  - intros H. vm_compute in H. discriminate.
  - vm_compute. discriminate.
Qed.

Lemma C2_witness :
  closable R 5 w_triad /\
  map e_name
    (chords_emitted
       (log (host (processBuffer detect_nothing quiet_chord R w_triad).1)))
  = [None] /\
  processBuffer detect_failing quiet_chord R w_triad
  = (w_triad, Throw DetectError).
Proof.
  split; [exact triad_closable|]. split.
  - destruct (C2_detect_failure detect_nothing quiet_chord R 5 w_triad
                triad_closable) as [Hnull _]; [vm_compute; reflexivity|].
    rewrite Hnull by (left; reflexivity). vm_compute. reflexivity.
  - destruct (C2_detect_failure detect_failing quiet_chord R 5 w_triad
                triad_closable) as [_ Hthrow]; [vm_compute; reflexivity|].
    apply Hthrow. reflexivity.
Defined.

(** No ChordEvent at all: the only thing the outside sees is the exception
    that escaped from the timer callback, and the buffer still holds the
    window. *)
Lemma C2_counterexample :
  chordCallbacks (this w_undetected) = [7%nat] /\
  log (host w_undetected) = [ Uncaught DetectError ] /\
  chords_emitted (log (host w_undetected)) = [] /\
  map midi (notes (bufferR (this w_undetected))) = [60; 64; 67].
Proof. vm_compute. repeat split; reflexivity. Qed.

(** ** C8: the split estimator tick *)

Section SplitTick.

Variable split_cb_throws : nat -> SplitChangeEvent -> bool.

Lemma splits_emitted_app (l1 l2 : list Obs) :
  splits_emitted (l1 ++ l2) = splits_emitted l1 ++ splits_emitted l2.
Proof.
  induction l1 as [|o l IH]; simpl; [reflexivity|].
  destruct o; simpl; congruence.
Qed.

Lemma call_split_callbacks_log (cbs : list nat) (evt : SplitChangeEvent)
    (h : Host) :
  splits_emitted (log (call_split_callbacks split_cb_throws cbs evt h).1)
  = splits_emitted (log h).
Proof.
  revert h. induction cbs as [|cb rest IH]; intros h; simpl; [reflexivity|].
  assert (Hobs : splits_emitted (log (observe (SplitCb cb evt) h))
                 = splits_emitted (log h)).
  { simpl. rewrite splits_emitted_app. simpl. apply app_nil_r. }
  destruct (split_cb_throws cb evt); simpl; [exact Hobs|].
  rewrite IH. exact Hobs.
Qed.

Lemma emitSplitChange_effect (w : World) :
  let w' := (emitSplitChange split_cb_throws w).1 in
  this w' = this w /\
  splits_emitted (log (host w'))
  = splits_emitted (log (host w))
    ++ [ {| splitMidi := splitPoint (this w); s_timestamp := now (host w) |} ].
Proof.
  unfold emitSplitChange.
  pose proof (call_split_callbacks_log (splitCallbacks (this w))
                {| splitMidi := splitPoint (this w);
                   s_timestamp := now (host w) |}
                (observe (EmitSplit {| splitMidi := splitPoint (this w);
                                       s_timestamp := now (host w) |})
                   (host w))) as H.
  destruct (call_split_callbacks _ _ _ _) as [h c]. simpl in *.
  split; [reflexivity|].
  rewrite H, splits_emitted_app. reflexivity.
Qed.

Lemma recomputeSplit_effect (w : World) :
  let m := this w in
  let w' := (recomputeSplit split_cb_throws w).1 in
  let new := clamped (cfg m) (center_of (recentNoteOns m)) in
  splitPoint (this w') = (if moves m then new else splitPoint m) /\
  splits_emitted (log (host w'))
  = splits_emitted (log (host w))
    ++ (if moves m
        then [ {| splitMidi := new; s_timestamp := now (host w) |} ]
        else []).
Proof.
  intros m w' new. subst w' m. unfold recomputeSplit, moves.
  destruct (length (recentNoteOns (this w)) <? 8)%nat; simpl.
  { now rewrite app_nil_r. }
  destruct (splitShiftThreshold (cfg (this w))
            <=? Z.abs (center_of (recentNoteOns (this w))
                       - splitPoint (this w))); simpl.
  - fold (clamped (cfg (this w)) (center_of (recentNoteOns (this w)))).
    fold new.
    destruct (new =? splitPoint (this w)); simpl.
    + destruct (128 <? length (recentNoteOns (this w)))%nat; simpl;
        now rewrite app_nil_r.
    + pose proof (emitSplitChange_effect
                    (with_this (set_splitPoint new (this w)) w)) as [Ht Hl].
      destruct (emitSplitChange split_cb_throws
                  (with_this (set_splitPoint new (this w)) w)) as [w1 [|e]];
        simpl in Ht, Hl.
      * destruct (128 <? length (recentNoteOns (this w1)))%nat; simpl;
          rewrite ?Ht; simpl; auto.
      * simpl. rewrite Ht. simpl. auto.
  - destruct (128 <? length (recentNoteOns (this w)))%nat; simpl;
      now rewrite app_nil_r.
Qed.

End SplitTick.

(** C8, as the code has it.  On a tick: when the rolling history holds
    fewer than 8 pitches, nothing happens (the split point stays and nothing
    is emitted).  When it holds at least 8 and the rounded midpoint of its
    25th/75th-percentile pitches is at least splitShiftThreshold away from
    the split point, the split point becomes
    min(splitMax, max(splitMin, midpoint)), and one SplitChangeEvent carrying
    it is emitted when that value differs from the split point before the
    tick, none when it is the same.  The defaults are 5 and 52..64. *)
Theorem C8_split_tick split_cb_throws (w : World) :
  let m := this w in
  let w' := (recomputeSplit split_cb_throws w).1 in
  let center := center_of (recentNoteOns m) in
  let new := clamped (cfg m) center in
  ((length (recentNoteOns m) < 8)%nat ->
     recomputeSplit split_cb_throws w = (w, Normal)) /\
  ((8 <= length (recentNoteOns m))%nat ->
   splitShiftThreshold (cfg m) <= Z.abs (center - splitPoint m) ->
     splitPoint (this w') = new /\
     (new <> splitPoint m ->
        splits_emitted (log (host w'))
        = splits_emitted (log (host w))
          ++ [ {| splitMidi := new; s_timestamp := now (host w) |} ]) /\
     (new = splitPoint m ->
        splits_emitted (log (host w')) = splits_emitted (log (host w)))) /\
  splitShiftThreshold DEFAULTS = 5 /\
  splitMin DEFAULTS = 52 /\ splitMax DEFAULTS = 64.
Proof.
  intros m w' center new. split; [|split; [|auto]].
  - intros Hlt. unfold recomputeSplit. fold m.
    apply Nat.ltb_lt in Hlt. now rewrite Hlt.
  - intros Hge Hfar.
    pose proof (recomputeSplit_effect split_cb_throws w) as [Hs Hl].
    fold m in Hs, Hl. fold w' in Hs, Hl. fold center in Hs, Hl.
    fold new in Hs, Hl.
    assert (Hm : moves m = negb (new =? splitPoint m)).
    { unfold moves. fold center. fold new.
      apply Nat.ltb_ge in Hge. rewrite Hge.
      apply Z.leb_le in Hfar. rewrite Hfar. reflexivity. }
    rewrite Hm in Hs, Hl.
    destruct (Z.eqb_spec new (splitPoint m)) as [Heq|Hne]; simpl in Hs, Hl.
    + split; [congruence|]. split; [congruence|].
      intros _. now rewrite Hl, app_nil_r.
    + split; [exact Hs|]. split; [intros _; exact Hl|]. congruence.
Qed.

(** Two ticks that go against the stability property of the split
    estimator as the spec words it.  Seven notes, fewer than 8, are fed
    between the first and the second tick, and the second tick moves the
    split from 60 to 64.  Before the third tick the midpoint is 75, which is
    11 away from the split 64, yet the third tick emits no SplitChangeEvent
    and the split stays: 75 clamps to the 64 it already is. *)
Lemma C8_counterexample :
  (getCurrentSplit w_tick1 = 60 /\
   length (recentNoteOns (this w_seven))
   = (length (recentNoteOns (this w_tick1)) + 7)%nat /\
   getCurrentSplit w_seven = 60 /\
   getCurrentSplit w_tick2 = 64 /\
   splits_emitted (log (host w_tick2))
   = [ {| splitMidi := 64; s_timestamp := 2000 |} ]) /\
  (getCurrentSplit w_eight = 64 /\
   center_of (recentNoteOns (this w_eight)) = 75 /\
   splitShiftThreshold (cfg (this w_eight)) = 5 /\
   getCurrentSplit w_tick3 = 64 /\
   splits_emitted (log (host w_tick3)) = splits_emitted (log (host w_eight))).
Proof. vm_compute. repeat split; reflexivity. Qed.

Lemma C8_witness :
  (8 <= length (recentNoteOns (this (with_host (at_time 2000 (host w_seven))
                                       w_seven))))%nat /\
  splitPoint
    (this (recomputeSplit quiet_split
             (with_host (at_time 2000 (host w_seven)) w_seven)).1) = 64 /\
  recomputeSplit quiet_split w_init = (w_init, Normal).
Proof.
  pose (w := with_host (at_time 2000 (host w_seven)) w_seven).
  assert (Hlen : (8 <= length (recentNoteOns (this w)))%nat)
    by (vm_compute; lia).
  split; [exact Hlen|]. split.
  - destruct (C8_split_tick quiet_split w) as (_ & Hmove & _).
    destruct Hmove as [Hs _]; [exact Hlen|vm_compute; discriminate|].
    fold w. rewrite Hs. vm_compute. reflexivity.
  - destruct (C8_split_tick quiet_split w_init) as (Hfew & _).
    apply Hfew. vm_compute. lia.
Defined.

(** ** The timer discipline *)

Lemma timers_ok_frame (w w' : World) :
  (forall hand, timer (buffer hand (this w')) = timer (buffer hand (this w))) ->
  (forall hand, firstTime (buffer hand (this w'))
                = firstTime (buffer hand (this w))) ->
  adaptTimer (this w') = adaptTimer (this w) ->
  timers (host w') = timers (host w) ->
  nextTimerId (host w') = nextTimerId (host w) ->
  timers_ok w -> timers_ok w'.
Proof.
  intros Ht Hf Ha Hq Hn (Hpos & Hown & Hnone).
  unfold timers_ok. rewrite Hq, Hn. split; [exact Hpos|]. split.
  - intros x Hx. destruct (Hown x Hx) as [Hid Htask]. split; [exact Hid|].
    destruct (t_task x); [rewrite Ht|rewrite Ha]; exact Htask.
  - intros hand x Hfirst. rewrite Hf in Hfirst. now apply Hnone.
Qed.

Ltac frame_ok H :=
  apply (timers_ok_frame _ _ ltac:(intros [|]; reflexivity)
           ltac:(intros [|]; reflexivity) eq_refl eq_refl eq_refl H).

Lemma In_clearTimeout (id : nat) (h : Host) (x : Timer) :
  In x (timers (clearTimeout id h)) <-> In x (timers h) /\ t_id x <> id.
Proof.
  unfold clearTimeout. simpl. rewrite filter_In. unfold keeps.
  rewrite negb_true_iff, Nat.eqb_neq. reflexivity.
Qed.

Lemma In_clear_if_set (o : option nat) (h : Host) (x : Timer) :
  In x (timers (clear_if_set o h)) -> In x (timers h).
Proof.
  unfold clear_if_set. destruct (truthy_handle o); [|auto].
  intros H. now apply In_clearTimeout in H.
Qed.

Lemma truthy_handle_pos (id : nat) :
  (0 < id)%nat -> truthy_handle (Some id) = Some id.
Proof. destruct id; [lia|reflexivity]. Qed.

(** Clearing a handle removes the timers that carry it. *)
Lemma clear_if_set_gone (id : nat) (h : Host) (x : Timer) :
  (0 < id)%nat -> In x (timers (clear_if_set (Some id) h)) -> t_id x <> id.
Proof.
  intros Hpos. unfold clear_if_set. rewrite (truthy_handle_pos _ Hpos).
  intros H. now apply In_clearTimeout in H.
Qed.

Lemma nextTimerId_clear_if_set (o : option nat) (h : Host) :
  nextTimerId (clear_if_set o h) = nextTimerId h.
Proof. unfold clear_if_set. destruct (truthy_handle o); reflexivity. Qed.

Lemma buffer_set_buffer_same (hand : Hand) (b : BufferState)
    (m : MidiInputManager) :
  buffer hand (set_buffer hand b m) = b.
Proof. destruct hand; reflexivity. Qed.

Lemma buffer_set_buffer_other (hand other : Hand) (b : BufferState)
    (m : MidiInputManager) :
  other <> hand -> buffer other (set_buffer hand b m) = buffer other m.
Proof. destruct hand, other; congruence || reflexivity. Qed.

Lemma clearTimer_ok (hand : Hand) (w : World) :
  timers_ok w ->
  timers_ok (clearTimer hand w) /\ no_close_pending hand (clearTimer hand w).
Proof.
  intros (Hpos & Hown & Hnone).
  assert (Hquiet : no_close_pending hand (clearTimer hand w)).
  { intros x Hx Htask. unfold clearTimer in Hx. simpl in Hx.
    pose proof (In_clear_if_set _ _ _ Hx) as Hx0.
    destruct (Hown x Hx0) as [Hid Hh]. rewrite Htask in Hh.
    rewrite Hh in Hx. now apply (clear_if_set_gone _ _ _ Hid) in Hx. }
  split; [|exact Hquiet].
  split; [|split].
  - unfold clearTimer. simpl. now rewrite nextTimerId_clear_if_set.
  - intros x Hx. pose proof (Hquiet x Hx) as Hq.
    unfold clearTimer in Hx |- *. simpl in Hx |- *.
    apply In_clear_if_set in Hx. destruct (Hown x Hx) as [Hid Hh].
    split; [exact Hid|].
    destruct (t_task x) as [other|]; [|exact Hh].
    rewrite buffer_set_buffer_other by congruence. exact Hh.
  - intros other x Hfirst Hx Htask.
    destruct (decide (other = hand)) as [->|Hne].
    + exact (Hquiet x Hx Htask).
    + unfold clearTimer in Hx, Hfirst. simpl in Hx, Hfirst.
      rewrite buffer_set_buffer_other in Hfirst by exact Hne.
      apply In_clear_if_set in Hx. exact (Hnone other x Hfirst Hx Htask).
Qed.

Lemma resetBuffer_ok (hand : Hand) (w : World) :
  timers_ok w -> timers_ok (resetBuffer hand w).
Proof.
  intros Hok. destruct (clearTimer_ok hand w Hok) as [(Hpos & Hown & Hnone) Hquiet].
  unfold resetBuffer. set (w1 := clearTimer hand w) in *.
  split; [exact Hpos|]. split.
  - intros x Hx. simpl in Hx. destruct (Hown x Hx) as [Hid Hh].
    split; [exact Hid|]. simpl.
    destruct (t_task x) as [other|] eqn:Htask; [|exact Hh].
    destruct (decide (other = hand)) as [->|Hne].
    + exfalso. exact (Hquiet x Hx Htask).
    + rewrite buffer_set_buffer_other by exact Hne. exact Hh.
  - intros other x Hfirst Hx Htask. simpl in Hx, Hfirst.
    destruct (decide (other = hand)) as [->|Hne].
    + exact (Hquiet x Hx Htask).
    + rewrite buffer_set_buffer_other in Hfirst by exact Hne.
      exact (Hnone other x Hfirst Hx Htask).
Qed.

Lemma arm_ok (hand : Hand) (delay : Q) (w : World) :
  timers_ok w -> no_close_pending hand w ->
  firstTime (buffer hand (this w)) <> None ->
  timers_ok (arm hand delay w).
Proof.
  intros (Hpos & Hown & Hnone) Hquiet Hfirst.
  unfold arm, setTimeout, schedule. simpl.
  split; [simpl; lia|]. split.
  - intros x Hx. simpl in Hx. apply in_app_or in Hx as [Hx|[<-|[]]].
    + destruct (Hown x Hx) as [Hid Hh]. split; [exact Hid|]. simpl.
      destruct (t_task x) as [other|] eqn:Htask; [|exact Hh].
      destruct (decide (other = hand)) as [->|Hne].
      * exfalso. exact (Hquiet x Hx Htask).
      * rewrite buffer_set_buffer_other by exact Hne. exact Hh.
    + split; [exact Hpos|]. simpl. now rewrite buffer_set_buffer_same.
  - intros other x Hnow Hx Htask. simpl in Hx, Hnow.
    destruct (decide (other = hand)) as [->|Hne].
    + rewrite buffer_set_buffer_same in Hnow. simpl in Hnow. contradiction.
    + rewrite buffer_set_buffer_other in Hnow by exact Hne.
      apply in_app_or in Hx as [Hx|[<-|[]]].
      * exact (Hnone other x Hnow Hx Htask).
      * simpl in Htask. congruence.
Qed.

Section Preservation.

Variable Chord_detect : list (option string) -> DetectResult.
Variable chord_cb_throws : nat -> ChordEvent -> bool.
Variable split_cb_throws : nat -> SplitChangeEvent -> bool.

Lemma call_chord_callbacks_host (cbs : list nat) (evt : ChordEvent) (h : Host) :
  let h' := (call_chord_callbacks chord_cb_throws cbs evt h).1 in
  timers h' = timers h /\ nextTimerId h' = nextTimerId h /\ now h' = now h.
Proof.
  revert h. induction cbs as [|cb rest IH]; intros h; simpl; [auto|].
  destruct (chord_cb_throws cb evt); simpl; [auto|].
  destruct (IH (observe (ChordCb cb evt) h)) as (H1 & H2 & H3). auto.
Qed.

Lemma call_split_callbacks_host (cbs : list nat) (evt : SplitChangeEvent)
    (h : Host) :
  let h' := (call_split_callbacks split_cb_throws cbs evt h).1 in
  timers h' = timers h /\ nextTimerId h' = nextTimerId h /\ now h' = now h.
Proof.
  revert h. induction cbs as [|cb rest IH]; intros h; simpl; [auto|].
  destruct (split_cb_throws cb evt); simpl; [auto|].
  destruct (IH (observe (SplitCb cb evt) h)) as (H1 & H2 & H3). auto.
Qed.

Lemma emitChord_ok (evt : ChordEvent) (w : World) :
  timers_ok w -> timers_ok (emitChord chord_cb_throws evt w).1.
Proof.
  intros Hok. unfold emitChord.
  pose proof (call_chord_callbacks_host (chordCallbacks (this w)) evt
                (observe (EmitChord evt) (host w))) as (H1 & H2 & _).
  destruct (call_chord_callbacks _ _ _ _) as [h c]. simpl in *.
  apply (timers_ok_frame w); auto.
Qed.

Lemma emitSplitChange_ok (w : World) :
  timers_ok w -> timers_ok (emitSplitChange split_cb_throws w).1.
Proof.
  intros Hok. unfold emitSplitChange.
  pose proof (call_split_callbacks_host (splitCallbacks (this w))
                {| splitMidi := splitPoint (this w);
                   s_timestamp := now (host w) |}
                (observe (EmitSplit {| splitMidi := splitPoint (this w);
                                       s_timestamp := now (host w) |})
                   (host w))) as (H1 & H2 & _).
  destruct (call_split_callbacks _ _ _ _) as [h c]. simpl in *.
  apply (timers_ok_frame w); auto.
Qed.

Lemma processBuffer_ok (hand : Hand) (w : World) :
  timers_ok w ->
  timers_ok (processBuffer Chord_detect chord_cb_throws hand w).1.
Proof.
  intros Hok. unfold processBuffer.
  destruct (firstTime (buffer hand (this w))) as [first|];
    [|now apply resetBuffer_ok].
  destruct (falsy_time (Some first)
            || (length (notes (buffer hand (this w))) =? 0)%nat);
    [now apply resetBuffer_ok|].
  destruct (build_event Chord_detect hand first w) as [evt|e]; [|exact Hok].
  pose proof (emitChord_ok evt w Hok) as He.
  destruct (emitChord chord_cb_throws evt w) as [w' [|e]]; simpl in *.
  - now apply resetBuffer_ok.
  - exact He.
Qed.

Lemma pushToBuffer_ok (hand : Hand) (note : BufferedNote) (w : World) :
  timers_ok w ->
  timers_ok (pushToBuffer Chord_detect chord_cb_throws hand note w).1.
Proof.
  intros Hok. unfold pushToBuffer.
  destruct (firstTime (buffer hand (this w))) as [first|] eqn:Hfirst.
  - set (w1 := with_this (set_buffer hand
                 (set_notes (notes (buffer hand (this w)) ++ [note])
                    (buffer hand (this w))) (this w)) w).
    assert (Hok1 : timers_ok w1).
    { apply (timers_ok_frame w); try reflexivity; [| |exact Hok];
        intros other; subst w1; simpl;
        (destruct (decide (other = hand)) as [->|Hne];
         [now rewrite buffer_set_buffer_same
         |now rewrite buffer_set_buffer_other]). }
    assert (Hf1 : firstTime (buffer hand (this (clearTimer hand w1)))
                  = Some first).
    { unfold clearTimer. subst w1. simpl.
      rewrite !buffer_set_buffer_same. simpl. exact Hfirst. }
    destruct (clearTimer_ok hand w1 Hok1) as [Hokc Hquiet].
    destruct ((earlyCount_of (cfg (this w)) hand
               <=? Z.of_nat (length (notes (buffer hand (this w)) ++ [note])))
              && Qltb (time note - first)
                   (cfgWindow_of (cfg (this w)) hand * (6 # 10))).
    + now apply processBuffer_ok.
    + destruct (Qltb (cfgWindow_of (cfg (this w)) hand) (time note - first)
                && Qle_bool (time note - first)
                     (rollExtension_of (cfg (this w)) hand)); simpl.
      * apply arm_ok; [exact Hokc|exact Hquiet|]. rewrite Hf1. discriminate.
      * exact Hok1.
  - simpl. destruct Hok as (Hpos & Hown & Hnone).
    apply arm_ok.
    + split; [exact Hpos|]. split.
      * intros x Hx. simpl in Hx. destruct (Hown x Hx) as [Hid Hh].
        split; [exact Hid|]. simpl.
        destruct (t_task x) as [other|] eqn:Htask; [|exact Hh].
        destruct (decide (other = hand)) as [->|Hne].
        -- rewrite buffer_set_buffer_same. simpl. exact Hh.
        -- now rewrite buffer_set_buffer_other.
      * intros other x Hnow Hx. simpl in Hx, Hnow.
        destruct (decide (other = hand)) as [->|Hne].
        -- rewrite buffer_set_buffer_same in Hnow. discriminate.
        -- rewrite buffer_set_buffer_other in Hnow by exact Hne.
           now apply Hnone.
    + intros x Hx. simpl in Hx. now apply Hnone.
    + simpl. rewrite buffer_set_buffer_same. discriminate.
Qed.

End Preservation.

Section Reachable.

Variable Chord_detect : list (option string) -> DetectResult.
Variable chord_cb_throws : nat -> ChordEvent -> bool.
Variable split_cb_throws : nat -> SplitChangeEvent -> bool.

Local Abbreviation step' := (step Chord_detect chord_cb_throws split_cb_throws).
Local Abbreviation run' := (run Chord_detect chord_cb_throws split_cb_throws).

Lemma handleNoteOn_ok (midi velocity : Z) (time : Q) (w : World) :
  timers_ok w ->
  timers_ok (handleNoteOn Chord_detect chord_cb_throws midi velocity time w).1.
Proof.
  intros Hok. unfold handleNoteOn.
  destruct (disposed (this w)); [exact Hok|].
  apply pushToBuffer_ok. frame_ok Hok.
Qed.

Lemma handleNoteOff_ok (midi : Z) (w : World) :
  timers_ok w -> timers_ok (handleNoteOff midi w).
Proof.
  intros Hok. unfold handleNoteOff.
  destruct (disposed (this w)); [exact Hok|].
  destruct (activeNotes (this w) !! midi); [|exact Hok].
  destruct (pedalDown (this w)); frame_ok Hok.
Qed.

Lemma handleControlChange_ok (controller value : Z) (w : World) :
  timers_ok w -> timers_ok (handleControlChange controller value w).
Proof.
  intros Hok. unfold handleControlChange.
  destruct (disposed (this w)); [exact Hok|].
  destruct (controller =? 64); [|exact Hok].
  destruct ((64 <=? value) && negb (pedalDown (this w))); [frame_ok Hok|].
  destruct (negb (64 <=? value) && pedalDown (this w));
    [frame_ok Hok|exact Hok].
Qed.

Lemma recomputeSplit_ok (w : World) :
  timers_ok w -> timers_ok (recomputeSplit split_cb_throws w).1.
Proof.
  intros Hok. unfold recomputeSplit.
  destruct (length (recentNoteOns (this w)) <? 8)%nat; [exact Hok|].
  assert (Htrim : forall w1, timers_ok w1 ->
            timers_ok
              (if (128 <? length (recentNoteOns (this w1)))%nat
               then (with_this
                       (set_recentNoteOns
                          (drop (length (recentNoteOns (this w1)) - 128)
                             (recentNoteOns (this w1))) (this w1)) w1, Normal)
               else (w1, Normal)).1).
  { intros w1 H1. destruct (128 <? length (recentNoteOns (this w1)))%nat;
      [frame_ok H1|exact H1]. }
  destruct (splitShiftThreshold (cfg (this w))
            <=? Z.abs (center_of (recentNoteOns (this w))
                       - splitPoint (this w))); [|now apply Htrim].
  destruct (negb (Z.min (splitMax (cfg (this w)))
                    (Z.max (splitMin (cfg (this w)))
                       (center_of (recentNoteOns (this w))))
                  =? splitPoint (this w))); [|now apply Htrim].
  match goal with
  | |- context [emitSplitChange _ ?w0] =>
      assert (H0 : timers_ok w0) by (frame_ok Hok);
      pose proof (emitSplitChange_ok split_cb_throws w0 H0) as He;
      destruct (emitSplitChange split_cb_throws w0) as [w1 [|e]]
  end; simpl in He.
  - now apply Htrim.
  - exact He.
Qed.

Lemma settle_ok (r : World * Completion) : timers_ok r.1 -> timers_ok (settle r).
Proof.
  destruct r as [w [|e]]; simpl; [auto|].
  intros Hok. frame_ok Hok.
Qed.

Lemma fire_ok (id : nat) (w : World) : timers_ok w -> timers_ok (fire Chord_detect chord_cb_throws split_cb_throws id w).
Proof.
  intros Hok. unfold fire.
  destruct (List.find (due id (now (host w))) (timers (host w))) as [x|] eqn:Hfind;
    [|exact Hok].
  apply find_some in Hfind as [Hx _].
  apply settle_ok.
  match goal with
  | |- timers_ok (run_task _ _ _ _ ?w0).1 => assert (H0 : timers_ok w0)
  end.
  { destruct Hok as (Hpos & Hown & Hnone).
    assert (Hsub : forall y,
              In y (match t_every x with
                    | None => List.filter (keeps id) (timers (host w))
                    | Some d =>
                        List.filter (keeps id) (timers (host w))
                        ++ [ {| t_id := t_id x; t_due := (t_due x + d)%Q;
                                t_task := t_task x; t_every := t_every x |} ]
                    end) ->
              exists y0, In y0 (timers (host w)) /\ t_id y = t_id y0 /\
                         t_task y = t_task y0).
    { intros y Hy. destruct (t_every x).
      - apply in_app_or in Hy as [Hy|[<-|[]]].
        + apply filter_In in Hy as [Hy _]. eauto.
        + exists x. auto.
      - apply filter_In in Hy as [Hy _]. eauto. }
    split; [exact Hpos|]. split.
    - intros y Hy. simpl in Hy. destruct (Hsub y Hy) as (y0 & Hy0 & Hi & Ht).
      destruct (Hown y0 Hy0) as [Hid Hh]. unfold owned. simpl.
      rewrite Hi, Ht. auto.
    - intros hand y Hfirst Hy. simpl in Hy, Hfirst.
      destruct (Hsub y Hy) as (y0 & Hy0 & Hi & Ht). rewrite Ht.
      now apply Hnone. }
  destruct (t_task x); simpl.
  - now apply processBuffer_ok.
  - now apply recomputeSplit_ok.
Qed.

Lemma dispose_ok (w : World) : timers_ok w -> timers_ok (dispose w).
Proof.
  intros (Hpos & Hown & Hnone). unfold dispose.
  split; [simpl; now rewrite !nextTimerId_clear_if_set|]. split.
  - intros x Hx. simpl in Hx. do 3 apply In_clear_if_set in Hx.
    exact (Hown x Hx).
  - intros hand x Hfirst Hx. simpl in Hx, Hfirst.
    do 3 apply In_clear_if_set in Hx.
    apply Hnone; [|exact Hx]. destruct hand; exact Hfirst.
Qed.

(** With every pending timer owned, [dispose] leaves no timer pending. *)
Lemma dispose_clears (w : World) : timers_ok w -> timers (host (dispose w)) = [].
Proof.
  intros (Hpos & Hown & Hnone).
  destruct (timers (host (dispose w))) as [|x rest] eqn:E; [reflexivity|].
  exfalso.
  assert (Hx : In x (timers (host (dispose w)))) by (rewrite E; now left).
  unfold dispose in Hx. simpl in Hx.
  assert (Hx0 : In x (timers (host w))) by (do 3 apply In_clear_if_set in Hx; exact Hx).
  destruct (Hown x Hx0) as [Hid Hh].
  destruct (t_task x) as [[|]|].
  - simpl in Hh. do 2 apply In_clear_if_set in Hx. rewrite Hh in Hx.
    now apply (clear_if_set_gone _ _ _ Hid) in Hx.
  - simpl in Hh. apply In_clear_if_set in Hx. rewrite Hh in Hx.
    now apply (clear_if_set_gone _ _ _ Hid) in Hx.
  - rewrite Hh in Hx. now apply (clear_if_set_gone _ _ _ Hid) in Hx.
Qed.

Lemma constructor_ok (config : MidiInputManagerConfig) :
  timers_ok (constructor config fresh_host).
Proof.
  unfold constructor. simpl. split; [simpl; lia|]. split.
  - intros x [<-|[]]. split; simpl; [lia|reflexivity].
  - intros hand x _ [<-|[]]. simpl. discriminate.
Qed.

Lemma step_ok (w : World) (te : Q * Event) : timers_ok w -> timers_ok (step' w te).
Proof.
  intros Hok. destruct te as [t ev]. unfold step.
  assert (H0 : timers_ok (with_host (at_time t (host w)) w)) by (frame_ok Hok).
  destruct ev.
  - apply settle_ok. now apply handleNoteOn_ok.
  - now apply handleNoteOff_ok.
  - now apply handleControlChange_ok.
  - now apply dispose_ok.
  - unfold onChord. frame_ok H0.
  - unfold offChord. frame_ok H0.
  - unfold onSplitChange. frame_ok H0.
  - unfold offSplitChange. frame_ok H0.
  - now apply fire_ok.
Qed.

Lemma run_ok (evs : list (Q * Event)) (w : World) :
  timers_ok w -> timers_ok (run' w evs).
Proof.
  revert w. induction evs as [|te evs IH]; intros w Hok; simpl; [exact Hok|].
  apply IH. now apply step_ok.
Qed.

End Reachable.

(** ** C3: after dispose *)

Section Disposed.

Variable Chord_detect : list (option string) -> DetectResult.
Variable chord_cb_throws : nat -> ChordEvent -> bool.
Variable split_cb_throws : nat -> SplitChangeEvent -> bool.

Local Abbreviation step' := (step Chord_detect chord_cb_throws split_cb_throws).
Local Abbreviation run' := (run Chord_detect chord_cb_throws split_cb_throws).

Lemma clear_if_set_nil (o : option nat) (h : Host) :
  timers h = [] -> timers (clear_if_set o h) = [].
Proof.
  intros Hnil. destruct (timers (clear_if_set o h)) as [|x r] eqn:E; [reflexivity|].
  assert (Hx : In x (timers (clear_if_set o h))) by (rewrite E; now left).
  apply In_clear_if_set in Hx. rewrite Hnil in Hx. destruct Hx.
Qed.

Lemma step_terminal (w : World) (te : Q * Event) :
  terminal w ->
  terminal (step' w te) /\ log (host (step' w te)) = log (host w).
Proof.
  intros [Hd Ht]. destruct te as [t ev]. unfold step, terminal.
  destruct ev; simpl.
  - unfold handleNoteOn. simpl. rewrite Hd. simpl. auto.
  - unfold handleNoteOff. simpl. rewrite Hd. simpl. auto.
  - unfold handleControlChange. simpl. rewrite Hd. simpl. auto.
  - rewrite !clear_if_set_log. simpl. split; [|reflexivity].
    split; [reflexivity|]. do 3 apply clear_if_set_nil. exact Ht.
  - auto.
  - auto.
  - auto.
  - auto.
  - unfold fire. simpl. rewrite Ht. simpl. auto.
Qed.

Lemma run_terminal (evs : list (Q * Event)) (w : World) :
  terminal w ->
  terminal (run' w evs) /\ log (host (run' w evs)) = log (host w).
Proof.
  revert w. induction evs as [|te evs IH]; intros w Hw; simpl; [auto|].
  destruct (step_terminal w te Hw) as [Hs Hl].
  destruct (IH _ Hs) as [Hr Hlr]. split; [exact Hr|congruence].
Qed.

End Disposed.

(** C3. Take any manager built on a fresh page and driven by any events,
    and call [dispose()] on it.  At that moment no timer is left pending
    (the buffer-close timers and the split-estimation interval are
    cancelled).  Whatever events follow (entry-point calls, subscriptions,
    timer slots), nothing more is observed from the manager: no ChordEvent,
    no SplitChangeEvent, no callback call, no exception.  In every state
    reached afterwards [handleNoteOn], [handleNoteOff] and
    [handleControlChange] return normally and change nothing. *)
Theorem C3_dispose_is_terminal Chord_detect chord_cb_throws split_cb_throws
    (config : MidiInputManagerConfig) (before after : list (Q * Event))
    (t : Q) :
  let go := run Chord_detect chord_cb_throws split_cb_throws in
  let w := go (constructor config fresh_host) before in
  let wd := step Chord_detect chord_cb_throws split_cb_throws w (t, CallDispose) in
  let w' := go wd after in
  timers (host wd) = [] /\
  log (host wd) = log (host w) /\
  log (host w') = log (host wd) /\
  chords_emitted (log (host w')) = chords_emitted (log (host w)) /\
  splits_emitted (log (host w')) = splits_emitted (log (host w)) /\
  (forall midi velocity time,
     handleNoteOn Chord_detect chord_cb_throws midi velocity time w'
     = (w', Normal)) /\
  (forall midi, handleNoteOff midi w' = w') /\
  (forall controller value, handleControlChange controller value w' = w').
Proof.
  intros go w wd w'.
  assert (Hok : timers_ok w).
  { subst w go. apply run_ok, constructor_ok. }
  assert (Hclear : timers (host wd) = []).
  { subst wd. unfold step.
    apply dispose_clears. frame_ok Hok. }
  assert (Hlogd : log (host wd) = log (host w)).
  { subst wd. unfold step, dispose. simpl. now rewrite !clear_if_set_log. }
  assert (Hterm : terminal wd).
  { split; [reflexivity|exact Hclear]. }
  destruct (run_terminal Chord_detect chord_cb_throws split_cb_throws
              after wd Hterm) as [[Hd' Ht'] Hlog'].
  fold go in Hd', Ht', Hlog'. fold w' in Hd', Ht', Hlog'.
  split; [exact Hclear|]. split; [exact Hlogd|]. split; [exact Hlog'|].
  split; [now rewrite Hlog', Hlogd|]. split; [now rewrite Hlog', Hlogd|].
  split; [|split].
  - intros midi velocity time. unfold handleNoteOn. now rewrite Hd'.
  - intros midi. unfold handleNoteOff. now rewrite Hd'.
  - intros controller value. unfold handleControlChange. now rewrite Hd'.
Qed.

(** The disposal scenario of the spec, with a window still open when
    [dispose()] is called. *)
Example dispose_then_note_on :
  let w := run detect_sample quiet_chord quiet_split w_triad
             [ (20%Q, CallDispose);
               (25%Q, CallNoteOn 60 100 None);
               (55%Q, FireTimer 2);
               (1000%Q, FireTimer 1) ] in
  log (host w) = [] /\ timers (host w) = [] /\
  map midi (notes (bufferR (this w))) = [60; 64; 67].
Proof. vm_compute. repeat split; reflexivity. Qed.

(** ** C5: early close *)

Section EarlyClose.

Variable Chord_detect : list (option string) -> DetectResult.
Variable chord_cb_throws : nat -> ChordEvent -> bool.

Local Abbreviation processBuffer' := (processBuffer Chord_detect chord_cb_throws).
Local Abbreviation pushToBuffer' := (pushToBuffer Chord_detect chord_cb_throws).

Lemma resetBuffer_timers (hand : Hand) (w : World) (x : Timer) :
  In x (timers (host (resetBuffer hand w))) -> In x (timers (host w)).
Proof. unfold resetBuffer, clearTimer. simpl. apply In_clear_if_set. Qed.

Lemma emitChord_timers (evt : ChordEvent) (w : World) :
  timers (host (emitChord chord_cb_throws evt w).1) = timers (host w).
Proof.
  unfold emitChord.
  pose proof (call_chord_callbacks_host chord_cb_throws
                (chordCallbacks (this w)) evt
                (observe (EmitChord evt) (host w))) as (H1 & _).
  destruct (call_chord_callbacks _ _ _ _) as [h c]. exact H1.
Qed.

(** Closing a buffer schedules nothing. *)
Lemma processBuffer_timers (hand : Hand) (w : World) (x : Timer) :
  In x (timers (host (processBuffer' hand w).1)) -> In x (timers (host w)).
Proof.
  unfold processBuffer.
  destruct (firstTime (buffer hand (this w))) as [first|];
    [|apply resetBuffer_timers].
  destruct (falsy_time (Some first)
            || (length (notes (buffer hand (this w))) =? 0)%nat);
    [apply resetBuffer_timers|].
  destruct (build_event Chord_detect hand first w) as [evt|e]; [|auto].
  pose proof (emitChord_timers evt w) as He.
  destruct (emitChord chord_cb_throws evt w) as [w' [|e]]; cbn [fst] in *.
  - intros Hx. apply resetBuffer_timers in Hx. now rewrite He in Hx.
  - now rewrite He.
Qed.

Lemma resetBuffer_buffer (hand : Hand) (w : World) :
  notes (buffer hand (this (resetBuffer hand w))) = [] /\
  firstTime (buffer hand (this (resetBuffer hand w))) = None /\
  timer (buffer hand (this (resetBuffer hand w))) = None.
Proof.
  unfold resetBuffer, clearTimer. simpl.
  rewrite !buffer_set_buffer_same. simpl. auto.
Qed.

(** A close that returns has reset its buffer. *)
Lemma processBuffer_returns_reset (hand : Hand) (w : World) :
  (processBuffer' hand w).2 = Normal ->
  let b := buffer hand (this (processBuffer' hand w).1) in
  notes b = [] /\ firstTime b = None /\ timer b = None.
Proof.
  unfold processBuffer.
  destruct (firstTime (buffer hand (this w))) as [first|];
    [|intros _; apply resetBuffer_buffer].
  destruct (falsy_time (Some first)
            || (length (notes (buffer hand (this w))) =? 0)%nat);
    [intros _; apply resetBuffer_buffer|].
  destruct (build_event Chord_detect hand first w) as [evt|e];
    [|discriminate].
  destruct (emitChord chord_cb_throws evt w) as [w' [|e]];
    [intros _; apply resetBuffer_buffer|discriminate].
Qed.

(** When no subscriber throws on its event, a close returns. *)
Lemma processBuffer_quiet_returns (hand : Hand) (first : Q) (w : World)
    (evt : ChordEvent) :
  closable hand first w ->
  build_event Chord_detect hand first w = Ok evt ->
  (forall c, c ∈ chordCallbacks (this w) -> chord_cb_throws c evt = false) ->
  (processBuffer' hand w).2 = Normal.
Proof.
  intros Hc Hb Hq. unfold processBuffer.
  rewrite (closable_guard _ _ _ Hc). destruct Hc as (Hf & _ & _).
  rewrite Hf, Hb.
  rewrite (emitChord_quiet chord_cb_throws evt w Hq). reflexivity.
Qed.

End EarlyClose.

(** A note that reaches the early-close count early enough in an open
    window closes it on the spot. *)
Lemma early_close_closes Chord_detect chord_cb_throws (hand : Hand)
    (note : BufferedNote) (first : Q) (w : World) (evt : ChordEvent) :
  timers_ok w ->
  firstTime (buffer hand (this w)) = Some first ->
  ~ (first == 0)%Q ->
  earlyCount_of (cfg (this w)) hand
  <= Z.of_nat (length (notes (buffer hand (this w)) ++ [note])) ->
  (time note - first < cfgWindow_of (cfg (this w)) hand * (6 # 10))%Q ->
  let appended :=
    clearTimer hand
      (with_this (set_buffer hand
                    (set_notes (notes (buffer hand (this w)) ++ [note])
                       (buffer hand (this w))) (this w)) w) in
  build_event Chord_detect hand first appended = Ok evt ->
  let r := pushToBuffer Chord_detect chord_cb_throws hand note w in
  no_close_pending hand r.1 /\
  chords_emitted (log (host r.1)) = chords_emitted (log (host w)) ++ [evt] /\
  e_timestamp evt = now (host w) /\
  e_velocities evt
  = map (fun n => blendVelocity (velocity n)
                    (median (map velocity (notes (buffer hand (this w)) ++ [note])))
                    (velocityBlend_of (cfg (this w)) hand))
      (notes (buffer hand (this w)) ++ [note]) /\
  (r.2 = Normal ->
     notes (buffer hand (this r.1)) = [] /\
     firstTime (buffer hand (this r.1)) = None /\
     timer (buffer hand (this r.1)) = None) /\
  ((forall c, c ∈ chordCallbacks (this w) -> chord_cb_throws c evt = false) ->
     r.2 = Normal) /\
  earlyCount_of DEFAULTS R = 4 /\
  (cfgWindow_of DEFAULTS R * (6 # 10) == 30)%Q.
Proof.
  intros Hok Hfirst Hnz Hcount Hfast appended Hevt r.
  set (w1 := with_this (set_buffer hand
                 (set_notes (notes (buffer hand (this w)) ++ [note])
                    (buffer hand (this w))) (this w)) w) in *.
  assert (Hr : r = processBuffer Chord_detect chord_cb_throws hand appended).
  { subst r. unfold pushToBuffer. rewrite Hfirst.
    apply Z.leb_le in Hcount. rewrite Hcount.
    apply Qltb_true in Hfast. rewrite Hfast. reflexivity. }
  assert (Hok1 : timers_ok w1).
  { apply (timers_ok_frame w); try reflexivity; [| |exact Hok];
      intros other; subst w1; simpl;
      (destruct (decide (other = hand)) as [->|Hne];
       [now rewrite buffer_set_buffer_same
       |now rewrite buffer_set_buffer_other]). }
  destruct (clearTimer_ok hand w1 Hok1) as [Hokc Hquiet].
  fold appended in Hokc, Hquiet.
  assert (Hbuf : notes (buffer hand (this appended))
                 = notes (buffer hand (this w)) ++ [note] /\
                 firstTime (buffer hand (this appended)) = Some first).
  { subst appended w1. unfold clearTimer. simpl.
    rewrite !buffer_set_buffer_same. simpl. auto. }
  destruct Hbuf as [Hnotes Hfirst'].
  assert (Hclos : closable hand first appended).
  { split; [exact Hfirst'|]. split; [exact Hnz|].
    rewrite Hnotes. intros Hnil. now apply app_eq_nil in Hnil as [_ Hnil]. }
  destruct (build_event_fields _ _ _ _ _ Hevt)
    as (_ & _ & Hv & _ & _ & Hts & _).
  rewrite Hr. split; [|split; [|split; [|split; [|split; [|split]]]]].
  - intros x Hx. apply processBuffer_timers in Hx. now apply Hquiet.
  - rewrite (processBuffer_emits _ _ _ _ _ _ Hclos Hevt).
    subst appended w1. unfold clearTimer. simpl.
    now rewrite clear_if_set_log.
  - rewrite Hts. subst appended w1. unfold clearTimer, clear_if_set. simpl.
    destruct (truthy_handle _); reflexivity.
  - rewrite Hv. unfold velocitiesNormalized_of. rewrite Hnotes. reflexivity.
  - apply processBuffer_returns_reset.
  - intros Hq. apply (processBuffer_quiet_returns _ _ _ _ _ _ Hclos Hevt).
    exact Hq.
  - split; [reflexivity|]. reflexivity.
Qed.

(** The first note of a window only opens it: it is stored, the window
    start is its time, the close timer is set for the window length, and
    nothing is closed or emitted, whatever the early-close count. *)
Lemma first_note_waits Chord_detect chord_cb_throws (hand : Hand)
    (note : BufferedNote) (w : World) :
  firstTime (buffer hand (this w)) = None ->
  let r := pushToBuffer Chord_detect chord_cb_throws hand note w in
  r.2 = Normal /\
  log (host r.1) = log (host w) /\
  notes (buffer hand (this r.1)) = [note] /\
  firstTime (buffer hand (this r.1)) = Some (time note) /\
  timer (buffer hand (this r.1)) = Some (nextTimerId (host w)) /\
  In {| t_id := nextTimerId (host w);
        t_due := (now (host w) + cfgWindow_of (cfg (this w)) hand)%Q;
        t_task := ProcessBufferTask hand;
        t_every := None |} (timers (host r.1)).
Proof.
  intros Hfirst r. subst r. unfold pushToBuffer. rewrite Hfirst.
  unfold arm, setTimeout, schedule. simpl.
  rewrite !buffer_set_buffer_same. simpl.
  repeat split; try reflexivity.
  apply in_or_app. right. now left.
Qed.

(** C5, as the code has it.  The first note of a window never closes it,
    whatever earlyCloseCount is: the early-close test is made on the notes
    that follow.  For a note routed to a hand whose window is open with a
    non-zero start time, in a state where the timers are the manager's own:
    when the note brings the buffer to at least that hand's earlyCloseCount
    notes while its time is less than 60% of that hand's window after the
    window start, then, the name lookup not throwing, [pushToBuffer] itself
    closes the buffer: no close timer of this hand stays pending, the event
    of the whole window (the last note included) is emitted in this very
    call with the current time as its timestamp, and when the call returns
    normally, which it does when no subscriber throws, the buffer is reset.
    By default the right hand closes early at 4 notes within 60% of 50 ms. *)
Theorem C5_early_close Chord_detect chord_cb_throws (hand : Hand)
    (note : BufferedNote) (w : World) :
  let r := pushToBuffer Chord_detect chord_cb_throws hand note w in
  (firstTime (buffer hand (this w)) = None ->
     r.2 = Normal /\
     log (host r.1) = log (host w) /\
     notes (buffer hand (this r.1)) = [note] /\
     firstTime (buffer hand (this r.1)) = Some (time note) /\
     timer (buffer hand (this r.1)) = Some (nextTimerId (host w)) /\
     In {| t_id := nextTimerId (host w);
           t_due := (now (host w) + cfgWindow_of (cfg (this w)) hand)%Q;
           t_task := ProcessBufferTask hand;
           t_every := None |} (timers (host r.1))) /\
  (forall first evt,
     timers_ok w ->
     firstTime (buffer hand (this w)) = Some first ->
     ~ (first == 0)%Q ->
     earlyCount_of (cfg (this w)) hand
     <= Z.of_nat (length (notes (buffer hand (this w)) ++ [note])) ->
     (time note - first < cfgWindow_of (cfg (this w)) hand * (6 # 10))%Q ->
     build_event Chord_detect hand first
       (clearTimer hand
          (with_this (set_buffer hand
                        (set_notes (notes (buffer hand (this w)) ++ [note])
                           (buffer hand (this w))) (this w)) w)) = Ok evt ->
     no_close_pending hand r.1 /\
     chords_emitted (log (host r.1)) = chords_emitted (log (host w)) ++ [evt] /\
     e_timestamp evt = now (host w) /\
     e_velocities evt
     = map (fun n => blendVelocity (velocity n)
                       (median (map velocity
                                  (notes (buffer hand (this w)) ++ [note])))
                       (velocityBlend_of (cfg (this w)) hand))
         (notes (buffer hand (this w)) ++ [note]) /\
     (r.2 = Normal ->
        notes (buffer hand (this r.1)) = [] /\
        firstTime (buffer hand (this r.1)) = None /\
        timer (buffer hand (this r.1)) = None) /\
     ((forall c, c ∈ chordCallbacks (this w) -> chord_cb_throws c evt = false) ->
        r.2 = Normal)) /\
  earlyCount_of DEFAULTS R = 4 /\
  (cfgWindow_of DEFAULTS R * (6 # 10) == 30)%Q.
Proof.
  intros r. split; [|split].
  - apply first_note_waits.
  - intros first evt Hok Hfirst Hnz Hcount Hfast Hevt.
    destruct (early_close_closes Chord_detect chord_cb_throws hand note first
                w evt Hok Hfirst Hnz Hcount Hfast Hevt)
      as (H1 & H2 & H3 & H4 & H5 & H6 & _).
    auto 10.
  - split; reflexivity.
Qed.

Lemma C5_witness :
  timers_ok w_fourth /\
  firstTime (buffer R (this w_fourth)) = Some 5%Q /\
  chords_emitted
    (log (host (pushToBuffer detect_sample quiet_chord R fourth_note
                  w_fourth).1))
  = [fourth_event] /\
  (forall x,
     In x (timers (host (pushToBuffer detect_sample quiet_chord R fourth_note
                           w_fourth).1)) ->
     t_task x <> ProcessBufferTask R).
Proof.
  assert (Hok : timers_ok w_fourth).
  { apply (timers_ok_frame w_triad); try reflexivity.
    apply run_ok, constructor_ok. }
  assert (Hfirst : firstTime (buffer R (this w_fourth)) = Some 5%Q)
    by (vm_compute; reflexivity).
  split; [exact Hok|]. split; [exact Hfirst|].
  destruct (C5_early_close detect_sample quiet_chord R fourth_note w_fourth)
    as (_ & Hclose & _).
  destruct (Hclose 5%Q fourth_event Hok Hfirst) as (Hquiet & Hemit & _).
  - intros H. vm_compute in H. discriminate.
  - vm_compute. discriminate.
  - vm_compute. reflexivity.
  - vm_compute. reflexivity.
  - split; [|exact Hquiet]. rewrite Hemit. vm_compute. reflexivity.
Defined.

(** With earlyCloseCountRight = 1 the first note of a window brings the
    right-hand buffer to its early-close count at elapsed time 0, under 60%
    of 50 ms.  Nothing is emitted: the note waits in the buffer and the
    close timer stays pending until 55 ms.  The window's first note takes
    the branch of line 189, which has no early-close test. *)
Lemma C5_counterexample :
  earlyCloseCountRight (cfg (this w_eager)) = 1 /\
  map (fun n => (midi n, time n)) (notes (bufferR (this w_eager)))
  = [(60, 5%Q)] /\
  firstTime (bufferR (this w_eager)) = Some 5%Q /\
  log (host w_eager) = [] /\
  timers (host w_eager)
  = [ {| t_id := 1; t_due := 1000; t_task := RecomputeSplitTask;
         t_every := Some 1000%Q |};
      {| t_id := 2; t_due := 55; t_task := ProcessBufferTask R;
         t_every := None |} ].
Proof. vm_compute. repeat split; reflexivity. Qed.

(** A window that starts at timestamp 0: line 214 takes the start time 0
    for a missing one, so the early close drops the four notes and emits
    nothing. *)
Example early_close_window_start_zero :
  let w := run detect_sample quiet_chord quiet_split w_init
             [ (0%Q, CallNoteOn 60 100 (Some 0%Q));
               (1%Q, CallNoteOn 64 90 (Some 1%Q));
               (2%Q, CallNoteOn 67 95 (Some 2%Q));
               (3%Q, CallNoteOn 72 80 (Some 3%Q)) ] in
  log (host w) = [] /\ notes (bufferR (this w)) = [].
Proof. vm_compute. split; reflexivity. Qed.

(** ** The round trip of a C major triad *)

Section RoundTrip.

Variable Chord_detect : list (option string) -> DetectResult.
Variable chord_cb_throws : nat -> ChordEvent -> bool.
Variable split_cb_throws : nat -> SplitChangeEvent -> bool.

Local Abbreviation step' := (step Chord_detect chord_cb_throws split_cb_throws).
Local Abbreviation run' := (run Chord_detect chord_cb_throws split_cb_throws).

Lemma untouched_init : untouched w_init.
Proof.
  unfold untouched, w_init, constructor. simpl.
  repeat split; try reflexivity. eexists. repeat split; reflexivity.
Qed.

Lemma untouched_subscription (w : World) (t : Q) (ev : Event) :
  subscribes ev -> untouched w -> untouched (step' w (t, ev)).
Proof.
  intros Hs Hu. unfold untouched in *.
  destruct ev; try contradiction; simpl; exact Hu.
Qed.

Lemma untouched_subscriptions (pre : list (Q * Event)) (w : World) :
  Forall (fun te => subscribes te.2) pre ->
  untouched w -> untouched (run' w pre).
Proof.
  revert w. induction pre as [|[t ev] pre IH]; intros w Hall Hu; simpl;
    [exact Hu|].
  apply Forall_cons in Hall as [Hev Hall].
  apply IH; [exact Hall|]. now apply untouched_subscription.
Qed.

(** The first note opens the window. *)
Lemma first_note_opens (w : World) (t1 : Q) (m v : Z) :
  untouched w -> 60 <= m ->
  hearing t1 [(m, v)] (step' w (t1, CallNoteOn m v None)).
Proof.
  intros (Hcfg & Hsplit & Hdisp & Hbuf & Hact & (x1 & Htim & Hid & Htask1) & Hnext & Hlog)
    Hm.
  unfold step, handleNoteOn. simpl. rewrite Hdisp, Hsplit.
  assert (Hhand : (m <? 60) = false) by (apply Z.ltb_ge; lia).
  rewrite Hhand. unfold pushToBuffer. simpl. rewrite Hbuf. simpl.
  unfold hearing. simpl. rewrite Hcfg, Hact, Htim, Hnext. simpl.
  repeat split; try assumption; try reflexivity.
  - intros k an Hk. apply lookup_insert_Some in Hk as [[_ <-]|[_ Hk]];
      [reflexivity|]. rewrite lookup_empty in Hk. discriminate.
  - exists x1. split; [reflexivity|]. split; [exact Hid|exact Htask1].
Qed.

(** A note up to 50 ms later that leaves the window under four notes just
    joins it. *)
Lemma next_note_joins (w : World) (t1 t : Q) (ns : list (Z * Z)) (m v : Z) :
  hearing t1 ns w -> (length ns < 3)%nat -> 60 <= m ->
  (t - t1 <= 50)%Q ->
  hearing t1 (ns ++ [(m, v)]) (step' w (t, CallNoteOn m v None)).
Proof.
  intros (Hcfg & Hsplit & Hdisp & Hfirst & Hns & Hact & (x1 & Htim & Hid & Htask1) & Hlog)
    Hlen Hm Ht.
  unfold step, handleNoteOn. simpl. rewrite Hdisp, Hsplit.
  assert (Hhand : (m <? 60) = false) by (apply Z.ltb_ge; lia).
  rewrite Hhand. unfold pushToBuffer. simpl. rewrite Hfirst, Hcfg. simpl.
  assert (Hcount : (4 <=? Z.of_nat (length (notes (bufferR (this w))
                       ++ [ {| midi := m; velocity := v; time := t |} ])))
                   = false).
  { apply Z.leb_gt. rewrite length_app. simpl.
    rewrite <- Hns, length_map in Hlen. lia. }
  rewrite Hcount. simpl.
  assert (Hroll : Qltb 50 (t - t1) = false) by (now apply Qltb_false).
  rewrite Hroll. simpl.
  unfold hearing. simpl.
  repeat split; try assumption; try reflexivity.
  - rewrite map_app, Hns. reflexivity.
  - intros k an Hk. apply lookup_insert_Some in Hk as [[_ <-]|[_ Hk]];
      [reflexivity|]. now apply (Hact k).
  - exists x1. split; [exact Htim|]. split; [exact Hid|exact Htask1].
Qed.

End RoundTrip.

Section WindowCloses.

Variable Chord_detect : list (option string) -> DetectResult.
Variable chord_cb_throws : nat -> ChordEvent -> bool.
Variable split_cb_throws : nat -> SplitChangeEvent -> bool.

Local Abbreviation step' := (step Chord_detect chord_cb_throws split_cb_throws).

(** When the name lookup does not throw, the event is built. *)
Lemma build_event_total (hand : Hand) (first : Q) (w : World) :
  Chord_detect (map pcToNote_at
                  (distinctPitchClasses_of (noteSet_of (this w) hand)))
  <> DetectThrows ->
  exists evt, build_event Chord_detect hand first w = Ok evt.
Proof.
  intros Hd. unfold build_event.
  destruct (names_role _); [|eauto].
  unfold detectChord.
  destruct (Chord_detect _) as [| |names]; [contradiction| |].
  - destruct (noteSet_of (this w) hand); simpl; eauto.
  - destruct (length names =? 0)%nat;
      destruct (noteSet_of (this w) hand); simpl; eauto;
      destruct (truthy_name _); eauto.
Qed.

Lemma settle_chords (r : World * Completion) :
  chords_emitted (log (host (settle r))) = chords_emitted (log (host r.1)).
Proof.
  destruct r as [w [|e]]; simpl; [reflexivity|].
  rewrite chords_emitted_app. simpl. apply app_nil_r.
Qed.

Lemma settle_timers (r : World * Completion) :
  timers (host (settle r)) = timers (host r.1).
Proof. destruct r as [w [|e]]; reflexivity. Qed.

(** With nothing sustained, the note set is the sorted buffer. *)
Lemma noteSet_of_unsustained (m : MidiInputManager) (hand : Hand) :
  (forall k an, activeNotes m !! k = Some an -> sustained an = false) ->
  noteSet_of m hand = sort_num (map midi (notes (buffer hand m))).
Proof.
  intros Hact. unfold noteSet_of. rewrite gather_split.
  assert (Hnil : folded m hand = []).
  { destruct (folded m hand) as [|x r] eqn:E; [reflexivity|].
    assert (Hx : x ∈ folded m hand) by (rewrite E; apply elem_of_cons; now left).
    apply folded_spec in Hx as (_ & _ & k & an & Hk & _ & _ & Hs).
    rewrite (Hact k an Hk) in Hs. discriminate. }
  now rewrite Hnil, app_nil_r.
Qed.

(** The close timer of the triad fires. *)
Lemma triad_window_closes (w : World) (t1 tf : Q) :
  hearing t1 [(60, 100); (64, 90); (67, 95)] w ->
  ~ (t1 == 0)%Q -> (t1 + 50 <= tf)%Q ->
  Chord_detect [Some "C"; Some "E"; Some "G"]%string <> DetectThrows ->
  let w' := step' w (tf, FireTimer 2) in
  (exists evt,
     chords_emitted (log (host w')) = [evt] /\
     e_role evt = Chord /\ e_pitchClasses evt = [0; 4; 7] /\
     e_hand evt = R /\ e_notes evt = [60; 64; 67]) /\
  (forall x, In x (timers (host w')) -> t_task x = RecomputeSplitTask).
Proof.
  intros (Hcfg & Hsplit & Hdisp & Hfirst & Hns & Hact & (x1 & Htim & Hid & Htask1) & Hlog)
    Hnz Hdue Hdet w'.
  set (w0 := with_host (with_timers [x1] (at_time tf (host w)))
               (with_host (at_time tf (host w)) w)).
  assert (Hstep : w' = settle (processBuffer Chord_detect chord_cb_throws R w0)).
  { subst w' w0. unfold step, fire. simpl. rewrite Htim. simpl.
    unfold due, keeps. simpl. rewrite Hid. simpl.
    apply Qle_bool_iff in Hdue. rewrite Hdue. reflexivity. }
  rewrite Hstep. clear Hstep w'.
  assert (Hthis : this w0 = this w) by reflexivity.
  assert (Hmidi : map midi (notes (bufferR (this w))) = [60; 64; 67]).
  { apply (f_equal (map fst)) in Hns. rewrite map_map in Hns. exact Hns. }
  assert (Hset : noteSet_of (this w0) R = [60; 64; 67]).
  { rewrite Hthis, noteSet_of_unsustained by exact Hact.
    simpl. rewrite Hmidi. reflexivity. }
  assert (Hclos : closable R t1 w0).
  { split; [exact Hfirst|]. split; [exact Hnz|].
    simpl. intros Hnil. rewrite Hnil in Hmidi. discriminate. }
  destruct (build_event_total R t1 w0) as [evt Hevt].
  { rewrite Hset. exact Hdet. }
  destruct (build_event_fields _ _ _ _ _ Hevt)
    as (Hh & Hn & _ & Hp & Hr & _).
  rewrite Hset in Hn, Hp, Hr. rewrite Hthis, Hcfg in Hr.
  split.
  - exists evt. rewrite settle_chords.
    rewrite (processBuffer_emits _ _ _ _ _ _ Hclos Hevt).
    simpl. rewrite Hlog. auto.
  - intros x Hx. rewrite settle_timers in Hx.
    apply processBuffer_timers in Hx. simpl in Hx.
    destruct Hx as [<-|[]]. exact Htask1.
Qed.

(** The close timer fires on a window whose start is the timestamp 0: line
    214 reads [!buf.firstTime], which holds for 0 as it does for [null], so
    the buffer is reset before any event is built. *)
Lemma window_started_at_zero_is_lost (w : World) (t1 tf : Q)
    (ns : list (Z * Z)) :
  hearing t1 ns w ->
  (t1 == 0)%Q -> (t1 + 50 <= tf)%Q ->
  let w' := step' w (tf, FireTimer 2) in
  log (host w') = log (host w) /\
  notes (bufferR (this w')) = [] /\
  firstTime (bufferR (this w')) = None /\
  (forall x, In x (timers (host w')) -> t_task x = RecomputeSplitTask).
Proof.
  intros (Hcfg & Hsplit & Hdisp & Hfirst & Hns & Hact & (x1 & Htim & Hid & Htask1) & Hlog)
    Hz Hdue w'.
  set (w0 := with_host (with_timers [x1] (at_time tf (host w)))
               (with_host (at_time tf (host w)) w)).
  assert (Hstep : w' = resetBuffer R w0).
  { subst w' w0. unfold step, fire. simpl. rewrite Htim. simpl.
    unfold due, keeps. simpl. rewrite Hid. simpl.
    apply Qle_bool_iff in Hdue. rewrite Hdue. simpl.
    unfold processBuffer. simpl. rewrite Hfirst. simpl.
    apply Qeq_bool_iff in Hz. rewrite Hz. reflexivity. }
  rewrite Hstep. clear Hstep w'.
  destruct (resetBuffer_buffer R w0) as (Hn & Hf & _).
  split; [now rewrite resetBuffer_log|].
  split; [exact Hn|]. split; [exact Hf|].
  intros x Hx. apply resetBuffer_timers in Hx. simpl in Hx.
  destruct Hx as [<-|[]]. exact Htask1.
Qed.

End WindowCloses.

(** X20. A manager with the default configuration on a fresh page, with any
    subscriptions made; middle C, E and G are struck with
    [handleNoteOn(60,100)], [handleNoteOn(64,90)], [handleNoteOn(67,95)] at
    clock readings [t1 <= t2 <= t3] no more than 10 ms apart, the first
    reading [t1] being positive; the chord dictionary does not throw on
    C, E, G.  Nothing is emitted while the window is open, and when the
    right-hand close timer fires, 50 ms after [t1] or later, exactly one
    ChordEvent has been emitted: its role is Chord, its pitch classes are
    [0,4,7], its hand is Right.  No close timer is left pending. *)
Theorem X20_round_trip_after_clock_zero Chord_detect chord_cb_throws split_cb_throws
    (pre : list (Q * Event)) (t1 t2 t3 tf : Q) :
  Forall (fun te => subscribes te.2) pre ->
  (0 < t1)%Q -> (t1 <= t2)%Q -> (t2 <= t3)%Q -> (t3 - t1 <= 10)%Q ->
  (t1 + 50 <= tf)%Q ->
  Chord_detect [Some "C"; Some "E"; Some "G"]%string <> DetectThrows ->
  let go := run Chord_detect chord_cb_throws split_cb_throws in
  let w := go (constructor DEFAULTS fresh_host)
             (pre ++ [ (t1, CallNoteOn 60 100 None);
                       (t2, CallNoteOn 64 90 None);
                       (t3, CallNoteOn 67 95 None) ]) in
  let w' := go w [ (tf, FireTimer 2) ] in
  chords_emitted (log (host w)) = [] /\
  (exists evt,
     chords_emitted (log (host w')) = [evt] /\
     e_role evt = Chord /\ e_pitchClasses evt = [0; 4; 7] /\
     e_hand evt = R /\ e_notes evt = [60; 64; 67]) /\
  (forall x, In x (timers (host w')) -> t_task x <> ProcessBufferTask R) /\
  splitInitialMidi DEFAULTS = 60 /\
  (chordWindowMsRight DEFAULTS == 50)%Q /\
  earlyCloseCountRight DEFAULTS = 4.
Proof.
  intros Hpre Hpos H12 H23 H13 Hdue Hdet go w w'.
  assert (Hhear : hearing t1 [(60, 100); (64, 90); (67, 95)] w).
  { subst w go. unfold run. rewrite foldl_app. cbn [foldl].
    apply (next_note_joins Chord_detect chord_cb_throws split_cb_throws
             _ t1 t3 [(60, 100); (64, 90)]); [|simpl; lia|lia|lra].
    apply (next_note_joins Chord_detect chord_cb_throws split_cb_throws
             _ t1 t2 [(60, 100)]); [|simpl; lia|lia|lra].
    apply first_note_opens; [|lia].
    apply (untouched_subscriptions Chord_detect chord_cb_throws
             split_cb_throws pre); [exact Hpre|apply untouched_init]. }
  split.
  { destruct Hhear as (_ & _ & _ & _ & _ & _ & _ & Hlog). exact Hlog. }
  assert (Hnz : ~ (t1 == 0)%Q) by lra.
  destruct (triad_window_closes Chord_detect chord_cb_throws split_cb_throws
              w t1 tf Hhear Hnz Hdue Hdet) as [Hevt Htim].
  split; [exact Hevt|]. split; [|repeat split].
  intros x Hx Htask. rewrite (Htim x Hx) in Htask. discriminate.
Qed.

Lemma X20_witness :
  Forall (fun te : Q * Event => subscribes te.2) [ (1%Q, CallOnChord 7%nat) ] /\
  (0 < 5)%Q /\ (5 <= 8)%Q /\ (8 <= 12)%Q /\ (12 - 5 <= 10)%Q /\
  (5 + 50 <= 55)%Q /\
  exists evt,
    chords_emitted
      (log (host (run detect_sample quiet_chord quiet_split
                    (run detect_sample quiet_chord quiet_split
                       (constructor DEFAULTS fresh_host)
                       ([ (1%Q, CallOnChord 7%nat) ]
                        ++ [ (5%Q, CallNoteOn 60 100 None);
                             (8%Q, CallNoteOn 64 90 None);
                             (12%Q, CallNoteOn 67 95 None) ]))
                    [ (55%Q, FireTimer 2) ])))
    = [evt] /\
    e_role evt = Chord /\ e_pitchClasses evt = [0; 4; 7] /\ e_hand evt = R.
Proof.
  assert (Hpre : Forall (fun te : Q * Event => subscribes te.2)
                   [ (1%Q, CallOnChord 7%nat) ]).
  { constructor; [exact I|constructor]. }
  assert (H1 : (0 < 5)%Q) by reflexivity.
  assert (H2 : (5 <= 8)%Q) by discriminate.
  assert (H3 : (8 <= 12)%Q) by discriminate.
  assert (H4 : (12 - 5 <= 10)%Q) by discriminate.
  assert (H5 : (5 + 50 <= 55)%Q) by discriminate.
  assert (H6 : detect_sample [Some "C"; Some "E"; Some "G"]%string
               <> DetectThrows) by discriminate.
  destruct (X20_round_trip_after_clock_zero detect_sample quiet_chord quiet_split
              [ (1%Q, CallOnChord 7%nat) ] 5 8 12 55 Hpre H1 H2 H3 H4 H5 H6)
    as (_ & (evt & Hone & Hrole & Hpcs & Hhand & _) & _).
  repeat (split; [assumption|]).
  exists evt. auto.
Defined.

(** The same round trip with the first note at clock reading 0: the three
    notes are buffered as before, but the close finds the window start
    falsy and throws the window away. *)
Lemma round_trip_lost_at_clock_zero Chord_detect chord_cb_throws
    split_cb_throws (pre : list (Q * Event)) (t2 t3 tf : Q) :
  Forall (fun te => subscribes te.2) pre ->
  (0 <= t2)%Q -> (t2 <= t3)%Q -> (t3 <= 10)%Q -> (50 <= tf)%Q ->
  let go := run Chord_detect chord_cb_throws split_cb_throws in
  let w := go (constructor DEFAULTS fresh_host)
             (pre ++ [ (0%Q, CallNoteOn 60 100 None);
                       (t2, CallNoteOn 64 90 None);
                       (t3, CallNoteOn 67 95 None) ]) in
  let w' := go w [ (tf, FireTimer 2) ] in
  (firstTime (bufferR (this w)) = Some 0%Q /\
   map midi (notes (bufferR (this w))) = [60; 64; 67] /\
   In {| t_id := 2; t_due := (0 + 50)%Q; t_task := ProcessBufferTask R;
         t_every := None |} (timers (host w))) /\
  chords_emitted (log (host w')) = [] /\
  notes (bufferR (this w')) = [] /\
  firstTime (bufferR (this w')) = None /\
  (forall x, In x (timers (host w')) -> t_task x <> ProcessBufferTask R).
Proof.
  intros Hpre H02 H23 H3 Hdue go w w'.
  assert (Hhear : hearing 0 [(60, 100); (64, 90); (67, 95)] w).
  { subst w go. unfold run. rewrite foldl_app. cbn [foldl].
    apply (next_note_joins Chord_detect chord_cb_throws split_cb_throws
             _ 0 t3 [(60, 100); (64, 90)]); [|simpl; lia|lia|lra].
    apply (next_note_joins Chord_detect chord_cb_throws split_cb_throws
             _ 0 t2 [(60, 100)]); [|simpl; lia|lia|lra].
    apply first_note_opens; [|lia].
    apply (untouched_subscriptions Chord_detect chord_cb_throws
             split_cb_throws pre); [exact Hpre|apply untouched_init]. }
  assert (Hz : (0 == 0)%Q) by reflexivity.
  assert (Hd : (0 + 50 <= tf)%Q) by lra.
  destruct (window_started_at_zero_is_lost Chord_detect chord_cb_throws
              split_cb_throws w 0 tf _ Hhear Hz Hd)
    as (Hlog & Hn & Hf & Htim).
  destruct Hhear as (_ & _ & _ & Hfirst & Hns & _ & (x1 & Hts & _ & _) & Hnone).
  split; [split; [exact Hfirst|split]|].
  - apply (f_equal (map fst)) in Hns. rewrite map_map in Hns. exact Hns.
  - rewrite Hts. right. left. reflexivity.
  - split; [|split; [exact Hn|split; [exact Hf|]]].
    + subst w' go. cbn [run foldl]. rewrite Hlog. exact Hnone.
    + intros x Hx Htask. rewrite (Htim x Hx) in Htask. discriminate.
Qed.

(** C4. The round trip of the spec at an input on which the code does not
    deliver it: a manager with the default configuration on a fresh page
    and one chord subscriber; [handleNoteOn(60,100)], [handleNoteOn(64,90)],
    [handleNoteOn(67,95)] are called at the clock readings 0, 3 and 7, all
    within 10 ms; the right-hand close timer fires at 50.  Whatever the
    chord dictionary and the subscribers do, the three notes are in the
    right-hand buffer with the close scheduled, and when the window closes
    no ChordEvent is emitted at all, where the spec has exactly one, with
    role Chord, pitch classes [0,4,7] and hand Right: no subscriber is
    called, the notes are thrown away and no close is left pending.
    [processBuffer] tests [!buf.firstTime] (line 214), which the window
    start 0 passes as [null] does, while [pushToBuffer] tests
    [buf.firstTime === null] (line 189). *)
Theorem C4_round_trip_lost_at_clock_zero Chord_detect chord_cb_throws
    split_cb_throws :
  let go := run Chord_detect chord_cb_throws split_cb_throws in
  let w := go (constructor DEFAULTS fresh_host)
             [ (0%Q, CallOnChord 7%nat);
               (0%Q, CallNoteOn 60 100 None);
               (3%Q, CallNoteOn 64 90 None);
               (7%Q, CallNoteOn 67 95 None) ] in
  let w' := go w [ (50%Q, FireTimer 2) ] in
  (splitInitialMidi DEFAULTS = 60 /\
   (chordWindowMsRight DEFAULTS == 50)%Q /\
   earlyCloseCountRight DEFAULTS = 4) /\
  (chordCallbacks (this w) = [7%nat] /\
   firstTime (bufferR (this w)) = Some 0%Q /\
   map midi (notes (bufferR (this w))) = [60; 64; 67] /\
   In {| t_id := 2; t_due := (0 + 50)%Q; t_task := ProcessBufferTask R;
         t_every := None |} (timers (host w))) /\
  chords_emitted (log (host w')) = [] /\
  log (host w') = [] /\
  notes (bufferR (this w')) = [] /\
  (forall x, In x (timers (host w')) -> t_task x <> ProcessBufferTask R).
Proof.
  intros go w w'.
  assert (Hpre : Forall (fun te : Q * Event => subscribes te.2)
                   [ (0%Q, CallOnChord 7%nat) ]).
  { constructor; [exact I|constructor]. }
  assert (H02 : (0 <= 3)%Q) by discriminate.
  assert (H23 : (3 <= 7)%Q) by discriminate.
  assert (H3 : (7 <= 10)%Q) by discriminate.
  assert (Hdue : (50 <= 50)%Q) by discriminate.
  destruct (round_trip_lost_at_clock_zero Chord_detect chord_cb_throws
              split_cb_throws [ (0%Q, CallOnChord 7%nat) ] 3 7 50
              Hpre H02 H23 H3 Hdue)
    as ((Hfirst & Hns & Harmed) & Hnone & Hnotes & _ & Htim).
  split; [repeat split|].
  split; [split; [reflexivity|split; [exact Hfirst|split;
                                       [exact Hns|exact Harmed]]]|].
  split; [exact Hnone|]. split; [reflexivity|].
  split; [exact Hnotes|exact Htim].
Qed.

(** A second note that comes after the window length while the close timer
    has not had its turn yet: the close is put off to the end of the roll
    extension, [max 10 (180 - 60)] ms from now. *)
Example late_note_extends_window :
  let w := run detect_sample quiet_chord quiet_split w_init
             [ (5%Q, CallNoteOn 60 100 None); (65%Q, CallNoteOn 64 90 None) ] in
  map (fun x => (t_id x, t_task x)) (timers (host w))
  = [ (1%nat, RecomputeSplitTask); (3%nat, ProcessBufferTask R) ] /\
  Forall (fun x => t_id x = 3%nat -> (t_due x == 185)%Q) (timers (host w)) /\
  timer (bufferR (this w)) = Some 3%nat /\
  log (host w) = [].
Proof.
  vm_compute. repeat split; try reflexivity.
  repeat constructor; intros H; try discriminate H; reflexivity.
Qed.

(** Notes under the split go to the left hand, whose window closes early at
    three notes; a single pitch class in the left hand after a long window is
    a bass line. *)
Example left_hand_roles :
  let w := run detect_sample quiet_chord quiet_split w_init
             [ (5%Q, CallNoteOn 36 100 None);
               (130%Q, FireTimer 2);
               (200%Q, CallNoteOn 48 90 None);
               (201%Q, CallNoteOn 52 90 None);
               (202%Q, CallNoteOn 55 90 None) ] in
  map (fun e => (e_hand e, e_role e, e_notes e)) (chords_emitted (log (host w)))
  = [ (L, BassLine, [36]); (L, Chord, [48; 52; 55]) ].
Proof. vm_compute. reflexivity. Qed.

(** * Further properties of the manager *)

(** ** Sorted notes and distinct pitch classes of an event *)

Lemma sort_num_elem (l : list Z) (x : Z) : x ∈ sort_num l <-> x ∈ l.
Proof. now rewrite (sort_num_perm l). Qed.

Lemma from_Set_elem (seen l : list Z) (x : Z) :
  x ∈ from_Set seen l <-> x ∈ l /\ x ∉ seen.
Proof.
  revert seen. induction l as [|y r IH]; intros seen; simpl.
  - split; [intros H; inversion H|intros [H _]; inversion H].
  - unfold includes. destruct (bool_decide_reflect (y ∈ seen)) as [Hin|Hnot].
    + rewrite IH, elem_of_cons. split.
      * intros [Hx Hs]. auto.
      * intros [[->|Hx] Hs]; [contradiction|auto].
    + rewrite !elem_of_cons, IH, elem_of_cons. split.
      * intros [->|[Hx Hs]]; [auto|]. split; [auto|]. intros Hc. apply Hs. now right.
      * intros [[->|Hx] Hs]; [now left|].
        destruct (decide (x = y)) as [->|Hne]; [now left|right].
        split; [exact Hx|]. intros [Hc|Hc]; contradiction.
Qed.

Lemma from_Set_NoDup (seen l : list Z) : NoDup (from_Set seen l).
Proof.
  revert seen. induction l as [|y r IH]; intros seen; simpl; [constructor|].
  unfold includes. destruct (bool_decide_reflect (y ∈ seen)); [apply IH|].
  constructor; [|apply IH].
  rewrite from_Set_elem. intros [_ Hc]. apply Hc. now left.
Qed.

Lemma from_Set_length (seen l : list Z) :
  (length (from_Set seen l) <= length l)%nat.
Proof.
  revert seen. induction l as [|y r IH]; intros seen; simpl; [lia|].
  destruct (includes seen y); simpl.
  - specialize (IH seen). lia.
  - specialize (IH (y :: seen)). lia.
Qed.

Lemma ascending_head_least (x : Z) (l : list Z) :
  ascending (x :: l) -> forall y, y ∈ x :: l -> x <= y.
Proof.
  revert x. induction l as [|z r IH]; intros x Hasc y Hy.
  - apply list_elem_of_singleton in Hy. subst. lia.
  - inversion Hasc as [| |? ? ? Hxz Hrest]; subst.
    apply elem_of_cons in Hy as [->|Hy]; [lia|].
    specialize (IH z Hrest y Hy). lia.
Qed.

Lemma indexOf_from_found (i : Z) (l : list Z) (x : Z) :
  x ∈ l ->
  i <= indexOf_from i l x /\
  l !! Z.to_nat (indexOf_from i l x - i) = Some x.
Proof.
  revert i. induction l as [|y r IH]; intros i Hin; [inversion Hin|]. simpl.
  destruct (Z.eqb_spec y x) as [->|Hne].
  - split; [lia|]. now rewrite Z.sub_diag.
  - apply elem_of_cons in Hin as [->|Hin]; [congruence|].
    destruct (IH (i + 1) Hin) as [Hle Hlook]. split; [lia|].
    replace (Z.to_nat (indexOf_from (i + 1) r x - i))
      with (S (Z.to_nat (indexOf_from (i + 1) r x - (i + 1)))) by lia.
    exact Hlook.
Qed.

(** [indexOf] of a member is a valid index of it, so it is not [-1]. *)
Lemma indexOf_found (l : list Z) (x : Z) :
  x ∈ l -> 0 <= indexOf l x /\ l !! Z.to_nat (indexOf l x) = Some x.
Proof.
  intros Hin. destruct (indexOf_from_found 0 l x Hin) as [Hle Hlook].
  unfold indexOf. split; [exact Hle|]. now rewrite Z.sub_0_r in Hlook.
Qed.

Lemma distinctPitchClasses_elem (noteSet : list Z) (pc : Z) :
  pc ∈ distinctPitchClasses_of noteSet <->
  exists n, n ∈ noteSet /\ pc = Z.rem n 12.
Proof.
  unfold distinctPitchClasses_of.
  rewrite sort_num_elem, from_Set_elem, list_elem_of_fmap. split.
  - intros [(n & -> & Hn) _]. eauto.
  - intros (n & Hn & ->). split; [eauto|]. intros Hc. inversion Hc.
Qed.

(** X1. In the event of a closing buffer the notes are in ascending order
    and hold every pitch that arrived in the window; the pitch classes are in
    ascending order without repetition, they are exactly the remainders mod
    12 of the notes, there are no more of them than notes, and for MIDI
    pitches (not negative) each lies in 0..11. *)
Theorem X1_event_notes_and_pitch_classes Chord_detect (hand : Hand)
    (first : Q) (w : World) (evt : ChordEvent) :
  build_event Chord_detect hand first w = Ok evt ->
  ascending (e_notes evt) /\
  (forall n, n ∈ notes (buffer hand (this w)) -> midi n ∈ e_notes evt) /\
  ascending (e_pitchClasses evt) /\
  NoDup (e_pitchClasses evt) /\
  (forall pc, pc ∈ e_pitchClasses evt <->
              exists n, n ∈ e_notes evt /\ pc = Z.rem n 12) /\
  (length (e_pitchClasses evt) <= length (e_notes evt))%nat /\
  ((forall n, n ∈ e_notes evt -> 0 <= n) ->
   forall pc, pc ∈ e_pitchClasses evt -> 0 <= pc < 12).
Proof.
  intros H.
  destruct (build_event_fields _ _ _ _ _ H) as (_ & Hn & _ & Hp & _).
  rewrite Hn, Hp.
  split; [apply sort_num_ascending|]. split.
  { intros n Hin. unfold noteSet_of. rewrite sort_num_elem, gather_split.
    apply elem_of_app. left. apply list_elem_of_fmap. eauto. }
  split; [apply sort_num_ascending|]. split.
  { unfold distinctPitchClasses_of. rewrite (sort_num_perm _).
    apply from_Set_NoDup. }
  split; [intros pc; apply distinctPitchClasses_elem|]. split.
  { unfold distinctPitchClasses_of.
    rewrite sort_num_length.
    etransitivity; [apply from_Set_length|]. now rewrite length_map. }
  intros Hpos pc Hpc. apply distinctPitchClasses_elem in Hpc as (n & Hn' & ->).
  apply Z.rem_bound_pos; [auto|lia].
Qed.

Lemma X1_witness :
  build_event detect_sample R 100 w_pedal = Ok pedal_event /\
  NoDup (e_pitchClasses pedal_event) /\
  (forall pc, pc ∈ e_pitchClasses pedal_event -> 0 <= pc < 12).
Proof.
  assert (H : build_event detect_sample R 100 w_pedal = Ok pedal_event)
    by (vm_compute; reflexivity).
  destruct (X1_event_notes_and_pitch_classes detect_sample R 100 w_pedal
              pedal_event H) as (_ & _ & _ & Hnd & _ & _ & Hrange).
  split; [exact H|]. split; [exact Hnd|].
  apply Hrange. intros n Hn. simpl in Hn.
  repeat (apply elem_of_cons in Hn as [->|Hn]; [lia|]). inversion Hn.
Defined.

(** ** Name, inversion and root of an event *)

(** X2. In the event of a closing buffer: a BassLine or Arpeggio has no
    name; without a truthy name (null or the empty string) there is neither
    inversion nor root; with a truthy name (and a note) the root is the
    lowest note of the event and the inversion is defined: it is the index,
    in the pitch classes of the event, of the pitch class of the root. *)
Theorem X2_event_name_inversion_root Chord_detect (hand : Hand) (first : Q)
    (w : World) (evt : ChordEvent) :
  build_event Chord_detect hand first w = Ok evt ->
  (names_role (e_role evt) = false -> e_name evt = None) /\
  (truthy_name (e_name evt) = false ->
     e_inversion evt = None /\ e_root evt = None) /\
  (truthy_name (e_name evt) = true -> e_notes evt <> [] ->
     exists n0 i,
       head (e_notes evt) = Some n0 /\
       e_root evt = Some n0 /\
       (forall n, n ∈ e_notes evt -> n0 <= n) /\
       e_inversion evt = Some i /\
       0 <= i /\
       e_pitchClasses evt !! Z.to_nat i = Some (Z.rem n0 12)).
Proof.
  unfold build_event.
  pose proof (sort_num_ascending (gather (this w) hand)) as Hasc.
  fold (noteSet_of (this w) hand) in Hasc.
  set (ns := noteSet_of (this w) hand) in *.
  set (pcs := distinctPitchClasses_of ns).
  set (role := classifyRole (cfg (this w)) hand ns pcs (now (host w) - first)).
  intros H.
  destruct (names_role role) eqn:Hrole.
  - destruct (detectChord Chord_detect pcs) as [name|e]; [|discriminate].
    destruct ns as [|n0 r] eqn:Hns.
    + inversion H; subst evt; simpl. rewrite Hrole.
      split; [discriminate|]. split; [auto|]. intros _ Hne. congruence.
    + destruct (truthy_name name) eqn:Htruthy; inversion H; subst evt; simpl;
        rewrite Hrole, Htruthy.
      * split; [discriminate|]. split; [discriminate|]. intros _ _.
        assert (Hin : Z.rem n0 12 ∈ pcs).
        { subst pcs. apply distinctPitchClasses_elem. exists n0.
          split; [apply elem_of_cons; now left|reflexivity]. }
        destruct (indexOf_found pcs (Z.rem n0 12) Hin) as [Hpos Hlook].
        exists n0, (indexOf pcs (Z.rem n0 12)).
        split; [reflexivity|]. split; [reflexivity|]. split.
        { intros n Hn. now apply (ascending_head_least n0 r). }
        split.
        { destruct (Z.eqb_spec (indexOf pcs (Z.rem n0 12)) (-1)); [lia|].
          reflexivity. }
        split; [exact Hpos|exact Hlook].
      * split; [discriminate|]. split; [auto|]. discriminate.
  - inversion H; subst evt; simpl. rewrite Hrole.
    split; [reflexivity|]. split; [auto|]. discriminate.
Qed.

Lemma X2_witness :
  build_event detect_sample R 100 w_pedal = Ok pedal_event /\
  e_root pedal_event = head (e_notes pedal_event) /\
  exists i, e_inversion pedal_event = Some i /\ 0 <= i.
Proof.
  assert (H : build_event detect_sample R 100 w_pedal = Ok pedal_event)
    by (vm_compute; reflexivity).
  destruct (X2_event_name_inversion_root detect_sample R 100 w_pedal
              pedal_event H) as (_ & _ & Hnamed).
  destruct Hnamed as (n0 & i & Hhead & Hroot & _ & Hinv & Hpos & _);
    [reflexivity|discriminate|].
  split; [exact H|]. split; [congruence|]. exists i. auto.
Defined.

(** ** The name that detectChord picks *)

Lemma sort_by_length_nil (l : list string) : sort_by_length l = [] -> l = [].
Proof.
  destruct l as [|x r]; [reflexivity|]. simpl.
  destruct (sort_by_length r) as [|y t]; simpl; [discriminate|].
  destruct (String.length x <=? String.length y)%nat; discriminate.
Qed.

(** The head of the stable sort by length is the first of the shortest. *)
Lemma sort_by_length_head (l : list string) (s : string) :
  head (sort_by_length l) = Some s ->
  exists pre post,
    l = pre ++ s :: post /\
    (forall s', s' ∈ pre -> (String.length s < String.length s')%nat) /\
    (forall s', s' ∈ post -> (String.length s <= String.length s')%nat).
Proof.
  revert s. induction l as [|x r IH]; intros s; simpl; [discriminate|].
  destruct (sort_by_length r) as [|y t] eqn:E; simpl.
  - intros [= <-]. apply sort_by_length_nil in E. subst r.
    exists [], []. repeat split; intros s' Hs'; inversion Hs'.
  - destruct (IH y eq_refl) as (pre & post & -> & Hpre & Hpost).
    destruct (Nat.leb_spec (String.length x) (String.length y)); simpl;
      intros [= <-].
    + exists [], (pre ++ y :: post). split; [reflexivity|]. split.
      * intros s' Hs'. inversion Hs'.
      * intros s' Hs'. apply elem_of_app in Hs' as [Hs'|Hs'].
        -- specialize (Hpre s' Hs'). lia.
        -- apply elem_of_cons in Hs' as [->|Hs']; [lia|].
           specialize (Hpost s' Hs'). lia.
    + exists (x :: pre), post. split; [reflexivity|]. split; [|exact Hpost].
      intros s' Hs'. apply elem_of_cons in Hs' as [->|Hs']; [lia|auto].
Qed.

(** X3. [detectChord] gives back what [Chord.detect] did: the exception when
    it throws, null when the result is null-like or empty, and otherwise one
    of the detected names, namely the first of the shortest ones: every name
    before it in the detected list is strictly longer and none after it is
    shorter. *)
Theorem X3_detectChord_first_shortest Chord_detect (pcs : list Z) :
  match Chord_detect (map pcToNote_at pcs) with
  | DetectThrows => detectChord Chord_detect pcs = Err DetectError
  | DetectNullish => detectChord Chord_detect pcs = Ok None
  | DetectNames [] => detectChord Chord_detect pcs = Ok None
  | DetectNames detected =>
      exists s pre post,
        detectChord Chord_detect pcs = Ok (Some s) /\
        detected = pre ++ s :: post /\
        (forall s', s' ∈ pre -> (String.length s < String.length s')%nat) /\
        (forall s', s' ∈ post -> (String.length s <= String.length s')%nat)
  end.
Proof.
  unfold detectChord.
  destruct (Chord_detect (map pcToNote_at pcs)) as [| |detected];
    try reflexivity.
  destruct detected as [|x r]; [reflexivity|].
  change (length (x :: r) =? 0)%nat with false. cbv iota.
  destruct (head (sort_by_length (x :: r))) as [s|] eqn:E.
  - destruct (sort_by_length_head _ _ E) as (pre & post & Heq & Hpre & Hpost).
    exists s, pre, post. auto.
  - exfalso. destruct (sort_by_length (x :: r)) eqn:E'; [|discriminate].
    apply sort_by_length_nil in E'. discriminate.
Qed.

Example detectChord_tie :
  detectChord (fun _ => DetectNames ["Cmaj7"; "Em#5"; "CM"; "Am"; "C6"]%string)
    [0; 4; 7]
  = Ok (Some "CM"%string).
Proof. reflexivity. Qed.

(** ** Velocities stay in range *)

Lemma inject_Z_between (a x b : Z) :
  a <= x <= b -> (inject_Z a <= inject_Z x)%Q /\ (inject_Z x <= inject_Z b)%Q.
Proof. intros [H1 H2]. rewrite <- !Zle_Qle. auto. Qed.

Lemma Math_round_le (x y : Q) : (x <= y)%Q -> Math_round x <= Math_round y.
Proof.
  intros H. unfold Math_round. apply Qfloor_resp_le. lra.
Qed.

Lemma nth_sort_num_elem (l : list Z) (i : nat) :
  (i < length l)%nat -> nth i (sort_num l) 0 ∈ l.
Proof.
  intros Hi. rewrite nth_lookup.
  destruct (lookup_lt_is_Some_2 (sort_num l) i) as [x Hx].
  { now rewrite sort_num_length. }
  rewrite Hx. simpl. apply sort_num_elem. apply list_elem_of_lookup. eauto.
Qed.

(** The median of a non-empty list lies within any bounds of the list. *)
Lemma median_between (values : list Z) (a b : Z) :
  values <> [] ->
  (forall v, v ∈ values -> a <= v <= b) ->
  a <= median values <= b.
Proof.
  intros Hne Hall. unfold median.
  destruct values as [|v0 r] eqn:E; [congruence|].
  change (length (v0 :: r) =? 0)%nat with false. cbv iota.
  rewrite <- E in *. clear E.
  assert (Hlen : (0 < length values)%nat).
  { destruct values; [congruence|simpl; lia]. }
  rewrite sort_num_length.
  assert (Hmid : (length values / 2 < length values)%nat)
    by (apply Nat.div_lt; lia).
  pose proof (Hall _ (nth_sort_num_elem values (length values / 2) Hmid))
    as Hupper.
  destruct (length values mod 2 =? 0)%nat; [|exact Hupper].
  assert (Hlow : (length values / 2 - 1 < length values)%nat) by lia.
  pose proof (Hall _ (nth_sort_num_elem values _ Hlow)) as Hlower.
  set (x := nth (length values / 2 - 1) (sort_num values) 0) in *.
  set (y := nth (length values / 2) (sort_num values) 0) in *.
  pose proof (inject_Z_between a x b ltac:(lia)) as Hx.
  pose proof (inject_Z_between a y b ltac:(lia)) as Hy.
  split.
  - rewrite <- (Math_round_integer a). apply Math_round_le.
    apply Qle_shift_div_l; lra.
  - rewrite <- (Math_round_integer b). apply Math_round_le.
    apply Qle_shift_div_r; lra.
Qed.

(** With a blend factor between 0 and 1 the blended velocity lies within
    any bounds of the raw velocity and the median. *)
Lemma blendVelocity_between (original med a b : Z) (blend : Q) :
  (0 <= blend)%Q -> (blend <= 1)%Q ->
  a <= original <= b -> a <= med <= b ->
  a <= blendVelocity original med blend <= b.
Proof.
  intros Hb0 Hb1 Ho Hm. unfold blendVelocity.
  pose proof (inject_Z_between a original b Ho) as Hoq.
  pose proof (inject_Z_between a med b Hm) as Hmq.
  set (o := inject_Z original) in *. set (m := inject_Z med) in *.
  set (qa := inject_Z a) in *. set (qb := inject_Z b) in *.
  split.
  - rewrite <- (Math_round_integer a). apply Math_round_le. fold qa. nra.
  - rewrite <- (Math_round_integer b). apply Math_round_le. fold qb. nra.
Qed.

(** X4. When the blend factor of the hand lies between 0 and 1 (as the
    defaults 0.5 and 0.2 do), every normalized velocity of the event of a
    closing buffer lies within any bounds of the raw velocities of the
    window: raw velocities in 0..127 give normalized velocities in 0..127. *)
Theorem X4_normalized_velocities_in_range Chord_detect (hand : Hand)
    (first : Q) (w : World) (evt : ChordEvent) (a b : Z) :
  build_event Chord_detect hand first w = Ok evt ->
  (0 <= velocityBlend_of (cfg (this w)) hand)%Q ->
  (velocityBlend_of (cfg (this w)) hand <= 1)%Q ->
  (forall n, n ∈ notes (buffer hand (this w)) -> a <= velocity n <= b) ->
  forall v, v ∈ e_velocities evt -> a <= v <= b.
Proof.
  intros H Hb0 Hb1 Hraw v Hv.
  destruct (build_event_fields _ _ _ _ _ H) as (_ & _ & Hvel & _).
  rewrite Hvel in Hv. unfold velocitiesNormalized_of in Hv.
  apply list_elem_of_fmap in Hv as (n & -> & Hn).
  apply blendVelocity_between; [exact Hb0|exact Hb1|auto|].
  apply median_between.
  - destruct (notes (buffer hand (this w))); [inversion Hn|discriminate].
  - intros v Hv. apply list_elem_of_fmap in Hv as (n' & -> & Hn'). auto.
Qed.

Lemma X4_witness :
  build_event detect_sample R 5 w_triad = Ok triad_event /\
  (forall v, v ∈ e_velocities triad_event -> 0 <= v <= 127).
Proof.
  assert (H : build_event detect_sample R 5 w_triad = Ok triad_event)
    by (vm_compute; reflexivity).
  split; [exact H|].
  apply (X4_normalized_velocities_in_range detect_sample R 5 w_triad
           triad_event 0 127 H).
  - vm_compute. discriminate.
  - vm_compute. discriminate.
  - intros n Hn. vm_compute in Hn.
    repeat (apply elem_of_cons in Hn as [->|Hn]; [simpl; lia|]).
    inversion Hn.
Defined.

(** ** The quartile midpoint of the pitch history *)

Lemma ascending_tail (x : Z) (l : list Z) : ascending (x :: l) -> ascending l.
Proof. inversion 1; subst; [constructor|assumption]. Qed.

Lemma ascending_lookup_le (l : list Z) (i j : nat) (x y : Z) :
  ascending l -> l !! i = Some x -> l !! j = Some y -> (i <= j)%nat -> x <= y.
Proof.
  revert i j. induction l as [|z r IH]; intros i j Hasc Hi Hj Hij;
    [discriminate|].
  destruct i as [|i].
  - injection Hi as ->. apply (ascending_head_least x r Hasc).
    apply list_elem_of_lookup. eauto.
  - destruct j as [|j]; [lia|]. simpl in Hi, Hj.
    apply (IH i j); [now apply ascending_tail in Hasc|assumption..|lia].
Qed.

(** X5. For a non-empty pitch history, the two quartile indices
    [floor (n * 0.25)] and [floor (n * 0.75)] of [recomputeSplit] are inside
    the sorted history, the pitch at the first is not above the pitch at the
    second, and the rounded midpoint lies between the two: the candidate
    split is never outside the range of the pitches that were played. *)
Theorem X5_center_between_quartiles (history : list Z) :
  history <> [] ->
  exists lo hi,
    sort_num history !! (length history / 4)%nat = Some lo /\
    sort_num history !! (length history * 3 / 4)%nat = Some hi /\
    lo ∈ history /\ hi ∈ history /\
    lo <= hi /\
    lo <= center_of history <= hi.
Proof.
  intros Hne.
  assert (Hlen : (0 < length history)%nat).
  { destruct history; [congruence|simpl; lia]. }
  assert (Hi : (length history / 4 < length (sort_num history))%nat).
  { rewrite sort_num_length. apply Nat.div_lt; lia. }
  assert (Hj : (length history * 3 / 4 < length (sort_num history))%nat).
  { rewrite sort_num_length. apply Nat.Div0.div_lt_upper_bound. lia. }
  destruct (lookup_lt_is_Some_2 _ _ Hi) as [lo Hlo].
  destruct (lookup_lt_is_Some_2 _ _ Hj) as [hi Hhi].
  assert (Hle : lo <= hi).
  { apply (ascending_lookup_le (sort_num history) _ _ lo hi
             (sort_num_ascending history) Hlo Hhi).
    apply Nat.Div0.div_le_mono. lia. }
  exists lo, hi. split; [exact Hlo|]. split; [exact Hhi|].
  split; [apply sort_num_elem, list_elem_of_lookup; eauto|].
  split; [apply sort_num_elem, list_elem_of_lookup; eauto|].
  split; [exact Hle|].
  unfold center_of. rewrite sort_num_length, !nth_lookup, Hlo, Hhi. simpl.
  pose proof (inject_Z_between (lo + lo) (lo + hi) (hi + hi) ltac:(lia))
    as [H1 H2].
  rewrite !inject_Z_plus in H1, H2. rewrite inject_Z_plus.
  split.
  - rewrite <- (Math_round_integer lo) at 1. apply Math_round_le.
    apply Qle_shift_div_l; lra.
  - rewrite <- (Math_round_integer hi) at 2. apply Math_round_le.
    apply Qle_shift_div_r; lra.
Qed.

Lemma X5_witness :
  [60; 90; 60; 90; 61; 47; 60; 72] <> [] /\
  47 <= center_of [60; 90; 60; 90; 61; 47; 60; 72] <= 90.
Proof.
  assert (Hne : [60; 90; 60; 90; 61; 47; 60; 72] <> []) by discriminate.
  split; [exact Hne|].
  destruct (X5_center_between_quartiles _ Hne)
    as (lo & hi & _ & _ & Hlo & Hhi & _ & Hc).
  assert (Hall : forall p, p ∈ [60; 90; 60; 90; 61; 47; 60; 72] ->
                           47 <= p <= 90).
  { intros p Hp.
    repeat (apply elem_of_cons in Hp as [->|Hp]; [lia|]). inversion Hp. }
  pose proof (Hall lo Hlo). pose proof (Hall hi Hhi). lia.
Defined.

(** ** What the buffer operations leave alone *)

Lemma core_set_buffer (hand : Hand) (b : BufferState) (m : MidiInputManager) :
  core (set_buffer hand b m) = core m.
Proof. reflexivity. Qed.

Section Frames.

Variable Chord_detect : list (option string) -> DetectResult.
Variable chord_cb_throws : nat -> ChordEvent -> bool.
Variable split_cb_throws : nat -> SplitChangeEvent -> bool.

Local Abbreviation processBuffer' := (processBuffer Chord_detect chord_cb_throws).
Local Abbreviation pushToBuffer' := (pushToBuffer Chord_detect chord_cb_throws).

Lemma resetBuffer_this (hand : Hand) (w : World) :
  core (this (resetBuffer hand w)) = core (this w) /\
  forall other, other <> hand ->
    buffer other (this (resetBuffer hand w)) = buffer other (this w).
Proof.
  split; [reflexivity|]. intros other Hne.
  unfold resetBuffer, clearTimer. simpl.
  now rewrite !buffer_set_buffer_other.
Qed.

(** Closing a buffer touches nothing but that buffer, which it leaves as it
    was (when an exception stops it) or reset. *)
Lemma processBuffer_this (hand : Hand) (w : World) :
  let m' := this (processBuffer' hand w).1 in
  core m' = core (this w) /\
  (forall other, other <> hand -> buffer other m' = buffer other (this w)) /\
  (buffer hand m' = buffer hand (this w) \/
   (notes (buffer hand m') = [] /\ firstTime (buffer hand m') = None /\
    timer (buffer hand m') = None)).
Proof.
  assert (Hreset : forall w0, this w0 = this w ->
            let m' := this (resetBuffer hand w0) in
            core m' = core (this w) /\
            (forall other, other <> hand ->
               buffer other m' = buffer other (this w)) /\
            (buffer hand m' = buffer hand (this w) \/
             (notes (buffer hand m') = [] /\
              firstTime (buffer hand m') = None /\
              timer (buffer hand m') = None))).
  { intros w0 H0. destruct (resetBuffer_this hand w0) as [Hc Ho].
    rewrite H0 in Hc, Ho. split; [exact Hc|]. split; [exact Ho|].
    right. apply resetBuffer_buffer. }
  unfold processBuffer.
  destruct (firstTime (buffer hand (this w))) as [first|];
    [|now apply Hreset].
  destruct (falsy_time (Some first)
            || (length (notes (buffer hand (this w))) =? 0)%nat);
    [now apply Hreset|].
  destruct (build_event Chord_detect hand first w) as [evt|e];
    [|simpl; auto].
  pose proof (emitChord_this chord_cb_throws evt w) as He.
  destruct (emitChord chord_cb_throws evt w) as [w' [|e]]; cbn [fst] in *.
  - now apply Hreset.
  - rewrite He. auto.
Qed.

Lemma clearTimer_this (hand : Hand) (w : World) :
  core (this (clearTimer hand w)) = core (this w) /\
  (forall other, other <> hand ->
     buffer other (this (clearTimer hand w)) = buffer other (this w)) /\
  notes (buffer hand (this (clearTimer hand w))) = notes (buffer hand (this w)) /\
  firstTime (buffer hand (this (clearTimer hand w)))
  = firstTime (buffer hand (this w)).
Proof.
  unfold clearTimer. simpl. rewrite buffer_set_buffer_same. simpl.
  repeat split. intros other Hne. now rewrite buffer_set_buffer_other.
Qed.

Lemma arm_this (hand : Hand) (delay : Q) (w : World) :
  core (this (arm hand delay w)) = core (this w) /\
  (forall other, other <> hand ->
     buffer other (this (arm hand delay w)) = buffer other (this w)) /\
  notes (buffer hand (this (arm hand delay w))) = notes (buffer hand (this w)) /\
  firstTime (buffer hand (this (arm hand delay w)))
  = firstTime (buffer hand (this w)).
Proof.
  unfold arm, setTimeout, schedule. simpl. rewrite buffer_set_buffer_same.
  simpl. repeat split. intros other Hne. now rewrite buffer_set_buffer_other.
Qed.

(** Pushing a note touches nothing but the buffer of its hand. *)
Lemma pushToBuffer_this (hand : Hand) (note : BufferedNote) (w : World) :
  let m' := this (pushToBuffer' hand note w).1 in
  core m' = core (this w) /\
  (forall other, other <> hand -> buffer other m' = buffer other (this w)).
Proof.
  unfold pushToBuffer.
  destruct (firstTime (buffer hand (this w))) as [first|].
  - set (w1 := with_this _ w).
    assert (H1 : core (this w1) = core (this w) /\
                 forall other, other <> hand ->
                   buffer other (this w1) = buffer other (this w)).
    { subst w1. simpl. split; [reflexivity|]. intros other Hne.
      now rewrite buffer_set_buffer_other. }
    destruct H1 as [Hc1 Ho1].
    destruct (clearTimer_this hand w1) as (Hcc & Hoc & _).
    destruct (_ && _).
    + destruct (processBuffer_this hand (clearTimer hand w1)) as (Hc & Ho & _).
      cbv zeta. split; [congruence|]. intros other Hne.
      rewrite Ho, Hoc, Ho1; auto.
    + destruct (_ && _); cbn [fst].
      * destruct (arm_this hand
                    (Math_max 10 (rollExtension_of (cfg (this w)) hand
                                  - (time note - first)))
                    (clearTimer hand w1)) as (Hca & Hoa & _).
        split; [congruence|]. intros other Hne. rewrite Hoa, Hoc, Ho1; auto.
      * split; [exact Hc1|exact Ho1].
  - cbn [fst]. set (w1 := with_this _ w).
    destruct (arm_this hand (cfgWindow_of (cfg (this w)) hand) w1)
      as (Hca & Hoa & _).
    split; [rewrite Hca; reflexivity|].
    intros other Hne. rewrite Hoa by exact Hne. subst w1. simpl.
    now rewrite buffer_set_buffer_other.
Qed.

(** Pushing a note keeps the window start tied to the first note. *)
Lemma pushToBuffer_window_ok (hand : Hand) (note : BufferedNote) (w : World) :
  (forall h, window_ok (buffer h (this w))) ->
  forall h, window_ok (buffer h (this (pushToBuffer' hand note w).1)).
Proof.
  intros Hw h.
  destruct (decide (h = hand)) as [->|Hne]; cycle 1.
  { destruct (pushToBuffer_this hand note w) as [_ Ho].
    rewrite Ho by exact Hne. apply Hw. }
  specialize (Hw hand). unfold window_ok in *.
  unfold pushToBuffer.
  destruct (firstTime (buffer hand (this w))) as [first|] eqn:Hfirst.
  - set (w1 := with_this _ w).
    assert (H1 : notes (buffer hand (this w1))
                 = notes (buffer hand (this w)) ++ [note] /\
                 firstTime (buffer hand (this w1)) = Some first).
    { subst w1. simpl. rewrite buffer_set_buffer_same. simpl. auto. }
    destruct H1 as [Hn1 Hf1].
    assert (Hhead : Some first = time <$> head (notes (buffer hand (this w))
                                                ++ [note])).
    { destruct (notes (buffer hand (this w))); [discriminate|exact Hw]. }
    destruct (clearTimer_this hand w1) as (_ & _ & Hnc & Hfc).
    destruct (_ && _).
    + destruct (processBuffer_this hand (clearTimer hand w1))
        as (_ & _ & [Hsame|(Hn & Hf & _)]).
      * rewrite Hsame, Hnc, Hfc, Hn1, Hf1. exact Hhead.
      * rewrite Hn, Hf. reflexivity.
    + destruct (_ && _); cbn [fst].
      * destruct (arm_this hand
                    (Math_max 10 (rollExtension_of (cfg (this w)) hand
                                  - (time note - first)))
                    (clearTimer hand w1)) as (_ & _ & Hna & Hfa).
        rewrite Hna, Hfa, Hnc, Hfc, Hn1, Hf1. exact Hhead.
      * rewrite Hn1, Hf1. exact Hhead.
  - cbn [fst]. set (w1 := with_this _ w).
    destruct (arm_this hand (cfgWindow_of (cfg (this w)) hand) w1)
      as (_ & _ & Hna & Hfa).
    rewrite Hna, Hfa. subst w1. simpl. rewrite buffer_set_buffer_same.
    reflexivity.
Qed.

End Frames.

(** ** Invariants of the manager along any run *)

Section ThisInvariant.

Variable Chord_detect : list (option string) -> DetectResult.
Variable chord_cb_throws : nat -> ChordEvent -> bool.
Variable split_cb_throws : nat -> SplitChangeEvent -> bool.

Local Abbreviation step' := (step Chord_detect chord_cb_throws split_cb_throws).
Local Abbreviation run' := (run Chord_detect chord_cb_throws split_cb_throws).

Lemma settle_this (r : World * Completion) : this (settle r) = this r.1.
Proof. destruct r as [w [|e]]; reflexivity. Qed.

Variable P : MidiInputManager -> Prop.

Hypothesis P_processBuffer : forall w hand,
  P (this w) -> P (this (processBuffer Chord_detect chord_cb_throws hand w).1).
Hypothesis P_recomputeSplit : forall w,
  P (this w) -> P (this (recomputeSplit split_cb_throws w).1).
Hypothesis P_handleNoteOn : forall w midi velocity time,
  P (this w) ->
  P (this (handleNoteOn Chord_detect chord_cb_throws midi velocity time w).1).
Hypothesis P_handleNoteOff : forall w midi,
  P (this w) -> P (this (handleNoteOff midi w)).
Hypothesis P_handleControlChange : forall w controller value,
  P (this w) -> P (this (handleControlChange controller value w)).
Hypothesis P_dispose : forall w, P (this w) -> P (this (dispose w)).
Hypothesis P_onChord : forall w cb, P (this w) -> P (this (onChord cb w)).
Hypothesis P_offChord : forall w cb, P (this w) -> P (this (offChord cb w)).
Hypothesis P_onSplitChange : forall w cb,
  P (this w) -> P (this (onSplitChange cb w)).
Hypothesis P_offSplitChange : forall w cb,
  P (this w) -> P (this (offSplitChange cb w)).

(** A property of the manager object that every method keeps is kept by
    every turn of the event loop. *)
Lemma step_this_invariant (w : World) (te : Q * Event) :
  P (this w) -> P (this (step' w te)).
Proof.
  intros Hp. destruct te as [t ev]. unfold step.
  set (w0 := with_host (at_time t (host w)) w).
  assert (H0 : P (this w0)) by exact Hp.
  destruct ev.
  - rewrite settle_this. now apply P_handleNoteOn.
  - now apply P_handleNoteOff.
  - now apply P_handleControlChange.
  - now apply P_dispose.
  - now apply P_onChord.
  - now apply P_offChord.
  - now apply P_onSplitChange.
  - now apply P_offSplitChange.
  - unfold fire.
    destruct (List.find _ _) as [x|]; [|exact H0].
    rewrite settle_this.
    destruct (t_task x); simpl;
      [apply P_processBuffer|apply P_recomputeSplit]; exact H0.
Qed.

Lemma run_this_invariant (evs : list (Q * Event)) (w : World) :
  P (this w) -> P (this (run' w evs)).
Proof.
  revert w. induction evs as [|te evs IH]; intros w Hp; simpl; [exact Hp|].
  apply IH. now apply step_this_invariant.
Qed.

End ThisInvariant.

(** ** What a note-on changes *)

Lemma core_eq_fields (m m' : MidiInputManager) :
  core m' = core m ->
  cfg m' = cfg m /\ splitPoint m' = splitPoint m /\
  chordCallbacks m' = chordCallbacks m /\
  splitCallbacks m' = splitCallbacks m /\
  activeNotes m' = activeNotes m /\ pedalDown m' = pedalDown m /\
  recentNoteOns m' = recentNoteOns m /\ adaptTimer m' = adaptTimer m /\
  disposed m' = disposed m.
Proof. unfold core. intros [= -> -> -> -> -> -> -> -> ->]. auto 10. Qed.

(** A note-on on a live manager: the entry, the history, and what stays. *)
Lemma handleNoteOn_this Chord_detect chord_cb_throws
    (midi velocity : Z) (time : Q) (w : World) :
  disposed (this w) = false ->
  let hand := if midi <? splitPoint (this w) then L else R in
  let m' := this (handleNoteOn Chord_detect chord_cb_throws midi velocity
                    time w).1 in
  activeNotes m'
  = <[midi := {| a_midi := midi; a_velocity := velocity; a_time := time;
                 sustained := false; a_hand := hand |}]>
      (activeNotes (this w)) /\
  recentNoteOns m' = recentNoteOns (this w) ++ [midi] /\
  (forall other, other <> hand -> buffer other m' = buffer other (this w)) /\
  splitPoint m' = splitPoint (this w) /\
  pedalDown m' = pedalDown (this w) /\
  cfg m' = cfg (this w).
Proof.
  intros Hd hand m'. subst m'. unfold handleNoteOn. rewrite Hd. fold hand.
  match goal with
  | |- context [pushToBuffer _ _ hand ?note ?w2] =>
      destruct (pushToBuffer_this Chord_detect chord_cb_throws hand note w2)
        as [Hc Ho]
  end.
  apply core_eq_fields in Hc
    as (Hcfg & Hsplit & _ & _ & Hact & Hped & Hrec & _ & _).
  split; [exact Hact|]. split; [exact Hrec|]. split; [exact Ho|].
  split; [exact Hsplit|]. split; [exact Hped|exact Hcfg].
Qed.

(** X6. On a manager that is not disposed, [handleNoteOn(midi, velocity,
    time)] takes the left hand exactly when [midi] is under the split point
    of that moment.  Whether the call returns or an exception leaves it, the
    active entry of [midi] is replaced by a fresh one (not sustained, with
    that hand), the other active entries are kept, [midi] is appended to the
    pitch history, and the buffer of the other hand, the split point, the
    pedal and the configuration are untouched. *)
Theorem X6_handleNoteOn_effect Chord_detect chord_cb_throws
    (midi velocity : Z) (time : Q) (w : World) :
  disposed (this w) = false ->
  let hand := if midi <? splitPoint (this w) then L else R in
  let m' := this (handleNoteOn Chord_detect chord_cb_throws midi velocity
                    time w).1 in
  (hand = L <-> midi < splitPoint (this w)) /\
  activeNotes m'
  = <[midi := {| a_midi := midi; a_velocity := velocity; a_time := time;
                 sustained := false; a_hand := hand |}]>
      (activeNotes (this w)) /\
  recentNoteOns m' = recentNoteOns (this w) ++ [midi] /\
  (forall other, other <> hand -> buffer other m' = buffer other (this w)) /\
  splitPoint m' = splitPoint (this w) /\
  pedalDown m' = pedalDown (this w) /\
  cfg m' = cfg (this w).
Proof.
  intros Hd hand m'. split.
  { subst hand. destruct (Z.ltb_spec midi (splitPoint (this w))); split;
      intros; (congruence || lia || reflexivity). }
  exact (handleNoteOn_this Chord_detect chord_cb_throws midi velocity time w
           Hd).
Qed.

Lemma X6_witness :
  disposed (this w_triad) = false /\
  (sustained <$>
     activeNotes (this (handleNoteOn detect_sample quiet_chord 48 70 30
                          w_triad).1) !! 48) = Some false /\
  buffer R (this (handleNoteOn detect_sample quiet_chord 48 70 30 w_triad).1)
  = buffer R (this w_triad).
Proof.
  assert (Hd : disposed (this w_triad) = false) by (vm_compute; reflexivity).
  destruct (X6_handleNoteOn_effect detect_sample quiet_chord 48 70 30 w_triad
              Hd) as (_ & Hact & _ & Hother & _).
  split; [exact Hd|]. split.
  - rewrite Hact, lookup_insert_eq. reflexivity.
  - apply Hother. vm_compute. discriminate.
Defined.

(** ** What a tick of the split estimator changes *)

Section Tick.

Variable split_cb_throws : nat -> SplitChangeEvent -> bool.

Lemma set_own_fields (m : MidiInputManager) :
  set_recentNoteOns (recentNoteOns m) (set_splitPoint (splitPoint m) m) = m.
Proof. destruct m. reflexivity. Qed.

Lemma set_splitPoint_own_history (s : Z) (m : MidiInputManager) :
  set_splitPoint s m = set_recentNoteOns (recentNoteOns m) (set_splitPoint s m).
Proof. destruct m. reflexivity. Qed.

(** A tick changes at most the split point and the pitch history. *)
Lemma recomputeSplit_this (w : World) :
  exists s r,
    this (recomputeSplit split_cb_throws w).1
    = set_recentNoteOns r (set_splitPoint s (this w)).
Proof.
  assert (Hsame : exists s r, this w
                    = set_recentNoteOns r (set_splitPoint s (this w))).
  { exists (splitPoint (this w)), (recentNoteOns (this w)).
    symmetry. apply set_own_fields. }
  assert (Htrim : forall w1,
            (exists s r, this w1 = set_recentNoteOns r (set_splitPoint s (this w))) ->
            exists s r,
              this (if (128 <? length (recentNoteOns (this w1)))%nat
                    then (with_this
                            (set_recentNoteOns
                               (drop (length (recentNoteOns (this w1)) - 128)
                                  (recentNoteOns (this w1))) (this w1)) w1,
                          Normal)
                    else (w1, Normal)).1
              = set_recentNoteOns r (set_splitPoint s (this w))).
  { intros w1 (s & r & H1).
    destruct (128 <? length (recentNoteOns (this w1)))%nat; [|eauto].
    exists s, (drop (length (recentNoteOns (this w1)) - 128)
                 (recentNoteOns (this w1))).
    simpl. rewrite H1. reflexivity. }
  unfold recomputeSplit.
  destruct (length (recentNoteOns (this w)) <? 8)%nat; [exact Hsame|].
  destruct (_ <=? _); [|now apply Htrim].
  destruct (negb _); [|now apply Htrim].
  match goal with
  | |- context [emitSplitChange _ ?w0] =>
      pose proof (emitSplitChange_effect split_cb_throws w0) as [Ht _];
      destruct (emitSplitChange split_cb_throws w0) as [w1 [|e]]
  end; cbn [fst] in Ht.
  - apply Htrim. rewrite Ht. cbn [this with_this].
    eexists _, _. apply set_splitPoint_own_history.
  - cbn [fst]. rewrite Ht. cbn [this with_this].
    eexists _, _. apply set_splitPoint_own_history.
Qed.

End Tick.

Lemma drop_keeps_last (h : list Z) :
  (length (drop (length h - 128) h) <= 128)%nat.
Proof. rewrite length_drop. lia. Qed.

(** X7. A tick of the split estimator leaves both buffers, the active
    notes, the pedal and the configuration as they are, so the notes already
    buffered keep the hand they were given.  When the tick returns, the
    pitch history is cut down to its most recent 128 entries (it is left
    whole when it has no more than that); when a split subscriber throws,
    the split point has already moved and the history is not cut. *)
Theorem X7_tick_frame_and_history split_cb_throws (w : World) :
  let h := recentNoteOns (this w) in
  let r := recomputeSplit split_cb_throws w in
  let m' := this r.1 in
  bufferL m' = bufferL (this w) /\
  bufferR m' = bufferR (this w) /\
  activeNotes m' = activeNotes (this w) /\
  pedalDown m' = pedalDown (this w) /\
  cfg m' = cfg (this w) /\
  (r.2 = Normal ->
     recentNoteOns m' = drop (length h - 128) h /\
     (length (recentNoteOns m') <= 128)%nat) /\
  (forall e, r.2 = Throw e ->
     recentNoteOns m' = h /\ splitPoint m' <> splitPoint (this w)).
Proof.
  intros h r m'.
  destruct (recomputeSplit_this split_cb_throws w) as (s & rr & Hthis).
  fold r in Hthis. fold m' in Hthis.
  split; [now rewrite Hthis|]. split; [now rewrite Hthis|].
  split; [now rewrite Hthis|]. split; [now rewrite Hthis|].
  split; [now rewrite Hthis|].
  clear Hthis s rr. subst m' r h. unfold recomputeSplit.
  assert (Htrim : forall w1,
            recentNoteOns (this w1) = recentNoteOns (this w) ->
            let r1 := if (128 <? length (recentNoteOns (this w1)))%nat
                      then (with_this
                              (set_recentNoteOns
                                 (drop (length (recentNoteOns (this w1)) - 128)
                                    (recentNoteOns (this w1))) (this w1)) w1,
                            Normal)
                      else (w1, Normal) in
            (r1.2 = Normal ->
               recentNoteOns (this r1.1)
               = drop (length (recentNoteOns (this w)) - 128)
                   (recentNoteOns (this w)) /\
               (length (recentNoteOns (this r1.1)) <= 128)%nat) /\
            (forall e, r1.2 = Throw e ->
               recentNoteOns (this r1.1) = recentNoteOns (this w) /\
               splitPoint (this r1.1) <> splitPoint (this w))).
  { intros w1 H1. rewrite H1.
    destruct (Nat.ltb_spec 128 (length (recentNoteOns (this w)))); simpl.
    - split; [|discriminate]. intros _. split; [reflexivity|].
      apply drop_keeps_last.
    - split; [|discriminate]. intros _. rewrite H1.
      replace (length (recentNoteOns (this w)) - 128)%nat with 0%nat by lia.
      split; [reflexivity|lia]. }
  destruct (Nat.ltb_spec (length (recentNoteOns (this w))) 8); simpl.
  { split; [|discriminate]. intros _.
    replace (length (recentNoteOns (this w)) - 128)%nat with 0%nat by lia.
    split; [reflexivity|lia]. }
  destruct (_ <=? _); [|now apply Htrim].
  destruct (Z.eqb_spec
              (Z.min (splitMax (cfg (this w)))
                 (Z.max (splitMin (cfg (this w)))
                    (center_of (recentNoteOns (this w)))))
              (splitPoint (this w))) as [Heq|Hne]; cbn [negb];
    [now apply Htrim|].
  match goal with
  | |- context [emitSplitChange _ ?w0] =>
      pose proof (emitSplitChange_effect split_cb_throws w0) as [Ht _];
      destruct (emitSplitChange split_cb_throws w0) as [w1 [|e]]
  end; cbn [fst] in Ht.
  - apply Htrim. now rewrite Ht.
  - cbn [fst snd]. split; [discriminate|]. intros e' _. rewrite Ht.
    split; [reflexivity|exact Hne].
Qed.

(** 130 note-ons in the history, then a tick. *)
Example tick_keeps_128 :
  let w := with_this (set_recentNoteOns (repeat 60 129 ++ [61])
                        (this w_init)) w_init in
  length (recentNoteOns (this (recomputeSplit quiet_split w).1)) = 128%nat /\
  last (recentNoteOns (this (recomputeSplit quiet_split w).1)) = Some 61.
Proof. vm_compute. split; reflexivity. Qed.

(** ** Active notes along a run *)

Lemma active_ok_same (m m' : MidiInputManager) :
  activeNotes m' = activeNotes m -> pedalDown m' = pedalDown m ->
  active_ok m -> active_ok m'.
Proof. intros Ha Hp H k an. rewrite Ha, Hp. apply H. Qed.

Lemma handleNoteOff_active_ok (midi : Z) (w : World) :
  active_ok (this w) -> active_ok (this (handleNoteOff midi w)).
Proof.
  intros H. unfold handleNoteOff.
  destruct (disposed (this w)); [exact H|].
  destruct (activeNotes (this w) !! midi) as [existing|] eqn:E; [|exact H].
  destruct (pedalDown (this w)) eqn:Hp; intros k an; simpl; rewrite Hp.
  - intros Hk. apply lookup_insert_Some in Hk as [[<- <-]|[_ Hk]].
    + split; [apply (H midi existing E)|discriminate].
    + split; [apply (H k an Hk)|discriminate].
  - intros Hk. apply lookup_delete_Some in Hk as [_ Hk].
    destruct (H k an Hk) as [H1 H2]. rewrite Hp in H2. auto.
Qed.

Lemma handleControlChange_active_ok (controller value : Z) (w : World) :
  active_ok (this w) -> active_ok (this (handleControlChange controller value w)).
Proof.
  intros H. unfold handleControlChange.
  destruct (disposed (this w)); [exact H|].
  destruct (controller =? 64); [|exact H].
  destruct ((64 <=? value) && negb (pedalDown (this w))).
  - intros k an Hk. simpl in *. split; [apply (H k an Hk)|discriminate].
  - destruct (negb (64 <=? value) && pedalDown (this w)); [|exact H].
    intros k an Hk. simpl in *.
    apply release_sustained_lookup in Hk as [Hk Hs].
    split; [apply (H k an Hk)|auto].
Qed.

Lemma run_active_ok Chord_detect chord_cb_throws split_cb_throws
    (config : MidiInputManagerConfig) (evs : list (Q * Event)) :
  active_ok (this (run Chord_detect chord_cb_throws split_cb_throws
                     (constructor config fresh_host) evs)).
Proof.
  apply (run_this_invariant Chord_detect chord_cb_throws split_cb_throws
           active_ok).
  - intros w hand H.
    destruct (processBuffer_this Chord_detect chord_cb_throws hand w)
      as (Hc & _).
    apply core_eq_fields in Hc as (_ & _ & _ & _ & Ha & Hp & _).
    exact (active_ok_same _ _ Ha Hp H).
  - intros w H.
    destruct (recomputeSplit_this split_cb_throws w) as (s & r & Ht).
    rewrite Ht. exact H.
  - intros w midi velocity time H.
    destruct (disposed (this w)) eqn:Hd.
    + unfold handleNoteOn. now rewrite Hd.
    + destruct (handleNoteOn_this Chord_detect chord_cb_throws midi velocity
                  time w Hd) as (Ha & _ & _ & _ & Hp & _).
      intros k an. rewrite Ha, Hp. intros Hk.
      apply lookup_insert_Some in Hk as [[<- <-]|[_ Hk]]; [simpl; auto|].
      apply (H k an Hk).
  - intros w midi. apply handleNoteOff_active_ok.
  - intros w controller value. apply handleControlChange_active_ok.
  - intros w H. exact H.
  - intros w cb H. exact H.
  - intros w cb H. exact H.
  - intros w cb H. exact H.
  - intros w cb H. exact H.
  - intros k an Hk. simpl in Hk. rewrite lookup_empty in Hk. discriminate.
Qed.


(** X8. In every state that a manager built on a fresh page can reach,
    whatever the events, the configuration and the collaborators: each
    active-note entry is stored under its own pitch, and while the pedal is
    up no active note is marked sustained. *)
Theorem X8_active_notes_invariant Chord_detect chord_cb_throws split_cb_throws
    (config : MidiInputManagerConfig) (evs : list (Q * Event)) :
  let w := run Chord_detect chord_cb_throws split_cb_throws
             (constructor config fresh_host) evs in
  forall k an,
    activeNotes (this w) !! k = Some an ->
    a_midi an = k /\ (pedalDown (this w) = false -> sustained an = false).
Proof.
  intros w. exact (run_active_ok Chord_detect chord_cb_throws split_cb_throws
                     config evs).
Qed.

Lemma X8_witness :
  activeNotes (this w_held) !! 60
  = Some {| a_midi := 60; a_velocity := 100; a_time := 2;
            sustained := false; a_hand := R |} /\
  a_midi {| a_midi := 60; a_velocity := 100; a_time := 2;
            sustained := false; a_hand := R |} = 60.
Proof.
  assert (H : activeNotes (this w_held) !! 60
              = Some {| a_midi := 60; a_velocity := 100; a_time := 2;
                        sustained := false; a_hand := R |})
    by (vm_compute; reflexivity).
  split; [exact H|].
  exact (proj1 (X8_active_notes_invariant detect_sample quiet_chord quiet_split
                  DEFAULTS
                  [ (1%Q, CallControlChange 64 127);
                    (2%Q, CallNoteOn 60 100 None) ] 60 _ H)).
Defined.

(** ** The window start along a run *)

(** X9. In every state that a manager built on a fresh page can reach, the
    window start of each hand's buffer is the time of the first note in that
    buffer; so a buffer has a window start exactly when it holds a note. *)
Theorem X9_window_start_invariant Chord_detect chord_cb_throws split_cb_throws
    (config : MidiInputManagerConfig) (evs : list (Q * Event)) (hand : Hand) :
  let w := run Chord_detect chord_cb_throws split_cb_throws
             (constructor config fresh_host) evs in
  let b := buffer hand (this w) in
  firstTime b = time <$> head (notes b) /\
  (firstTime b = None <-> notes b = []).
Proof.
  intros w b.
  assert (H : forall h, window_ok (buffer h (this w))).
  { subst w.
    apply (run_this_invariant Chord_detect chord_cb_throws split_cb_throws
             (fun m => forall h, window_ok (buffer h m))).
    - intros w hand' H h.
      destruct (processBuffer_this Chord_detect chord_cb_throws hand' w)
        as (_ & Ho & Hh).
      destruct (decide (h = hand')) as [->|Hne].
      + destruct Hh as [Hsame|(Hn & Hf & _)].
        * rewrite Hsame. apply H.
        * unfold window_ok. now rewrite Hn, Hf.
      + rewrite Ho by exact Hne. apply H.
    - intros w H.
      destruct (recomputeSplit_this split_cb_throws w) as (s & r & Ht).
      rewrite Ht. exact H.
    - intros w midi velocity time H. unfold handleNoteOn.
      destruct (disposed (this w)); [exact H|].
      apply pushToBuffer_window_ok. exact H.
    - intros w midi H. unfold handleNoteOff.
      destruct (disposed (this w)); [exact H|].
      destruct (activeNotes (this w) !! midi); [|exact H].
      destruct (pedalDown (this w)); exact H.
    - intros w controller value H. unfold handleControlChange.
      destruct (disposed (this w)); [exact H|].
      destruct (controller =? 64); [|exact H].
      destruct (_ && _); [exact H|]. destruct (_ && _); exact H.
    - intros w H. exact H.
    - intros w cb H. exact H.
  - intros w cb H. exact H.
  - intros w cb H. exact H.
  - intros w cb H. exact H.
    - intros [|]; reflexivity. }
  specialize (H hand). fold b in H. unfold window_ok in H.
  split; [exact H|]. rewrite H.
  destruct (notes b); simpl; split; congruence.
Qed.

(** ** The split point along a run *)

(** X10. When the configured initial split lies between [splitMin] and
    [splitMax], [getCurrentSplit()] lies between them in every state the
    manager can reach, and the configuration is never changed. *)
Theorem X10_split_stays_in_bounds Chord_detect chord_cb_throws split_cb_throws
    (config : MidiInputManagerConfig) (evs : list (Q * Event)) :
  splitMin config <= splitInitialMidi config <= splitMax config ->
  let w := run Chord_detect chord_cb_throws split_cb_throws
             (constructor config fresh_host) evs in
  cfg (this w) = config /\
  splitMin config <= getCurrentSplit w <= splitMax config.
Proof.
  intros Hinit w. subst w. unfold getCurrentSplit.
  apply (run_this_invariant Chord_detect chord_cb_throws split_cb_throws
           (fun m => cfg m = config /\
                     splitMin config <= splitPoint m <= splitMax config)).
  - intros w hand H.
    destruct (processBuffer_this Chord_detect chord_cb_throws hand w)
      as (Hc & _).
    apply core_eq_fields in Hc as (Hcfg & Hs & _). now rewrite Hcfg, Hs.
  - intros w [Hcfg Hb].
    destruct (recomputeSplit_this split_cb_throws w) as (s & r & Ht).
    destruct (recomputeSplit_effect split_cb_throws w) as [Hs _].
    split; [rewrite Ht; exact Hcfg|].
    cbv zeta in Hs. rewrite Hs.
    destruct (moves (this w)); [|exact Hb].
    unfold clamped. rewrite Hcfg. lia.
  - intros w midi velocity time H.
    destruct (disposed (this w)) eqn:Hd.
    + unfold handleNoteOn. now rewrite Hd.
    + destruct (handleNoteOn_this Chord_detect chord_cb_throws midi velocity
                  time w Hd) as (_ & _ & _ & Hs & _ & Hcfg).
      now rewrite Hs, Hcfg.
  - intros w midi H. unfold handleNoteOff.
    destruct (disposed (this w)); [exact H|].
    destruct (activeNotes (this w) !! midi); [|exact H].
    destruct (pedalDown (this w)); exact H.
  - intros w controller value H. unfold handleControlChange.
    destruct (disposed (this w)); [exact H|].
    destruct (controller =? 64); [|exact H].
    destruct (_ && _); [exact H|]. destruct (_ && _); exact H.
  - intros w H. exact H.
  - intros w cb H. exact H.
  - intros w cb H. exact H.
  - intros w cb H. exact H.
  - intros w cb H. exact H.
  - simpl. split; [reflexivity|exact Hinit].
Qed.

Lemma X10_witness :
  splitMin DEFAULTS <= splitInitialMidi DEFAULTS <= splitMax DEFAULTS /\
  52 <= getCurrentSplit
          (run detect_sample quiet_chord quiet_split
             (constructor DEFAULTS fresh_host)
             (strikes 90 [10; 11; 12; 13; 20; 21; 22; 23]%Q
              ++ [ (1000%Q, FireTimer 1) ])) <= 64.
Proof.
  assert (H : splitMin DEFAULTS <= splitInitialMidi DEFAULTS
              <= splitMax DEFAULTS) by (simpl; lia).
  split; [exact H|].
  exact (proj2 (X10_split_stays_in_bounds detect_sample quiet_chord quiet_split
                  DEFAULTS
                  (strikes 90 [10; 11; 12; 13; 20; 21; 22; 23]%Q
                   ++ [ (1000%Q, FireTimer 1) ]) H)).
Defined.

(** ** Note-off and pedal messages that repeat or do not apply *)

Lemma mark_sustained_twice (an : ActiveNote) :
  mark_sustained (mark_sustained an) = mark_sustained an.
Proof. reflexivity. Qed.

(** X11. [handleNoteOff] for a pitch with no active entry changes nothing
    (a note-off that comes twice or out of order is harmless), a second
    identical call changes nothing more than the first did, and with the
    pedal up on a live manager the call removes the entry of that pitch and
    no other. *)
Theorem X11_handleNoteOff_idempotent (midi : Z) (w : World) :
  (activeNotes (this w) !! midi = None -> handleNoteOff midi w = w) /\
  handleNoteOff midi (handleNoteOff midi w) = handleNoteOff midi w /\
  (disposed (this w) = false -> pedalDown (this w) = false ->
     activeNotes (this (handleNoteOff midi w)) = delete midi (activeNotes (this w))).
Proof.
  split; [|split].
  - intros Hnone. unfold handleNoteOff. rewrite Hnone.
    now destruct (disposed (this w)).
  - unfold handleNoteOff at 2.
    destruct (disposed (this w)) eqn:Hd.
    { unfold handleNoteOff. now rewrite Hd. }
    destruct (activeNotes (this w) !! midi) as [existing|] eqn:E.
    + destruct (pedalDown (this w)) eqn:Hp; unfold handleNoteOff; simpl;
        rewrite Hd, Hp.
      * rewrite lookup_insert_eq, E. simpl.
        now rewrite insert_insert_eq.
      * now rewrite lookup_delete_eq, E.
    + unfold handleNoteOff. now rewrite Hd, E.
  - intros Hd Hp. unfold handleNoteOff. rewrite Hd, Hp.
    destruct (activeNotes (this w) !! midi) eqn:E; simpl; [reflexivity|].
    symmetry. now apply delete_id.
Qed.

(** X12. [handleControlChange] ignores every controller but 64.  For
    controller 64 on a live manager the pedal flag afterwards is exactly
    whether the value is at least 64; a message that repeats the state the
    pedal is in changes nothing, and so does a second identical message. *)
Theorem X12_handleControlChange_pedal (controller value : Z) (w : World) :
  (controller <> 64 -> handleControlChange controller value w = w) /\
  (disposed (this w) = false ->
     pedalDown (this (handleControlChange 64 value w)) = (64 <=? value)) /\
  (pedalDown (this w) = (64 <=? value) ->
     handleControlChange 64 value w = w) /\
  handleControlChange controller value (handleControlChange controller value w)
  = handleControlChange controller value w.
Proof.
  assert (Hother : controller <> 64 -> handleControlChange controller value w = w).
  { intros Hne. unfold handleControlChange.
    apply Z.eqb_neq in Hne. rewrite Hne. now destruct (disposed (this w)). }
  assert (Hsame : forall w0, pedalDown (this w0) = (64 <=? value) ->
                             handleControlChange 64 value w0 = w0).
  { intros w0 Hp. unfold handleControlChange. rewrite Hp. simpl.
    destruct (disposed (this w0)); [reflexivity|].
    now destruct (64 <=? value). }
  assert (Hflag : forall w0, disposed (this w0) = false ->
            pedalDown (this (handleControlChange 64 value w0)) = (64 <=? value)).
  { intros w0 Hd. unfold handleControlChange. rewrite Hd. simpl.
    destruct (64 <=? value), (pedalDown (this w0)) eqn:Hp; simpl; auto. }
  split; [exact Hother|]. split; [apply Hflag|]. split; [apply Hsame|].
  destruct (Z.eq_dec controller 64) as [->|Hne].
  - destruct (disposed (this w)) eqn:Hd.
    + unfold handleControlChange. rewrite Hd. simpl. now rewrite Hd.
    + apply Hsame. now apply Hflag.
  - now rewrite !Hother.
Qed.

(** ** One pending timer for each job *)

Lemma ids_ok_frame (h h' : Host) :
  timers h' = timers h -> nextTimerId h' = nextTimerId h ->
  ids_ok h -> ids_ok h'.
Proof. unfold ids_ok. intros -> ->. auto. Qed.

Lemma NoDup_map_filter {A B : Type} (f : A -> B) (p : A -> bool) (l : list A) :
  NoDup (map f l) -> NoDup (map f (List.filter p l)).
Proof.
  induction l as [|x r IH]; simpl; [auto|].
  intros Hnd. apply NoDup_cons in Hnd as [Hx Hr].
  destruct (p x); simpl; [|auto].
  apply NoDup_cons. split; [|auto].
  intros Hin. apply Hx. apply list_elem_of_fmap in Hin as (y & -> & Hy).
  apply list_elem_of_fmap. exists y. split; [reflexivity|].
  apply list_elem_of_In in Hy. apply filter_In in Hy as [Hy _].
  now apply list_elem_of_In.
Qed.

Lemma NoDup_map_same {A B : Type} (f : A -> B) (l : list A) (x y : A) :
  NoDup (map f l) -> In x l -> In y l -> f x = f y -> x = y.
Proof.
  induction l as [|z r IH]; simpl; [intros _ []|].
  intros Hnd Hx Hy Hf. apply NoDup_cons in Hnd as [Hz Hr].
  destruct Hx as [->|Hx], Hy as [->|Hy]; auto.
  - exfalso. apply Hz. rewrite Hf. apply list_elem_of_fmap.
    exists y. split; [reflexivity|now apply list_elem_of_In].
  - exfalso. apply Hz. rewrite <- Hf. apply list_elem_of_fmap.
    exists x. split; [reflexivity|now apply list_elem_of_In].
Qed.

Lemma clearTimeout_ids_ok (id : nat) (h : Host) :
  ids_ok h -> ids_ok (clearTimeout id h).
Proof.
  intros [Hnd Hlt]. split.
  - unfold clearTimeout. simpl. now apply NoDup_map_filter.
  - intros x Hx. apply In_clearTimeout in Hx as [Hx _]. now apply Hlt.
Qed.

Lemma clear_if_set_ids_ok (o : option nat) (h : Host) :
  ids_ok h -> ids_ok (clear_if_set o h).
Proof.
  unfold clear_if_set. destruct (truthy_handle o); [|auto].
  apply clearTimeout_ids_ok.
Qed.

Lemma schedule_ids_ok (task : TimerTask) (delay : Q) (every : option Q)
    (h : Host) :
  ids_ok h -> ids_ok (schedule task delay every h).2.
Proof.
  intros [Hnd Hlt]. unfold schedule. simpl. split; simpl.
  - rewrite map_app. simpl. apply NoDup_app. split; [exact Hnd|]. split.
    + intros i Hi Hi'. apply list_elem_of_singleton in Hi'. subst i.
      apply list_elem_of_fmap in Hi as (x & Hid & Hx).
      apply list_elem_of_In in Hx. specialize (Hlt x Hx). lia.
    + apply NoDup_singleton.
  - intros x Hx. apply in_app_or in Hx as [Hx|[<-|[]]]; simpl.
    + specialize (Hlt x Hx). lia.
    + lia.
Qed.

Section OneTimer.

Variable Chord_detect : list (option string) -> DetectResult.
Variable chord_cb_throws : nat -> ChordEvent -> bool.
Variable split_cb_throws : nat -> SplitChangeEvent -> bool.

Local Abbreviation step' := (step Chord_detect chord_cb_throws split_cb_throws).
Local Abbreviation run' := (run Chord_detect chord_cb_throws split_cb_throws).

Lemma resetBuffer_ids_ok (hand : Hand) (w : World) :
  ids_ok (host w) -> ids_ok (host (resetBuffer hand w)).
Proof. unfold resetBuffer, clearTimer. simpl. apply clear_if_set_ids_ok. Qed.

Lemma emitChord_ids_ok (evt : ChordEvent) (w : World) :
  ids_ok (host w) -> ids_ok (host (emitChord chord_cb_throws evt w).1).
Proof.
  intros H. unfold emitChord.
  pose proof (call_chord_callbacks_host chord_cb_throws
                (chordCallbacks (this w)) evt
                (observe (EmitChord evt) (host w))) as (H1 & H2 & _).
  destruct (call_chord_callbacks _ _ _ _) as [h c]. simpl in *.
  now apply (ids_ok_frame (host w)).
Qed.

Lemma emitSplitChange_ids_ok (w : World) :
  ids_ok (host w) -> ids_ok (host (emitSplitChange split_cb_throws w).1).
Proof.
  intros H. unfold emitSplitChange.
  pose proof (call_split_callbacks_host split_cb_throws
                (splitCallbacks (this w))
                {| splitMidi := splitPoint (this w);
                   s_timestamp := now (host w) |}
                (observe (EmitSplit {| splitMidi := splitPoint (this w);
                                       s_timestamp := now (host w) |})
                   (host w))) as (H1 & H2 & _).
  destruct (call_split_callbacks _ _ _ _) as [h c]. simpl in *.
  now apply (ids_ok_frame (host w)).
Qed.

Lemma processBuffer_ids_ok (hand : Hand) (w : World) :
  ids_ok (host w) ->
  ids_ok (host (processBuffer Chord_detect chord_cb_throws hand w).1).
Proof.
  intros H. unfold processBuffer.
  destruct (firstTime (buffer hand (this w))) as [first|];
    [|now apply resetBuffer_ids_ok].
  destruct (falsy_time (Some first)
            || (length (notes (buffer hand (this w))) =? 0)%nat);
    [now apply resetBuffer_ids_ok|].
  destruct (build_event Chord_detect hand first w) as [evt|e]; [|exact H].
  pose proof (emitChord_ids_ok evt w H) as He.
  destruct (emitChord chord_cb_throws evt w) as [w' [|e]]; cbn [fst] in *.
  - now apply resetBuffer_ids_ok.
  - exact He.
Qed.

Lemma arm_ids_ok (hand : Hand) (delay : Q) (w : World) :
  ids_ok (host w) -> ids_ok (host (arm hand delay w)).
Proof.
  intros H. unfold arm, setTimeout.
  pose proof (schedule_ids_ok (ProcessBufferTask hand) delay None (host w) H)
    as Hs.
  destruct (schedule _ _ _ _) as [id h]. exact Hs.
Qed.

Lemma pushToBuffer_ids_ok (hand : Hand) (note : BufferedNote) (w : World) :
  ids_ok (host w) ->
  ids_ok (host (pushToBuffer Chord_detect chord_cb_throws hand note w).1).
Proof.
  intros H. unfold pushToBuffer.
  destruct (firstTime (buffer hand (this w))) as [first|].
  - set (w1 := with_this _ w).
    assert (Hc : ids_ok (host (clearTimer hand w1))).
    { unfold clearTimer. simpl. now apply clear_if_set_ids_ok. }
    destruct (_ && _); [now apply processBuffer_ids_ok|].
    destruct (_ && _); cbn [fst]; [now apply arm_ids_ok|exact H].
  - cbn [fst]. now apply arm_ids_ok.
Qed.

Lemma recomputeSplit_ids_ok (w : World) :
  ids_ok (host w) -> ids_ok (host (recomputeSplit split_cb_throws w).1).
Proof.
  intros H. unfold recomputeSplit.
  destruct (length (recentNoteOns (this w)) <? 8)%nat; [exact H|].
  assert (Htrim : forall w1, ids_ok (host w1) ->
            ids_ok (host
              (if (128 <? length (recentNoteOns (this w1)))%nat
               then (with_this
                       (set_recentNoteOns
                          (drop (length (recentNoteOns (this w1)) - 128)
                             (recentNoteOns (this w1))) (this w1)) w1, Normal)
               else (w1, Normal)).1)).
  { intros w1 H1. now destruct (128 <? length (recentNoteOns (this w1)))%nat. }
  destruct (_ <=? _); [|now apply Htrim].
  destruct (negb _); [|now apply Htrim].
  match goal with
  | |- context [emitSplitChange _ ?w0] =>
      pose proof (emitSplitChange_ids_ok w0 H) as He;
      destruct (emitSplitChange split_cb_throws w0) as [w1 [|e]]
  end; cbn [fst] in *.
  - now apply Htrim.
  - exact He.
Qed.

Lemma settle_ids_ok (r : World * Completion) :
  ids_ok (host r.1) -> ids_ok (host (settle r)).
Proof. destruct r as [w [|e]]; simpl; auto. Qed.

Lemma fire_ids_ok (id : nat) (w : World) :
  ids_ok (host w) ->
  ids_ok (host (fire Chord_detect chord_cb_throws split_cb_throws id w)).
Proof.
  intros H. unfold fire.
  destruct (List.find (due id (now (host w))) (timers (host w))) as [x|] eqn:Hfind;
    [|exact H].
  apply find_some in Hfind as [Hx Hdue].
  assert (Hid : t_id x = id).
  { unfold due in Hdue. apply andb_true_iff in Hdue as [Hdue _].
    now apply Nat.eqb_eq in Hdue. }
  apply settle_ids_ok.
  match goal with
  | |- ids_ok (host (run_task _ _ _ _ ?w0).1) => assert (H0 : ids_ok (host w0))
  end.
  { pose proof (clearTimeout_ids_ok id (host w) H) as [Hnd Hlt].
    destruct H as [_ Hlt0].
    destruct (t_every x) as [d|]; [|split; [exact Hnd|exact Hlt]].
    split; simpl.
    - rewrite map_app. simpl. apply NoDup_app. split; [exact Hnd|]. split.
      + intros i Hi Hi'. apply list_elem_of_singleton in Hi'. subst i.
        apply list_elem_of_fmap in Hi as (y & Hy & Hin).
        apply list_elem_of_In, filter_In in Hin as [_ Hk].
        unfold keeps in Hk. apply negb_true_iff, Nat.eqb_neq in Hk. congruence.
      + apply NoDup_singleton.
    - intros y Hy. apply in_app_or in Hy as [Hy|[<-|[]]]; simpl.
      + now apply Hlt.
      + now apply Hlt0. }
  destruct (t_task x); simpl.
  - now apply processBuffer_ids_ok.
  - now apply recomputeSplit_ids_ok.
Qed.

Lemma step_ids_ok (w : World) (te : Q * Event) :
  ids_ok (host w) -> ids_ok (host (step' w te)).
Proof.
  intros H. destruct te as [t ev]. unfold step.
  set (w0 := with_host (at_time t (host w)) w).
  assert (H0 : ids_ok (host w0)) by exact H.
  destruct ev; try exact H0.
  - apply settle_ids_ok. unfold handleNoteOn.
    destruct (disposed (this w0)); [exact H0|].
    now apply pushToBuffer_ids_ok.
  - unfold handleNoteOff. destruct (disposed (this w0)); [exact H0|].
    destruct (_ !! _); [|exact H0].
    destruct (pedalDown (this w0)); exact H0.
  - unfold handleControlChange. destruct (disposed (this w0)); [exact H0|].
    destruct (_ =? 64); [|exact H0].
    destruct (_ && _); [exact H0|]. destruct (_ && _); exact H0.
  - unfold dispose. simpl. now do 3 apply clear_if_set_ids_ok.
  - now apply fire_ids_ok.
Qed.

Lemma run_ids_ok (evs : list (Q * Event)) (w : World) :
  ids_ok (host w) -> ids_ok (host (run' w evs)).
Proof.
  revert w. induction evs as [|te evs IH]; intros w H; simpl; [exact H|].
  apply IH. now apply step_ids_ok.
Qed.

Lemma constructor_ids_ok (config : MidiInputManagerConfig) :
  ids_ok (host (constructor config fresh_host)).
Proof.
  split; simpl.
  - apply NoDup_singleton.
  - intros x [<-|[]]. simpl. lia.
Qed.

End OneTimer.

(** X13. In every state that a manager built on a fresh page can reach,
    the handles of the pending timers are pairwise distinct; two pending
    timers never do the same job, so each hand has at most one pending close
    timer and there is at most one split-estimation timer; and a pending
    close timer of a hand is the one whose handle that buffer stores, the
    buffer having a window start. *)
Theorem X13_one_pending_timer_per_job Chord_detect chord_cb_throws
    split_cb_throws (config : MidiInputManagerConfig)
    (evs : list (Q * Event)) :
  let w := run Chord_detect chord_cb_throws split_cb_throws
             (constructor config fresh_host) evs in
  NoDup (map t_id (timers (host w))) /\
  (forall x y, In x (timers (host w)) -> In y (timers (host w)) ->
               t_task x = t_task y -> x = y) /\
  (forall x hand, In x (timers (host w)) ->
                  t_task x = ProcessBufferTask hand ->
                  timer (buffer hand (this w)) = Some (t_id x) /\
                  firstTime (buffer hand (this w)) <> None).
Proof.
  intros w.
  assert (Hids : ids_ok (host w)).
  { subst w. apply run_ids_ok, constructor_ids_ok. }
  assert (Hok : timers_ok w).
  { subst w. apply run_ok, constructor_ok. }
  destruct Hids as [Hnd _]. destruct Hok as (_ & Hown & Hnone).
  split; [exact Hnd|]. split.
  - intros x y Hx Hy Htask.
    apply (NoDup_map_same t_id (timers (host w))); [exact Hnd|exact Hx|exact Hy|].
    destruct (Hown x Hx) as [_ Hox]. destruct (Hown y Hy) as [_ Hoy].
    rewrite Htask in Hox.
    destruct (t_task y); congruence.
  - intros x hand Hx Htask. destruct (Hown x Hx) as [_ Hox].
    rewrite Htask in Hox. split; [exact Hox|].
    intros Hf. exact (Hnone hand x Hf Hx Htask).
Qed.

(** ** Closing a buffer that has nothing to say *)

(** X14. [processBuffer] on a buffer without a window start, with the
    window start 0, or without notes emits nothing and calls nobody: it
    resets the buffer and returns.  So the notes of a window that started at
    timestamp 0 are dropped without an event. *)
Theorem X14_close_without_event Chord_detect chord_cb_throws (hand : Hand)
    (w : World) :
  firstTime (buffer hand (this w)) = None \/
  (exists t, firstTime (buffer hand (this w)) = Some t /\ (t == 0)%Q) \/
  notes (buffer hand (this w)) = [] ->
  let r := processBuffer Chord_detect chord_cb_throws hand w in
  r = (resetBuffer hand w, Normal) /\
  log (host r.1) = log (host w) /\
  notes (buffer hand (this r.1)) = [] /\
  firstTime (buffer hand (this r.1)) = None /\
  timer (buffer hand (this r.1)) = None.
Proof.
  intros Hcase r.
  assert (Hr : r = (resetBuffer hand w, Normal)).
  { subst r. unfold processBuffer.
    destruct Hcase as [Hnone|[(t & Ht & Hz)|Hnil]].
    - now rewrite Hnone.
    - rewrite Ht. simpl. apply Qeq_bool_iff in Hz. now rewrite Hz.
    - rewrite Hnil. simpl.
      destruct (firstTime (buffer hand (this w))); [|reflexivity].
      now rewrite orb_true_r. }
  rewrite Hr. split; [reflexivity|]. split; [apply resetBuffer_log|].
  apply resetBuffer_buffer.
Qed.

Lemma X14_witness :
  (exists t, firstTime (buffer R (this w_zero)) = Some t /\ (t == 0)%Q) /\
  map midi (notes (buffer R (this w_zero))) = [60; 64; 67] /\
  log (host (processBuffer detect_sample quiet_chord R w_zero).1) = [] /\
  notes (buffer R (this (processBuffer detect_sample quiet_chord R w_zero).1))
  = [].
Proof.
  assert (Hz : exists t, firstTime (buffer R (this w_zero)) = Some t /\
                         (t == 0)%Q).
  { exists 0%Q. split; [vm_compute; reflexivity|reflexivity]. }
  destruct (X14_close_without_event detect_sample quiet_chord R w_zero
              (or_intror (or_introl Hz))) as (_ & Hlog & Hnotes & _).
  split; [exact Hz|]. split; [vm_compute; reflexivity|].
  split; [|exact Hnotes]. rewrite Hlog. vm_compute. reflexivity.
Defined.

(** ** A later note that does not close the window *)

Lemma Math_max_ge_l (x y : Q) : (x <= Math_max x y)%Q.
Proof.
  unfold Math_max. destruct (Qle_bool x y) eqn:E; [|lra].
  now apply Qle_bool_iff.
Qed.

(** X15. A note that joins an open window without meeting the early-close
    test (too few notes yet, or 60% of the window already gone) is appended
    to the buffer, nothing is emitted and the call returns.  When it comes
    after the window length but within the roll extension, the pending close
    is cancelled and one new close is scheduled, at the remaining roll
    extension and no sooner than 10 ms from now; otherwise the timers are
    left as they are. *)
Theorem X15_note_joins_open_window Chord_detect chord_cb_throws (hand : Hand)
    (note : BufferedNote) (first : Q) (w : World) :
  timers_ok w ->
  firstTime (buffer hand (this w)) = Some first ->
  Z.of_nat (length (notes (buffer hand (this w)) ++ [note]))
  < earlyCount_of (cfg (this w)) hand \/
  (cfgWindow_of (cfg (this w)) hand * (6 # 10) <= time note - first)%Q ->
  let elapsed := (time note - first)%Q in
  let window := cfgWindow_of (cfg (this w)) hand in
  let roll := rollExtension_of (cfg (this w)) hand in
  let r := pushToBuffer Chord_detect chord_cb_throws hand note w in
  r.2 = Normal /\
  log (host r.1) = log (host w) /\
  notes (buffer hand (this r.1)) = notes (buffer hand (this w)) ++ [note] /\
  firstTime (buffer hand (this r.1)) = Some first /\
  ((window < elapsed)%Q -> (elapsed <= roll)%Q ->
     timer (buffer hand (this r.1)) = Some (nextTimerId (host w)) /\
     (10 <= Math_max 10 (roll - elapsed))%Q /\
     In {| t_id := nextTimerId (host w);
           t_due := (now (host w) + Math_max 10 (roll - elapsed))%Q;
           t_task := ProcessBufferTask hand;
           t_every := None |} (timers (host r.1)) /\
     forall x, In x (timers (host r.1)) ->
               t_task x = ProcessBufferTask hand ->
               x = {| t_id := nextTimerId (host w);
                      t_due := (now (host w) + Math_max 10 (roll - elapsed))%Q;
                      t_task := ProcessBufferTask hand;
                      t_every := None |}) /\
  ((elapsed <= window)%Q \/ (roll < elapsed)%Q ->
     timers (host r.1) = timers (host w) /\
     timer (buffer hand (this r.1)) = timer (buffer hand (this w))).
Proof.
  intros Hok Hfirst Hnot elapsed window roll r.
  set (w1 := with_this (set_buffer hand
                 (set_notes (notes (buffer hand (this w)) ++ [note])
                    (buffer hand (this w))) (this w)) w).
  assert (Hearly : (earlyCount_of (cfg (this w)) hand
                    <=? Z.of_nat (length (notes (buffer hand (this w))
                                          ++ [note])))
                   && Qltb elapsed (window * (6 # 10)) = false).
  { destruct Hnot as [Hfew|Hlate].
    - apply Z.leb_gt in Hfew. now rewrite Hfew.
    - apply Qltb_false in Hlate. subst elapsed window.
      now rewrite Hlate, andb_false_r. }
  assert (Hr : r = if Qltb window elapsed && Qle_bool elapsed roll
                   then (arm hand (Math_max 10 (roll - elapsed))
                           (clearTimer hand w1), Normal)
                   else (w1, Normal)).
  { subst r. unfold pushToBuffer. rewrite Hfirst.
    fold elapsed. fold window. rewrite Hearly. reflexivity. }
  assert (Hok1 : timers_ok w1).
  { apply (timers_ok_frame w); try reflexivity; [| |exact Hok];
      intros other; subst w1; simpl;
      (destruct (decide (other = hand)) as [->|Hne];
       [now rewrite buffer_set_buffer_same
       |now rewrite buffer_set_buffer_other]). }
  destruct (clearTimer_ok hand w1 Hok1) as [_ Hquiet].
  rewrite Hr.
  destruct (Qltb window elapsed) eqn:E1; simpl.
  - destruct (Qle_bool elapsed roll) eqn:E2; simpl.
    + unfold arm, setTimeout, schedule, clearTimer. simpl.
      rewrite !buffer_set_buffer_same. simpl.
      rewrite nextTimerId_clear_if_set, clear_if_set_log.
      split; [reflexivity|]. split; [reflexivity|].
      split; [reflexivity|]. split; [exact Hfirst|]. split.
      * intros _ _. split; [reflexivity|]. split; [apply Math_max_ge_l|].
        assert (Hnow : now (clear_if_set (timer (buffer hand (this w)))
                              (host w)) = now (host w)).
        { unfold clear_if_set. destruct (truthy_handle _); reflexivity. }
        rewrite Hnow. split; [apply in_or_app; right; now left|].
        intros x Hx Htask. apply in_app_or in Hx as [Hx|[<-|[]]];
          [|reflexivity].
        exfalso. apply (Hquiet x); [|exact Htask].
        unfold clearTimer. subst w1. simpl.
        rewrite buffer_set_buffer_same. simpl. exact Hx.
      * intros [Hle|Hgt]; exfalso.
        -- apply Qltb_true in E1. lra.
        -- apply Qle_bool_iff in E2. lra.
    + subst w1. simpl. rewrite buffer_set_buffer_same. simpl.
      split; [reflexivity|]. split; [reflexivity|].
      split; [reflexivity|]. split; [exact Hfirst|]. split.
      * intros _ Hle. apply Qle_bool_iff in Hle. congruence.
      * intros _. auto.
  - subst w1. simpl. rewrite buffer_set_buffer_same. simpl.
    split; [reflexivity|]. split; [reflexivity|].
    split; [reflexivity|]. split; [exact Hfirst|]. split.
    + intros Hlt. apply Qltb_true in Hlt. congruence.
    + intros _. auto.
Qed.

Lemma X15_witness :
  timers_ok w_first /\
  firstTime (buffer R (this w_first)) = Some 5%Q /\
  map midi (notes (buffer R (this (pushToBuffer detect_sample quiet_chord R
                                     late_note w_first).1)))
  = [60; 64] /\
  timer (buffer R (this (pushToBuffer detect_sample quiet_chord R late_note
                           w_first).1)) = Some 3%nat.
Proof.
  assert (Hok : timers_ok w_first) by (apply run_ok, constructor_ok).
  assert (Hfirst : firstTime (buffer R (this w_first)) = Some 5%Q)
    by (vm_compute; reflexivity).
  destruct (X15_note_joins_open_window detect_sample quiet_chord R late_note
              5 w_first Hok Hfirst) as (_ & _ & Hnotes & _ & Hroll & _).
  { left. vm_compute. reflexivity. }
  split; [exact Hok|]. split; [exact Hfirst|]. split.
  - rewrite Hnotes. vm_compute. reflexivity.
  - destruct Hroll as [Htimer _].
    + vm_compute. reflexivity.
    + vm_compute. discriminate.
    + rewrite Htimer. vm_compute. reflexivity.
Defined.

(** ** Subscribing and unsubscribing *)

Lemma Set_add_elem (cb c : nat) (s : list nat) :
  c ∈ Set_add cb s <-> c = cb \/ c ∈ s.
Proof.
  unfold Set_add. destruct (bool_decide_reflect (cb ∈ s)) as [Hin|Hnot].
  - split; [auto|]. intros [->|H]; auto.
  - rewrite elem_of_app, list_elem_of_singleton. tauto.
Qed.

Lemma Set_add_NoDup (cb : nat) (s : list nat) : NoDup s -> NoDup (Set_add cb s).
Proof.
  intros Hnd. unfold Set_add.
  destruct (bool_decide_reflect (cb ∈ s)) as [Hin|Hnot]; [exact Hnd|].
  apply NoDup_app. split; [exact Hnd|]. split; [|apply NoDup_singleton].
  intros c Hc Hc'. apply list_elem_of_singleton in Hc'. now subst.
Qed.

Lemma Set_add_twice (cb : nat) (s : list nat) :
  Set_add cb (Set_add cb s) = Set_add cb s.
Proof.
  unfold Set_add at 1.
  destruct (bool_decide_reflect (cb ∈ Set_add cb s)) as [Hin|Hnot];
    [reflexivity|].
  exfalso. apply Hnot, Set_add_elem. now left.
Qed.

Lemma Set_delete_elem (cb c : nat) (s : list nat) :
  c ∈ Set_delete cb s <-> c ∈ s /\ c <> cb.
Proof. unfold Set_delete. rewrite list_elem_of_filter. tauto. Qed.

Lemma Set_delete_absent (cb : nat) (s : list nat) :
  cb ∉ s -> Set_delete cb s = s.
Proof.
  unfold Set_delete. induction s as [|x r IH]; intros Hnot; [reflexivity|].
  rewrite filter_cons. destruct (decide (x <> cb)) as [Hx|Hx].
  - rewrite IH; [reflexivity|]. intros Hc. apply Hnot. now right.
  - exfalso. apply Hnot. destruct (decide (x = cb)) as [->|Hne];
      [now left|contradiction].
Qed.

Lemma Set_delete_twice (cb : nat) (s : list nat) :
  Set_delete cb (Set_delete cb s) = Set_delete cb s.
Proof.
  apply Set_delete_absent. rewrite Set_delete_elem. intros [_ H]. now apply H.
Qed.

Lemma Set_delete_add (cb : nat) (s : list nat) :
  cb ∉ s -> Set_delete cb (Set_add cb s) = s.
Proof.
  intros Hnot. unfold Set_add. rewrite bool_decide_eq_false_2 by exact Hnot.
  unfold Set_delete. rewrite filter_app.
  fold (Set_delete cb s). rewrite (Set_delete_absent cb s Hnot).
  rewrite filter_cons. destruct (decide (cb <> cb)); [congruence|].
  rewrite filter_nil. apply app_nil_r.
Qed.

Lemma Set_delete_NoDup (cb : nat) (s : list nat) :
  NoDup s -> NoDup (Set_delete cb s).
Proof. apply NoDup_filter. Qed.

(** X16. [onChord(cb)] makes [cb] a subscriber and keeps the others;
    subscribing twice is the same as once.  The function it returns removes
    [cb] and nobody else, and calling it again changes nothing.  For a
    callback that was not subscribed before, subscribing and then
    unsubscribing gives back the state one started from. *)
Theorem X16_subscribe_unsubscribe (cb : nat) (w : World) :
  (forall c, c ∈ chordCallbacks (this (onChord cb w)) <->
             c = cb \/ c ∈ chordCallbacks (this w)) /\
  onChord cb (onChord cb w) = onChord cb w /\
  (forall c, c ∈ chordCallbacks (this (offChord cb w)) <->
             c ∈ chordCallbacks (this w) /\ c <> cb) /\
  offChord cb (offChord cb w) = offChord cb w /\
  (cb ∉ chordCallbacks (this w) -> offChord cb (onChord cb w) = w).
Proof.
  split; [intros c; apply Set_add_elem|]. split.
  { unfold onChord. simpl. now rewrite Set_add_twice. }
  split; [intros c; apply Set_delete_elem|]. split.
  { unfold offChord. simpl. now rewrite Set_delete_twice. }
  intros Hnot. destruct w as [m h]. destruct m. unfold offChord, onChord.
  simpl in *. now rewrite (Set_delete_add cb _ Hnot).
Qed.

Lemma run_callbacks_NoDup Chord_detect chord_cb_throws split_cb_throws
    (config : MidiInputManagerConfig) (evs : list (Q * Event)) :
  let m := this (run Chord_detect chord_cb_throws split_cb_throws
                   (constructor config fresh_host) evs) in
  NoDup (chordCallbacks m) /\ NoDup (splitCallbacks m).
Proof.
  apply (run_this_invariant Chord_detect chord_cb_throws split_cb_throws
           (fun m => NoDup (chordCallbacks m) /\ NoDup (splitCallbacks m))).
  - intros w hand H.
    destruct (processBuffer_this Chord_detect chord_cb_throws hand w)
      as (Hc & _).
    apply core_eq_fields in Hc as (_ & _ & Hcc & Hsc & _). now rewrite Hcc, Hsc.
  - intros w H.
    destruct (recomputeSplit_this split_cb_throws w) as (s & r & Ht).
    rewrite Ht. exact H.
  - intros w midi velocity time H. unfold handleNoteOn.
    destruct (disposed (this w)); [exact H|].
    match goal with
    | |- context [pushToBuffer _ _ ?hand ?note ?w2] =>
        destruct (pushToBuffer_this Chord_detect chord_cb_throws hand note w2)
          as [Hc _]
    end.
    apply core_eq_fields in Hc as (_ & _ & Hcc & Hsc & _). now rewrite Hcc, Hsc.
  - intros w midi H. unfold handleNoteOff.
    destruct (disposed (this w)); [exact H|].
    destruct (_ !! _); [|exact H].
    destruct (pedalDown (this w)); exact H.
  - intros w controller value H. unfold handleControlChange.
    destruct (disposed (this w)); [exact H|].
    destruct (_ =? 64); [|exact H].
    destruct (_ && _); [exact H|]. destruct (_ && _); exact H.
  - intros w H. simpl. split; constructor.
  - intros w cb [H1 H2]. simpl. split; [now apply Set_add_NoDup|exact H2].
  - intros w cb [H1 H2]. simpl. split; [now apply Set_delete_NoDup|exact H2].
  - intros w cb [H1 H2]. simpl. split; [exact H1|now apply Set_add_NoDup].
  - intros w cb [H1 H2]. simpl. split; [exact H1|now apply Set_delete_NoDup].
  - simpl. split; constructor.
Qed.

(** X17. In every state that a manager built on a fresh page can reach, no
    callback is held twice in the chord subscribers nor in the split
    subscribers; so an emission on which no subscriber throws calls each
    chord subscriber exactly once, in subscription order, and returns. *)
Theorem X17_each_subscriber_once Chord_detect chord_cb_throws split_cb_throws
    (config : MidiInputManagerConfig) (evs : list (Q * Event))
    (evt : ChordEvent) :
  let w := run Chord_detect chord_cb_throws split_cb_throws
             (constructor config fresh_host) evs in
  (forall c, c ∈ chordCallbacks (this w) -> chord_cb_throws c evt = false) ->
  NoDup (chordCallbacks (this w)) /\
  NoDup (splitCallbacks (this w)) /\
  NoDup (map (fun c => ChordCb c evt) (chordCallbacks (this w))) /\
  emitChord chord_cb_throws evt w
  = (with_host
       (observe_all
          (EmitChord evt :: map (fun c => ChordCb c evt) (chordCallbacks (this w)))
          (host w)) w, Normal).
Proof.
  intros w Hq.
  destruct (run_callbacks_NoDup Chord_detect chord_cb_throws split_cb_throws
              config evs) as [Hc Hs].
  fold w in Hc, Hs.
  split; [exact Hc|]. split; [exact Hs|]. split.
  - apply NoDup_fmap_2; [|exact Hc]. intros c c' [= ->]. reflexivity.
  - exact (emitChord_quiet chord_cb_throws evt w Hq).
Qed.

Lemma X17_witness :
  (forall c,
     c ∈ chordCallbacks
           (this (run detect_sample quiet_chord quiet_split
                    (constructor DEFAULTS fresh_host) triad)) ->
     quiet_chord c triad_event = false) /\
  (emitChord quiet_chord triad_event
     (run detect_sample quiet_chord quiet_split
        (constructor DEFAULTS fresh_host) triad)).2 = Normal.
Proof.
  assert (Hq : forall c,
             c ∈ chordCallbacks
                   (this (run detect_sample quiet_chord quiet_split
                            (constructor DEFAULTS fresh_host) triad)) ->
             quiet_chord c triad_event = false)
    by (intros c _; reflexivity).
  split; [exact Hq|].
  destruct (X17_each_subscriber_once detect_sample quiet_chord quiet_split
              DEFAULTS triad triad_event Hq) as (_ & _ & _ & Heq).
  rewrite Heq. reflexivity.
Defined.

(** ** Notes and velocities line up while nothing is sustained *)

(** X18. In every state that a manager built on a fresh page can reach,
    when the pedal is up or [sustainIncludesBuffer] is off, the event of a
    closing buffer holds exactly the sorted pitches of its window: no other
    note is folded in, and there are as many velocities as notes. *)
Theorem X18_pedal_up_notes_are_the_window Chord_detect chord_cb_throws
    split_cb_throws (config : MidiInputManagerConfig)
    (evs : list (Q * Event)) (h : Host) (hand : Hand) (first : Q)
    (evt : ChordEvent) :
  let w := run Chord_detect chord_cb_throws split_cb_throws
             (constructor config fresh_host) evs in
  pedalDown (this w) = false \/ sustainIncludesBuffer (cfg (this w)) = false ->
  build_event Chord_detect hand first (with_host h w) = Ok evt ->
  e_notes evt = sort_num (map midi (notes (buffer hand (this w)))) /\
  length (e_velocities evt) = length (e_notes evt).
Proof.
  intros w Hcase H.
  destruct (build_event_fields _ _ _ _ _ H) as (_ & Hn & Hv & _).
  simpl in Hn, Hv.
  assert (Hnil : folded (this w) hand = []).
  { destruct (folded (this w) hand) as [|x r] eqn:E; [reflexivity|].
    assert (Hx : x ∈ folded (this w) hand)
      by (rewrite E; apply elem_of_cons; now left).
    apply folded_spec in Hx as (Hflag & _ & k & an & Hk & _ & _ & Hs).
    destruct Hcase as [Hup|Hoff]; [|congruence].
    destruct (run_active_ok Chord_detect chord_cb_throws split_cb_throws
                config evs k an Hk) as [_ Hns].
    fold w in Hns. rewrite (Hns Hup) in Hs. discriminate. }
  assert (Hnotes : e_notes evt
                   = sort_num (map midi (notes (buffer hand (this w))))).
  { rewrite Hn. unfold noteSet_of. now rewrite gather_split, Hnil, app_nil_r. }
  split; [exact Hnotes|].
  rewrite Hnotes, Hv. unfold velocitiesNormalized_of.
  now rewrite sort_num_length, !length_map.
Qed.

Lemma X18_witness :
  (pedalDown
     (this (run detect_sample quiet_chord quiet_split
              (constructor DEFAULTS fresh_host) triad)) = false \/
   sustainIncludesBuffer
     (cfg (this (run detect_sample quiet_chord quiet_split
                   (constructor DEFAULTS fresh_host) triad))) = false) /\
  build_event detect_sample R 5
    (with_host {| now := 12; timers := []; nextTimerId := 1; log := [] |}
       (run detect_sample quiet_chord quiet_split
          (constructor DEFAULTS fresh_host) triad)) = Ok triad_event /\
  length (e_velocities triad_event) = length (e_notes triad_event).
Proof.
  assert (Hup : pedalDown
                  (this (run detect_sample quiet_chord quiet_split
                           (constructor DEFAULTS fresh_host) triad)) = false \/
                sustainIncludesBuffer
                  (cfg (this (run detect_sample quiet_chord quiet_split
                                (constructor DEFAULTS fresh_host) triad)))
                = false)
    by (left; vm_compute; reflexivity).
  assert (Hb : build_event detect_sample R 5
                 (with_host {| now := 12; timers := []; nextTimerId := 1; log := [] |}
                    (run detect_sample quiet_chord quiet_split
                       (constructor DEFAULTS fresh_host) triad))
               = Ok triad_event) by (vm_compute; reflexivity).
  split; [exact Hup|]. split; [exact Hb|].
  exact (proj2 (X18_pedal_up_notes_are_the_window detect_sample quiet_chord
                  quiet_split DEFAULTS triad
                  {| now := 12; timers := []; nextTimerId := 1; log := [] |}
                  R 5 triad_event
                  Hup Hb)).
Defined.

(** ** How much one turn of the event loop can emit *)

Section Emissions.

Variable Chord_detect : list (option string) -> DetectResult.
Variable chord_cb_throws : nat -> ChordEvent -> bool.
Variable split_cb_throws : nat -> SplitChangeEvent -> bool.

Lemma call_chord_callbacks_splits (cbs : list nat) (evt : ChordEvent)
    (h : Host) :
  splits_emitted (log (call_chord_callbacks chord_cb_throws cbs evt h).1)
  = splits_emitted (log h).
Proof.
  revert h. induction cbs as [|cb rest IH]; intros h; simpl; [reflexivity|].
  assert (Hobs : splits_emitted (log (observe (ChordCb cb evt) h))
                 = splits_emitted (log h)).
  { simpl. rewrite splits_emitted_app. simpl. apply app_nil_r. }
  destruct (chord_cb_throws cb evt); simpl; [exact Hobs|].
  rewrite IH. exact Hobs.
Qed.

Lemma call_split_callbacks_chords (cbs : list nat) (evt : SplitChangeEvent)
    (h : Host) :
  chords_emitted (log (call_split_callbacks split_cb_throws cbs evt h).1)
  = chords_emitted (log h).
Proof.
  revert h. induction cbs as [|cb rest IH]; intros h; simpl; [reflexivity|].
  assert (Hobs : chords_emitted (log (observe (SplitCb cb evt) h))
                 = chords_emitted (log h)).
  { simpl. rewrite chords_emitted_app. simpl. apply app_nil_r. }
  destruct (split_cb_throws cb evt); simpl; [exact Hobs|].
  rewrite IH. exact Hobs.
Qed.

Lemma emitChord_splits (evt : ChordEvent) (w : World) :
  splits_emitted (log (host (emitChord chord_cb_throws evt w).1))
  = splits_emitted (log (host w)).
Proof.
  unfold emitChord.
  pose proof (call_chord_callbacks_splits (chordCallbacks (this w)) evt
                (observe (EmitChord evt) (host w))) as H.
  destruct (call_chord_callbacks _ _ _ _) as [h c]. simpl in *.
  rewrite H, splits_emitted_app. simpl. apply app_nil_r.
Qed.

Lemma emitSplitChange_chords (w : World) :
  chords_emitted (log (host (emitSplitChange split_cb_throws w).1))
  = chords_emitted (log (host w)).
Proof.
  unfold emitSplitChange.
  pose proof (call_split_callbacks_chords (splitCallbacks (this w))
                {| splitMidi := splitPoint (this w);
                   s_timestamp := now (host w) |}
                (observe (EmitSplit {| splitMidi := splitPoint (this w);
                                       s_timestamp := now (host w) |})
                   (host w))) as H.
  destruct (call_split_callbacks _ _ _ _) as [h c]. simpl in *.
  rewrite H, chords_emitted_app. simpl. apply app_nil_r.
Qed.

Lemma clearTimer_log (hand : Hand) (w : World) :
  log (host (clearTimer hand w)) = log (host w).
Proof. unfold clearTimer. simpl. apply clear_if_set_log. Qed.

Lemma arm_log (hand : Hand) (delay : Q) (w : World) :
  log (host (arm hand delay w)) = log (host w).
Proof. reflexivity. Qed.

Lemma processBuffer_emissions (hand : Hand) (w : World) :
  let w' := (processBuffer Chord_detect chord_cb_throws hand w).1 in
  exists lc,
    chords_emitted (log (host w')) = chords_emitted (log (host w)) ++ lc /\
    (length lc <= 1)%nat /\
    splits_emitted (log (host w')) = splits_emitted (log (host w)).
Proof.
  unfold processBuffer.
  assert (Hreset : exists lc,
             chords_emitted (log (host (resetBuffer hand w)))
             = chords_emitted (log (host w)) ++ lc /\
             (length lc <= 1)%nat /\
             splits_emitted (log (host (resetBuffer hand w)))
             = splits_emitted (log (host w))).
  { exists []. rewrite resetBuffer_log, app_nil_r. simpl. auto. }
  destruct (firstTime (buffer hand (this w))) as [first|]; [|exact Hreset].
  destruct (_ || _); [exact Hreset|].
  destruct (build_event Chord_detect hand first w) as [evt|e].
  - pose proof (emitChord_emitted chord_cb_throws evt w) as Hc.
    pose proof (emitChord_splits evt w) as Hs.
    destruct (emitChord chord_cb_throws evt w) as [w1 [|e]]; simpl in *;
      exists [evt]; rewrite ?clear_if_set_log; simpl; auto.
  - exists []. simpl. rewrite app_nil_r. auto.
Qed.

Lemma pushToBuffer_emissions (hand : Hand) (note : BufferedNote) (w : World) :
  let w' := (pushToBuffer Chord_detect chord_cb_throws hand note w).1 in
  exists lc,
    chords_emitted (log (host w')) = chords_emitted (log (host w)) ++ lc /\
    (length lc <= 1)%nat /\
    splits_emitted (log (host w')) = splits_emitted (log (host w)).
Proof.
  unfold pushToBuffer.
  destruct (firstTime (buffer hand (this w))) as [first|].
  - destruct (_ && _).
    + destruct (processBuffer_emissions hand
                  (clearTimer hand
                     (with_this
                        (set_buffer hand
                           (set_notes (notes (buffer hand (this w)) ++ [note])
                              (buffer hand (this w))) (this w)) w)))
        as (lc & Hc & Hl & Hs).
      rewrite clearTimer_log in Hc, Hs. exists lc. auto.
    + destruct (_ && _); exists []; simpl;
        rewrite ?clear_if_set_log, app_nil_r; auto.
  - exists []. simpl. rewrite app_nil_r. auto.
Qed.

Lemma handleNoteOn_emissions (midi velocity : Z) (time : Q) (w : World) :
  let w' := (handleNoteOn Chord_detect chord_cb_throws midi velocity time w).1 in
  exists lc,
    chords_emitted (log (host w')) = chords_emitted (log (host w)) ++ lc /\
    (length lc <= 1)%nat /\
    splits_emitted (log (host w')) = splits_emitted (log (host w)).
Proof.
  unfold handleNoteOn. destruct (disposed (this w)).
  - exists []. simpl. rewrite app_nil_r. auto.
  - match goal with
    | |- context [pushToBuffer _ _ ?h ?n ?w2] =>
        destruct (pushToBuffer_emissions h n w2) as (lc & Hc & Hl & Hs)
    end.
    exists lc. split; [exact Hc|]. split; [exact Hl|exact Hs].
Qed.

Lemma recomputeSplit_emissions (w : World) :
  let w' := (recomputeSplit split_cb_throws w).1 in
  exists ls,
    splits_emitted (log (host w')) = splits_emitted (log (host w)) ++ ls /\
    (length ls <= 1)%nat /\
    chords_emitted (log (host w')) = chords_emitted (log (host w)).
Proof.
  intros w'.
  destruct (recomputeSplit_effect split_cb_throws w) as [_ Hs].
  fold w' in Hs. eexists. split; [exact Hs|]. split.
  - destruct (moves (this w)); simpl; lia.
  - subst w'. unfold recomputeSplit.
    destruct (_ <? 8)%nat; [reflexivity|].
    destruct (_ <=? _); [destruct (negb _)|].
    + pose proof (emitSplitChange_chords
                    (with_this
                       (set_splitPoint
                          (Z.min (splitMax (cfg (this w)))
                             (Z.max (splitMin (cfg (this w)))
                                (center_of (recentNoteOns (this w)))))
                          (this w)) w)) as Hc.
      destruct (emitSplitChange _ _) as [w1 [|e]]; simpl in *;
        [destruct (128 <? _)%nat|]; exact Hc.
    + destruct (128 <? _)%nat; reflexivity.
    + destruct (128 <? _)%nat; reflexivity.
Qed.

Lemma settle_splits (r : World * Completion) :
  splits_emitted (log (host (settle r))) = splits_emitted (log (host r.1)).
Proof.
  destruct r as [w [|e]]; simpl; [reflexivity|].
  rewrite splits_emitted_app. simpl. apply app_nil_r.
Qed.

Lemma handleNoteOff_log (midi : Z) (w : World) :
  log (host (handleNoteOff midi w)) = log (host w).
Proof.
  unfold handleNoteOff. destruct (disposed (this w)); [reflexivity|].
  destruct (_ !! _); [|reflexivity].
  destruct (pedalDown (this w)); reflexivity.
Qed.

Lemma handleControlChange_log (controller value : Z) (w : World) :
  log (host (handleControlChange controller value w)) = log (host w).
Proof.
  unfold handleControlChange. destruct (disposed (this w)); [reflexivity|].
  destruct (_ =? 64); [|reflexivity].
  destruct (_ && _); [reflexivity|].
  destruct (_ && _); reflexivity.
Qed.

Lemma dispose_log (w : World) : log (host (dispose w)) = log (host w).
Proof. unfold dispose. simpl. now rewrite !clear_if_set_log. Qed.

(** X19. One turn of the event loop hands at most one event to the
    subscribers: a note-on emits at most one chord event and no split
    change, a timer emits at most one chord event or one split change, and
    a note-off, a control change, [dispose], subscribing and unsubscribing
    call nobody at all. *)
Theorem X19_one_emission_per_turn (w : World) (t : Q) (ev : Event) :
  let w' := step Chord_detect chord_cb_throws split_cb_throws w (t, ev) in
  exists lc ls,
    chords_emitted (log (host w')) = chords_emitted (log (host w)) ++ lc /\
    splits_emitted (log (host w')) = splits_emitted (log (host w)) ++ ls /\
    (length lc + length ls <= 1)%nat /\
    match ev with
    | CallNoteOn _ _ _ => ls = []
    | FireTimer _ => True
    | _ => log (host w') = log (host w)
    end.
Proof.
  assert (Hsame : forall w1 : World,
             log (host w1) = log (host w) ->
             exists lc ls,
               chords_emitted (log (host w1))
               = chords_emitted (log (host w)) ++ lc /\
               splits_emitted (log (host w1))
               = splits_emitted (log (host w)) ++ ls /\
               (length lc + length ls <= 1)%nat /\
               log (host w1) = log (host w)).
  { intros w1 H. exists [], []. rewrite H, !app_nil_r. simpl. auto. }
  set (w0 := with_host (at_time t (host w)) w).
  assert (H0 : log (host w0) = log (host w)) by reflexivity.
  destruct ev; unfold step; cbv zeta; fold w0.
  - destruct (handleNoteOn_emissions midi0 velocity0 (default t time0) w0)
      as (lc & Hc & Hl & Hs).
    exists lc, []. rewrite settle_chords, settle_splits, Hc, Hs, H0, app_nil_r.
    repeat split; auto. simpl. lia.
  - apply (Hsame (handleNoteOff midi0 w0)). now rewrite handleNoteOff_log.
  - apply (Hsame (handleControlChange controller value w0)).
    now rewrite handleControlChange_log.
  - apply (Hsame (dispose w0)). now rewrite dispose_log.
  - apply (Hsame (onChord cb w0)). reflexivity.
  - apply (Hsame (offChord cb w0)). reflexivity.
  - apply (Hsame (onSplitChange cb w0)). reflexivity.
  - apply (Hsame (offSplitChange cb w0)). reflexivity.
  - unfold fire.
    destruct (List.find _ _) as [x|].
    + set (w1 := with_host _ w0).
      assert (H1 : log (host w1) = log (host w)) by reflexivity.
      rewrite settle_chords, settle_splits.
      destruct (t_task x) as [hand|]; unfold run_task.
      * destruct (processBuffer_emissions hand w1) as (lc & Hc & Hl & Hs).
        exists lc, []. rewrite Hc, Hs, H1, app_nil_r.
        repeat split; auto. simpl. lia.
      * destruct (recomputeSplit_emissions w1) as (ls & Hs & Hl & Hc).
        exists [], ls. rewrite Hc, Hs, H1, app_nil_r.
        repeat split; auto.
    + destruct (Hsame w0 H0) as (lc & ls & ? & ? & ? & _).
      exists lc, ls. auto.
Qed.

End Emissions.
